(** * h3sed hero plugin: locating hero records in a savefile

    A shallow embedding of [h3sed/plugins/hero/__init__.py]: the byte
    patterns that recognise a hero record, the detection loop of
    [HeroPlugin.parse], the [Hero] container with its base-stats cache,
    and the patch step that writes a hero back into the savefile. *)

From Stdlib Require Import Strings.Byte NArith ZArith List String Ascii Lia.
From stdpp Require Import base option list strings gmap sorting.

Local Open Scope nat_scope.

(** ** Byte patterns

    The subset of Python's [re] syntax the module uses, over bytes.  The
    patterns are compiled with [re.DOTALL], so [.] is any byte. *)
Module Re.

(** A character class: [.], a literal byte, a range [[\xLO-\xHI]], or a
    negated set of ranges [[^...]]. *)
Inductive charset : Type :=
| Any
| Lit (b : byte)
| Range (lo hi : byte)
| NoneOf (ranges : list (byte * byte)).

Definition in_range (lo hi b : byte) : bool :=
  (Byte.to_N lo <=? Byte.to_N b)%N && (Byte.to_N b <=? Byte.to_N hi)%N.

Definition in_charset (c : charset) (b : byte) : bool :=
  match c with
  | Any => true
  | Lit b0 => Byte.eqb b0 b
  | Range lo hi => in_range lo hi b
  | NoneOf ranges => negb (existsb (fun r => in_range (fst r) (snd r) b) ranges)
  end.

(** Patterns.  [Rep n r] is [r{n}], [Plus r] is the greedy [r+], [Bol]
    and [Eol] are [^] and [$] (no [re.MULTILINE]), [Group] is a capturing
    group whose capture the code reads; parentheses whose capture is never
    read only group and leave no constructor. *)
Inductive regex : Type :=
| Eps
| Chr (c : charset)
| Cat (r1 r2 : regex)
| Alt (r1 r2 : regex)
| Rep (n : nat) (r : regex)
| Plus (r : regex)
| Group (name : string) (r : regex)
| Bol
| Eol.

(** The matcher's state: the offset reached in the subject, the bytes
    still ahead, and the captures made so far (latest first). *)
Record mstate : Type := MState {
  pos : nat;
  rest : list byte;
  caps : list (string * list byte)
}.

Definition cont : Type := mstate -> option mstate.

Definition advance (s : mstate) (bs : list byte) : mstate :=
  MState (S (pos s)) bs (caps s).

Definition set_cap (name : string) (from to : mstate) : mstate :=
  MState (pos to) (rest to)
         ((name, take (pos to - pos from) (rest from)) :: caps to).

(** [r{n}]: [n] copies of [r] in sequence. *)
Fixpoint rep_loop (step : mstate -> cont -> option mstate)
    (n : nat) (s : mstate) (k : cont) : option mstate :=
  match n with
  | O => k s
  | S n' => step s (fun s1 => rep_loop step n' s1 k)
  end.

(** [r+], greedy: one copy of [r], then as many more as match, giving
    copies back one at a time when what follows fails.  A further copy is
    tried only after a copy that consumed input, as the engine does, so
    the bytes ahead bound the number of copies. *)
Fixpoint plus_loop (step : mstate -> cont -> option mstate)
    (fuel : nat) (s : mstate) (k : cont) : option mstate :=
  step s (fun s1 =>
    match fuel with
    | O => k s1
    | S fuel' =>
        if length (rest s1) <? length (rest s) then
          match plus_loop step fuel' s1 k with
          | Some m => Some m
          | None => k s1
          end
        else k s1
    end).

(** The backtracking matcher: [run r s k] matches [r] from [s] and hands
    the state reached to [k]; alternatives are tried in the order the
    pattern lists them, and a failure of [k] backtracks. *)
Fixpoint run (r : regex) (s : mstate) (k : cont) {struct r} : option mstate :=
  match r with
  | Eps => k s
  | Chr c =>
      match rest s with
      | b :: bs => if in_charset c b then k (advance s bs) else None
      | [] => None
      end
  | Cat r1 r2 => run r1 s (fun s1 => run r2 s1 k)
  | Alt r1 r2 =>
      match run r1 s k with
      | Some m => Some m
      | None => run r2 s k
      end
  | Rep n r1 => rep_loop (run r1) n s k
  | Plus r1 => plus_loop (run r1) (length (rest s)) s k
  | Group name r1 => run r1 s (fun s1 => k (set_cap name s s1))
  | Bol => if pos s =? 0 then k s else None
  | Eol =>
      match rest s with
      | [] => k s
      | [b] => if Byte.eqb b x0a then k s else None
      | _ => None
      end
  end.

(** A match object: its span in the subject and its captures. *)
Record Match : Type := MkMatch {
  m_start : nat;
  m_end : nat;
  m_groups : list (string * list byte)
}.

Fixpoint assoc (name : string) (l : list (string * list byte)) : option (list byte) :=
  match l with
  | [] => None
  | (n, v) :: l' => if String.eqb n name then Some v else assoc name l'
  end.

(** [m.group(name)]; [None] when the group took no part in the match. *)
Definition group (m : Match) (name : string) : option (list byte) :=
  assoc name (m_groups m).

Definition try_at (r : regex) (i : nat) (buf : list byte) : option Match :=
  match run r (MState i buf []) Some with
  | Some s => Some (MkMatch i (pos s) (caps s))
  | None => None
  end.

(** [search_from r i buf]: the leftmost match in a subject whose bytes
    from offset [i] on are [buf]. *)
Fixpoint search_from (r : regex) (i : nat) (buf : list byte) : option Match :=
  match try_at r i buf with
  | Some m => Some m
  | None =>
      match buf with
      | [] => None
      | _ :: bs => search_from r (S i) bs
      end
  end.

(** [re.search(r, buf)] and [r.match(buf)]. *)
Definition re_search (r : regex) (buf : list byte) : option Match :=
  search_from r 0 buf.

Definition re_match (r : regex) (buf : list byte) : option Match :=
  try_at r 0 buf.

(** Syntactic facts about a pattern, used to state what a replacement
    pattern must provide. *)

(** Can [r] match without consuming a byte? *)
Fixpoint nullable (r : regex) : bool :=
  match r with
  | Eps | Bol | Eol => true
  | Chr _ => false
  | Cat r1 r2 => nullable r1 && nullable r2
  | Alt r1 r2 => nullable r1 || nullable r2
  | Rep n r1 => (n =? 0) || nullable r1
  | Plus r1 => nullable r1
  | Group _ r1 => nullable r1
  end.

(** Does every match of [r] capture group [name]? *)
Fixpoint captures (name : string) (r : regex) : bool :=
  match r with
  | Eps | Bol | Eol | Chr _ => false
  | Cat r1 r2 => captures name r1 || captures name r2
  | Alt r1 r2 => captures name r1 && captures name r2
  | Rep n r1 => negb (n =? 0) && captures name r1
  | Plus r1 => captures name r1
  | Group n r1 => String.eqb n name || captures name r1
  end.

(** The number of bytes every match of [r] consumes, when that is fixed
    by the pattern. *)
Fixpoint width (r : regex) : option nat :=
  match r with
  | Eps | Bol | Eol => Some 0
  | Chr _ => Some 1
  | Cat r1 r2 =>
      match width r1, width r2 with
      | Some a, Some b => Some (a + b)
      | _, _ => None
      end
  | Alt r1 r2 =>
      match width r1, width r2 with
      | Some a, Some b => if a =? b then Some a else None
      | _, _ => None
      end
  | Rep n r1 =>
      match width r1 with
      | Some a => Some (n * a)
      | None => None
      end
  | Plus _ => None
  | Group _ r1 => width r1
  end.

(** Does [name] occur as a group anywhere in [r]? *)
Fixpoint mentions (name : string) (r : regex) : bool :=
  match r with
  | Eps | Bol | Eol | Chr _ => false
  | Cat r1 r2 | Alt r1 r2 => mentions name r1 || mentions name r2
  | Rep _ r1 | Plus r1 => mentions name r1
  | Group n r1 => String.eqb n name || mentions name r1
  end.

(** Where group [name] sits in a match of [r], as (offset from the
    match's start, the group's own pattern), when the pattern fixes the
    offset: the group is met once, outside any alternative or repetition,
    after a prefix of fixed width. *)
Fixpoint group_at (name : string) (r : regex) : option (nat * regex) :=
  match r with
  | Cat r1 r2 =>
      if mentions name r2 then
        if mentions name r1 then None
        else
          match width r1, group_at name r2 with
          | Some a, Some (off, body) => Some (a + off, body)
          | _, _ => None
          end
      else group_at name r1
  | Group n r1 =>
      if String.eqb n name then
        if mentions name r1 then None else Some (0, r1)
      else None
  | _ => None
  end.

(** The capture's (offset, length), when the group's width is fixed too. *)
Definition cap_at (name : string) (r : regex) : option (nat * nat) :=
  match group_at name r with
  | Some (off, body) =>
      match width body with
      | Some len => Some (off, len)
      | None => None
      end
  | None => None
  end.

End Re.

Import Re.

Declare Scope re_scope.
Delimit Scope re_scope with re.
Bind Scope re_scope with regex.
Notation "r1 ;; r2" := (Cat r1 r2) (at level 100, r2 at level 200, right associativity) : re_scope.

Definition any : regex := Chr Any.
Definition lit (b : byte) : regex := Chr (Lit b).
Definition rng (lo hi : byte) : regex := Chr (Range lo hi).

(** [RGX_HERO]: the structure of a hero record, 1025 bytes.  The offsets
    in the comments are those of the source. *)
Definition RGX_HERO : regex :=
  ( Rep 4 any ;;                         (* 000-003 movement points in total *)
    Rep 4 any ;;                         (* 004-007 movement points remaining *)
    Rep 4 any ;;                         (* 008-011 experience *)
    rng x00 x1c ;; Rep 3 (lit x00) ;;    (* 012-015 skill slots used *)
    Rep 2 any ;;                         (* 016-017 spell points remaining *)
    Rep 1 any ;;                         (* 018-018 hero level *)
    Rep 63 any ;;                        (* 019-081 unknown *)
    Rep 28 any ;;                        (* 082-109 7 4-byte creature IDs *)
    Rep 28 any ;;                        (* 110-137 7 4-byte creature counts *)
    Group "name"                         (* 138-150 hero name, null-padded *)
      (Chr (NoneOf [(x00, x20); (x2c, x2c); (xf0, xff)]) ;; Rep 11 any ;; lit x00) ;;
    Rep 28 (rng x00 x03) ;;              (* 151-178 skill levels *)
    Rep 28 (rng x00 x1c) ;;              (* 179-206 skill slots *)
    Rep 4 any ;;                         (* 207-210 primary stats *)
    Rep 70 (rng x00 x01) ;;              (* 211-280 spells in book *)
    Rep 70 (rng x00 x01) ;;              (* 281-350 spells available *)
    Group "artifacts"                    (* 351-502 19 8-byte equipments worn *)
      (Rep 19
         (Alt (Rep 4 (lit xff) ;; Rep 4 any)
         (Alt (any ;; Rep 3 (lit x00) ;; Alt (Rep 4 (lit x00)) (Rep 4 (lit xff)))
              (any ;; Rep 3 (lit x00) ;; Rep 2 any ;; Rep 2 (lit x00))))) ;;
    Rep 64                               (* 503-1014 64 8-byte artifacts in backpack *)
      (Alt (any ;; Rep 3 (lit x00)) (Rep 4 (lit xff)) ;;
       Alt (Rep 4 (lit x00)) (Rep 4 (lit xff))) ;;
                                         (* 1015-1024 slots taken by combination artifacts *)
    any ;; Rep 6 (rng x00 x01) ;; rng x00 x02 ;; rng x00 x01 ;; rng x00 x05 )%re.

(** [rgx_strip = ^([^\x00-\x19,\xF0-\xFF]+)\x00+$]; its group 1 is the
    name without the padding. *)
Definition rgx_strip : regex :=
  ( Bol ;; Group "1" (Plus (Chr (NoneOf [(x00, x19); (x2c, x2c); (xf0, xff)]))) ;;
    Plus (lit x00) ;; Eol )%re.

(** [rgx_nulls = ^(\x00+)|(\x00{4}\xFF{4})+$]: the alternation binds
    loosest, so [^] belongs to the first branch and [$] to the second. *)
Definition rgx_nulls : regex :=
  Alt (Bol ;; Plus (lit x00))
      (Plus (Rep 4 (lit x00) ;; Rep 4 (lit xff)) ;; Eol)%re.

(** ** Outcomes of Python code

    A call returns a value, raises, or does not return.  [Raised] stands
    for any exception that leaves the function; [Diverged] for a loop
    that does not end. *)
Inductive outcome (A : Type) : Type :=
| Done (a : A)
| Raised
| Diverged.
Arguments Done {A} a.
Arguments Raised {A}.
Arguments Diverged {A}.

#[global] Instance outcome_ret : MRet outcome := fun A a => Done a.
#[global] Instance outcome_bind : MBind outcome := fun A B f m =>
  match m with
  | Done a => f a
  | Raised => Raised
  | Diverged => Diverged
  end.

#[global] Instance outcome_fmap : FMap outcome := fun A B f m =>
  match m with
  | Done a => Done (f a)
  | Raised => Raised
  | Diverged => Diverged
  end.

(** Truth value of [re.match]'s result: a match object is true, [None]
    is false. *)
Definition truthy {A : Type} (o : option A) : bool :=
  match o with
  | Some _ => true
  | None => false
  end.

(** ** Collaborators outside the module

    [plugins.adapt(self, "regex", RGX_HERO)] gives the pattern of
    [self.savefile.version] (a version plugin may replace the default);
    [util.to_unicode] decodes a name; [lower] is [str.lower].  Unicode
    strings are modelled as [string], compared code point by code point. *)
Class Externals : Type := {
  adapt : option string -> regex -> regex;
  to_unicode : list byte -> string;
  lower : string -> string
}.

(** [metadata.Store.get("artifact_stats")], artifact name to its bonus
    per primary attribute, and [metadata.PrimaryAttributes]. *)
Class Metadata : Type := {
  artifact_stats : gmap string (list Z);
  PrimaryAttributes : list string
}.

(** ** Heroes and savefiles *)

(** [Hero]: the attributes set by [__init__], and the two that subplugins
    add and [ensure_basestats] reads: [artifacts] (slot to artifact name or
    [None], in insertion order) and [stats].  An attribute a hero does not
    have is [None].  The savefile back-reference is passed explicitly where
    it is used; the YAML snapshots are display data and left out. *)
Record Hero : Type := MkHero {
  name : string;
  bytes : list byte;
  place : nat;
  span : nat * nat;
  basestats : gmap string Z;
  artifacts : option (list (string * option string));
  stats : option (gmap string Z)
}.

(** [Hero(name, bytes, place, span, savefile)]. *)
Definition Hero_init (nm : string) (bs : list byte) (pl : nat) (sp : nat * nat) : Hero :=
  MkHero nm bs pl sp ∅ None None.

(** [metadata.Savefile], as far as this module touches it: the recorded
    game version ([None] while unknown), the unpacked contents, the file
    name. *)
Record Savefile : Type := MkSavefile {
  version : option string;
  raw : list byte;
  filename : string
}.

Definition set_version (v : option string) (sf : Savefile) : Savefile :=
  MkSavefile v (raw sf) (filename sf).

(** Any Python value a hero can be compared with. *)
Inductive object : Type :=
| OHero (h : Hero)
| ONone
| OStr (s : string)
| OInt (z : Z).

(** [Hero.__eq__]: same name and place. *)
Definition Hero_eq (self : Hero) (other : object) : bool :=
  match other with
  | OHero h => String.eqb (name self) (name h) && Nat.eqb (place self) (place h)
  | _ => false
  end.

(** Truth value of a version key: [None] and the empty string are false. *)
Definition version_truthy (v : option string) : bool :=
  match v with
  | Some s => negb (String.eqb s "")
  | None => false
  end.

(** ** [Hero.ensure_basestats] *)

Section Basestats.
Context `{Metadata}.

(** [STATS.get(item)]; an empty slot's [None] is no key of the table. *)
Definition STATS_get (item : option string) : option (list Z) :=
  match item with
  | Some a => artifact_stats !! a
  | None => None
  end.

(** The filter's test: [STATS.get(item)] is true for a non-empty entry. *)
Definition has_stats (item : option string) : bool :=
  match STATS_get item with
  | Some (_ :: _) => true
  | _ => false
  end.

(** [diff = [a + b for a, b in zip(diff, STATS[item])]], over the items
    that have stats. *)
Definition add_bonus (diff : list Z) (item : option string) : list Z :=
  zip_with Z.add diff (default [] (STATS_get item)).

Definition bonus_sum (items : list (option string)) : list Z :=
  fold_left add_bonus (filter (fun i => has_stats i = true) items)
            (replicate (length PrimaryAttributes) 0%Z).

(** [for k, v in zip(PrimaryAttributes, diff): basestats[k] = stats[k] - v];
    reading [self.stats[k]] raises when the hero has no [stats] or no
    [stats[k]]. *)
Fixpoint store_base (st : option (gmap string Z)) (kvs : list (string * Z))
    (base : gmap string Z) : outcome (gmap string Z) :=
  match kvs with
  | [] => Done base
  | (k, v) :: kvs' =>
      match st with
      | None => Raised
      | Some m =>
          match m !! k with
          | None => Raised
          | Some x => store_base st kvs' (<[k := (x - v)%Z]> base)
          end
      end
  end.

Definition set_basestats (b : gmap string Z) (h : Hero) : Hero :=
  MkHero (name h) (bytes h) (place h) (span h) b (artifacts h) (stats h).

Definition ensure_basestats (self : Hero) (clear : bool) : outcome Hero :=
  let self1 := if clear then set_basestats ∅ self else self in
  if negb (bool_decide (basestats self1 = ∅)) then Done self1
  else
    match artifacts self1 with
    | None => Done self1
    | Some arts =>
        let diff := bonus_sum (snd <$> arts) in
        b ← store_base (stats self1) (zip PrimaryAttributes diff) (basestats self1);
        Done (set_basestats b self1)
    end.

End Basestats.

(** ** [HeroPlugin.parse] *)

Section Parse.
Context `{Externals}.

(** The test on a structural match: the name capture must match
    [rgx_strip] and the equipment capture must not match [rgx_nulls].
    [and] does not read the second capture when the first test fails. *)
Definition accepted (m : Match) : outcome bool :=
  match group m "name" with
  | None => Raised
  | Some nm =>
      if truthy (re_match rgx_strip nm) then
        match group m "artifacts" with
        | None => Raised
        | Some arts => Done (negb (truthy (re_match rgx_nulls arts)))
        end
      else Done false
  end.

(** [util.to_unicode(rgx_strip.match(m.group("name")).group(1))]. *)
Definition hero_name (m : Match) : outcome string :=
  match group m "name" with
  | None => Raised
  | Some nm =>
      match re_match rgx_strip nm with
      | None => Raised
      | Some ms =>
          match group ms "1" with
          | None => Raised
          | Some body => Done (to_unicode body)
          end
      end
  end.

(** [raw[a:b]]. *)
Definition slice (l : list byte) (a b : nat) : list byte :=
  take (b - a) (drop a l).

(** The inner loop of [parse] from offset [pos] on, with the heroes found
    so far.  Each turn searches [raw[pos:]]; [fuel] bounds the turns, and
    running out of it stands for a loop that does not end (see
    [scan_fuel]). *)
Fixpoint scan (fuel : nat) (RGX : regex) (buf : list byte) (pos : nat)
    (vresult : list Hero) : outcome (list Hero) :=
  match fuel with
  | O => Diverged
  | S fuel' =>
      match re_search RGX (drop pos buf) with
      | None => Done vresult
      | Some m =>
          ok ← accepted m;
          if ok : bool then
            nm ← hero_name m;
            let blob := slice buf (pos + m_start m) (pos + m_end m) in
            let hero := Hero_init nm blob (length vresult)
                                  (m_start m + pos, m_end m + pos) in
            scan fuel' RGX buf (pos + m_end m) (vresult ++ [hero])
          else scan fuel' RGX buf (pos + m_start m + 1) vresult
      end
  end.

(** Hero structs are more to the end of the file. *)
Definition START_POS : nat := 10000.
#[global] Arguments START_POS : simpl never.

(** Every turn of the loop that finds a match moves [pos] forward, and
    past the end of the buffer every turn sees the same empty slice: a
    loop that ends does so within [length buf + 1] searches, and more
    fuel never changes the outcome ([scan_more_fuel]). *)
Definition scan_fuel (buf : list byte) : nat := S (length buf).

(** One detection pass: [vresult = version_results.setdefault(ver, [])]
    and the inner loop. *)
Definition detect (ver : option string) (buf : list byte)
    (results : gmap (option string) (list Hero)) : outcome (list Hero) :=
  scan (scan_fuel buf) (adapt ver RGX_HERO) buf START_POS
       (default [] (results !! ver)).

(** [while versions: ver = versions.pop(); ...], over the versions in the
    order they are popped. *)
Fixpoint detect_all (popped : list (option string)) (buf : list byte)
    (results : gmap (option string) (list Hero))
    : outcome (gmap (option string) (list Hero)) :=
  match popped with
  | [] => Done results
  | ver :: popped' =>
      vresult ← detect ver buf results;
      detect_all popped' buf (<[ver := vresult]> results)
  end.

(** [sorted(l, key=lambda x: x.name.lower())]: a stable sort. *)
Definition name_key (h : Hero) : string := lower (name h).

Fixpoint insert_sorted (x : Hero) (l : list Hero) : list Hero :=
  match l with
  | [] => [x]
  | y :: l' =>
      if String.leb (name_key x) (name_key y) then x :: y :: l'
      else y :: insert_sorted x l'
  end.

Definition sorted (l : list Hero) : list Hero := fold_right insert_sorted [] l.

(** [max(vcounts.values())]. *)
Definition max_count (vcounts : gmap (option string) nat) : nat :=
  max_list (snd <$> map_to_list vcounts).

(** What [parse] leaves behind: the savefile, [self._heroes], and the
    message handed to [guibase.status], if any. *)
Record Parsed : Type := MkParsed {
  p_savefile : Savefile;
  p_heroes : list Hero;
  p_status : option string
}.

Definition no_heroes_status (sf : Savefile) : string :=
  "No heroes identified in " ++ filename sf ++ ".".

(** The versions to try: every version plugin's name when asked to
    detect and a version plugin is loaded, else the savefile's own.
    [plugin_versions] are the names in [plugins.version.PLUGINS], [None]
    without a version plugin. *)
Definition candidates (plugin_versions : option (list string)) (detect_version : bool)
    (sf : Savefile) : list (option string) :=
  let versions :=
    match detect_version, plugin_versions with
    | true, Some names => Some <$> names
    | _, _ => []
    end in
  if versions is [] then [version sf] else versions.

(** [parse(detect_version)]. *)
Definition parse (plugin_versions : option (list string)) (detect_version : bool)
    (sf : Savefile) : outcome Parsed :=
  let ver0 := version sf in
  let versions := candidates plugin_versions detect_version sf in
  let all_versions := versions in
  version_results ← detect_all (reverse versions) (raw sf) ∅;
  let vcounts := length <$> version_results in
  let maxcount_vers :=
    filter (fun k => vcounts !! k = Some (max_count vcounts)) all_versions in
  let ver := default None (last maxcount_vers) in
  if version_truthy ver then
    Done (MkParsed (set_version ver sf)
                   (sorted (default [] (version_results !! ver)))
                   None)
  else
    Done (MkParsed (set_version ver0 sf) [] (Some (no_heroes_status sf))).

(** The heroes one pass finds for a version on a fresh result list, and
    their number. *)
Definition pass (ver : option string) (buf : list byte) : outcome (list Hero) :=
  detect ver buf ∅.

Definition hero_count (ver : option string) (buf : list byte) : nat :=
  match pass ver buf with
  | Done hs => length hs
  | _ => 0
  end.

End Parse.

(** ** [HeroPlugin.patch] *)

(** Modelled from the spec: [metadata.Savefile.patch(bytes, span)] is not
    among the sources.  It splices the bytes into the buffer at the span
    and gives the updated buffer; the rest is untouched. *)
Definition Savefile_patch (sf : Savefile) (bs : list byte) (sp : nat * nat) : Savefile :=
  MkSavefile (version sf)
             (take (fst sp) (raw sf) ++ bs ++ drop (snd sp) (raw sf))
             (filename sf).

Definition set_bytes (bs : list byte) (h : Hero) : Hero :=
  MkHero (name h) bs (place h) (span h) (basestats h) (artifacts h) (stats h).

(** [patch]: every subplugin that can serialize replaces the hero's bytes
    with its new bytearray, then the savefile is patched at the hero's
    span.  A subplugin's [serialize] is a function of the hero it holds;
    [None] is a subplugin without one. *)
Definition serialize_all (subplugins : list (option (Hero -> list byte))) (h : Hero) : Hero :=
  fold_left (fun h p => match p with
                        | Some serialize => set_bytes (serialize h) h
                        | None => h
                        end) subplugins h.

Definition patch (subplugins : list (option (Hero -> list byte))) (h : Hero)
    (sf : Savefile) : Hero * Savefile :=
  let h' := serialize_all subplugins h in
  (h', Savefile_patch sf (bytes h') (span h')).

(** ** What a pattern matches

    [matches r s s']: from state [s] the pattern [r] can reach [s'].  The
    matcher [run] explores exactly these, in the pattern's order. *)
Inductive matches : regex -> mstate -> mstate -> Prop :=
| M_eps s : matches Eps s s
| M_chr c s b bs :
    rest s = b :: bs -> in_charset c b = true ->
    matches (Chr c) s (advance s bs)
| M_cat r1 r2 s s1 s2 :
    matches r1 s s1 -> matches r2 s1 s2 -> matches (Cat r1 r2) s s2
| M_alt_l r1 r2 s s1 : matches r1 s s1 -> matches (Alt r1 r2) s s1
| M_alt_r r1 r2 s s1 : matches r2 s s1 -> matches (Alt r1 r2) s s1
| M_rep_O r s : matches (Rep 0 r) s s
| M_rep_S n r s s1 s2 :
    matches r s s1 -> matches (Rep n r) s1 s2 -> matches (Rep (S n) r) s s2
| M_plus_1 r s s1 : matches r s s1 -> matches (Plus r) s s1
| M_plus_S r s s1 s2 :
    matches r s s1 -> length (rest s1) < length (rest s) ->
    matches (Plus r) s1 s2 -> matches (Plus r) s s2
| M_group nm r s s1 : matches r s s1 -> matches (Group nm r) s (set_cap nm s s1)
| M_bol s : pos s = 0 -> matches Bol s s
| M_eol s : rest s = [] \/ rest s = [x0a] -> matches Eol s s.

(** ** Reading the two validation patterns *)

(** A byte [rgx_strip] allows in a name: none of [\x00-\x19], the comma,
    [\xF0-\xFF]. *)
Definition name_byte (b : byte) : bool :=
  let n := Byte.to_N b in
  (0x19 <? n)%N && negb (n =? 0x2c)%N && (n <? 0xf0)%N.

(** One or more allowed bytes, then one or more nulls, and nothing else. *)
Definition padded_name (nm : list byte) : Prop :=
  exists body pad,
    nm = body ++ pad /\ body <> [] /\ pad <> [] /\
    Forall (fun b => name_byte b = true) body /\ Forall (fun b => b = x00) pad.

(** The equipment slot the pattern's third alternative reads as artifact
    0 with nothing bound: [00 00 00 00 FF FF FF FF]. *)
Definition null_slot : list byte := [x00; x00; x00; x00; xff; xff; xff; xff].

(** The claim on acceptance in the spec's words: a name of printable
    bytes (no control byte, no comma, no extended byte) followed only by
    nulls, and an equipment table that is not all empty slots.  An empty
    slot is the source's blank spot, [FF FF FF FF] and four more bytes. *)
Definition printable_byte (b : byte) : bool :=
  let n := Byte.to_N b in
  (0x20 <=? n)%N && (n <? 0x7f)%N && negb (n =? 0x2c)%N.

Fixpoint printable_padded (seen : bool) (nm : list byte) : bool :=
  match nm with
  | [] => seen
  | b :: nm' =>
      if Byte.eqb b x00 then seen && forallb (Byte.eqb x00) nm'
      else printable_byte b && printable_padded true nm'
  end.

Fixpoint all_blank_slots (n : nat) (arts : list byte) : bool :=
  match n with
  | O => true
  | S n' =>
      forallb (Byte.eqb xff) (take 4 arts) && (length (take 4 arts) =? 4)
      && all_blank_slots n' (drop 8 arts)
  end.

Definition acceptance_as_claimed : Prop :=
  forall buf m nm arts,
    re_search RGX_HERO buf = Some m ->
    group m "name" = Some nm -> group m "artifacts" = Some arts ->
    (accepted m = Done true <->
     printable_padded false nm = true /\ all_blank_slots 19 arts = false).

(** ** Sample records *)

(** A record the pattern matches, with the given name (at most 12 bytes)
    and equipment table (152 bytes); everything else is zero, the backpack
    is blank. *)
Definition sample_record (nm arts : list byte) : list byte :=
  repeat x00 138 ++ nm ++ repeat x00 (13 - length nm)
  ++ repeat x00 200 ++ arts ++ repeat xff 512 ++ repeat x00 10.

(** An equipment table with one artifact in the first slot, the other
    slots blank. *)
Definition one_artifact (id : byte) : list byte :=
  [id; x00; x00; x00; xff; xff; xff; xff] ++ repeat xff 144.

(** What the detection loop needs of a version's pattern: it consumes
    input, and every match captures both groups the loop reads. *)
Definition hero_regex_ok (r : regex) : bool :=
  negb (nullable r) && captures "name" r && captures "artifacts" r.

(** Spans that follow one another from [pos] on: each starts at or after
    the end of the one before, and none is empty. *)
Fixpoint chained (pos : nat) (hs : list Hero) : Prop :=
  match hs with
  | [] => True
  | h :: hs' =>
      pos <= fst (span h) /\ fst (span h) < snd (span h) /\ chained (snd (span h)) hs'
  end.

(** A savefile body: a header of 10000 null bytes, a record whose name
    holds a comma (a structural match the validation rejects), and two
    heroes. *)
Definition sample_buffer : list byte :=
  repeat x00 10000
  ++ sample_record (list_byte_of_string "A,b") (one_artifact x07)
  ++ sample_record (list_byte_of_string "Bron") (one_artifact x07)
  ++ sample_record (list_byte_of_string "adela") (one_artifact x08).

(** Collaborators for the samples: no version plugin replaces the
    pattern, names decode byte by byte, [lower] folds ASCII letters. *)
Definition lower_ascii (c : ascii) : ascii :=
  let n := nat_of_ascii c in
  if (65 <=? n) && (n <=? 90) then ascii_of_nat (n + 32) else c.

Fixpoint lower_string (s : string) : string :=
  match s with
  | EmptyString => EmptyString
  | String c s' => String (lower_ascii c) (lower_string s')
  end.

Definition sample_externals : Externals :=
  {| adapt := fun _ r => r;
     to_unicode := string_of_list_byte;
     lower := lower_string |}.

(** The claim on ties in the spec's words: among the layouts with the
    greatest count, the one met last in the newest-to-oldest traversal
    (the order in which [parse] pops the candidates) is selected. *)
Definition most_heroes `{Externals} (cands : list (option string)) (buf : list byte) : nat :=
  max_list ((fun v => hero_count v buf) <$> cands).

Definition last_met_with_most `{Externals} (cands : list (option string))
    (buf : list byte) : option string :=
  default None
    (last (filter (fun v => hero_count v buf = most_heroes cands buf) (reverse cands))).

Definition tie_break_as_claimed : Prop :=
  forall (E : Externals) pv dv sf p,
    parse pv dv sf = Done p ->
    version (p_savefile p) = last_met_with_most (candidates pv dv sf) (raw sf).

(** Heroes in ascending order of the lower-cased name. *)
Definition name_le `{Externals} (a b : Hero) : Prop :=
  String.leb (name_key a) (name_key b) = true.

(** A savefile of the sample buffer with no version recorded yet, and an
    empty one. *)
Definition sample_savefile : Savefile := MkSavefile None sample_buffer "sample.gm1".
Definition empty_savefile : Savefile := MkSavefile None [] "empty.gm1".

(** The bonus an equipped item gives to the primary attribute at index
    [i] (nothing when the item has no entry in the table), and its sum
    over what a hero wears. *)
Definition bonus_of `{Metadata} (i : nat) (item : option string) : Z :=
  match STATS_get item with
  | Some bonus => default 0%Z (bonus !! i)
  | None => 0%Z
  end.

Definition total_bonus `{Metadata} (i : nat) (items : list (option string)) : Z :=
  foldr (fun item acc => (bonus_of i item + acc)%Z) 0%Z items.

(** A bonus table with one artifact that gives +3 attack, and a hero who
    shows attack 10 while wearing it. *)
Definition sample_metadata : Metadata :=
  {| artifact_stats := {[ "Blackshard of the Dead Knight" := [3; 0; 0; 0]%Z ]};
     PrimaryAttributes := ["attack"; "defense"; "power"; "knowledge"] |}.

Definition sample_stats : gmap string Z :=
  {[ "attack" := 10%Z; "defense" := 4%Z; "power" := 1%Z; "knowledge" := 2%Z ]}.

Definition sample_hero (weapon : option string) (cache : gmap string Z) : Hero :=
  MkHero "Bron" (sample_record (list_byte_of_string "Bron") (one_artifact x07)) 0
         (11025, 12050) cache
         (Some [("helm", None); ("weapon", weapon)]) (Some sample_stats).

(** The spec's patch example: a buffer of 2000 bytes, a record at
    [500, 1525), and one subplugin that serializes 1025 new bytes. *)
Definition patch_savefile : Savefile := MkSavefile None (repeat x00 2000) "sample.gm1".
Definition patch_hero : Hero := Hero_init "Bron" (repeat x01 1025) 0 (500, 1525).
Definition patch_subplugins : list (option (Hero -> list byte)) :=
  [Some (fun _ : Hero => repeat x02 1025); None].



(** ** Looking heroes up

    The lookups [HeroPlugin] makes in [self._heroes].  A hero object of
    the list is given by its position, which is what [is] tells apart. *)

(** [next(i for i, h in enumerate(self._heroes) if h == hero)], as in
    [set_data] and [populate_index]; [StopIteration] leaves the function
    when no hero is equal. *)
Definition hero_index (heroes : list Hero) (hero : Hero) : outcome nat :=
  match list_find (fun h => Hero_eq h (OHero hero)) heroes with
  | Some (i, _) => Done i
  | None => Raised
  end.

(** [x.name == value]: a name equals a string only. *)
Definition name_is (x : Hero) (value : object) : bool :=
  match value with
  | OStr s => String.eqb (name x) s
  | _ => false
  end.

(** [action(load=value)]: the index [select_hero] is called with, [None]
    when it is not called.  [ONone] is a missing or [None] argument. *)
Definition action (heroes : list Hero) (load : object) : option Z :=
  match load with
  | ONone => None
  | _ =>
      let index :=
        match load with
        | OInt value => Z.max 0 (Z.min value (Z.of_nat (length heroes) - 1))
        | _ =>
            match list_find (fun x => name_is x load) heroes with
            | Some (i, _) => Z.of_nat i
            | None => (-1)%Z
            end
        end in
      if (0 <=? index)%Z && negb (bool_decide (heroes = [])) then Some index else None
  end.

(** The reconciliation in [reparse] of a page open on [heroes0[index]]
    with the heroes parsed anew: the hero at the same index when it is
    equal, else the first equal hero, else the first of the same name;
    [None] drops the page.  [heroes0[index]] raises out of range. *)
Definition reconcile (heroes0 heroes : list Hero) (index : nat) : outcome (option nat) :=
  match heroes0 !! index with
  | None => Raised
  | Some hero1 =>
      let differs :=
        match heroes !! index with
        | Some hero2 => negb (Hero_eq hero1 (OHero hero2))
        | None => true
        end in
      if differs then
        match list_find (fun x => Hero_eq x (OHero hero1)) heroes with
        | Some (i, _) => Done (Some i)
        | None =>
            Done (fst <$> list_find (fun x => String.eqb (name x) (name hero1)) heroes)
        end
      else Done (Some index)
  end.

(** ** The history of visited pages

    [self._pages_visited] holds hero indexes, and [None] for the index
    page. *)

(** [if self._pages_visited[-1:] != [index]: self._pages_visited.append(index)],
    the last step of [select_hero] and of [select_index]. *)
Definition visit (index : option nat) (visited : list (option nat)) : list (option nat) :=
  if decide (last visited = Some index) then visited else visited ++ [index].

(** [[v for i, v in enumerate(visited) if not i or v != visited[i - 1]]]. *)
Fixpoint unrepeat_after (prev : option nat) (visited : list (option nat))
    : list (option nat) :=
  match visited with
  | [] => []
  | v :: visited' =>
      (if decide (v = prev) then [] else [v]) ++ unrepeat_after v visited'
  end.

Definition unrepeat (visited : list (option nat)) : list (option nat) :=
  match visited with
  | [] => []
  | v :: visited' => v :: unrepeat_after v visited'
  end.

(** What a page handler does next. *)
Inductive navigation : Type :=
| Nothing
| Veto
| SelectIndex
| SelectHero (index : nat).

(** [on_close_page] for the page [page] while [page0] is the current
    page: the pages left, the history left, and what is selected next.
    Pages are numbered; [pages] maps a hero page to its hero index. *)
Definition on_close_page (ignore_paging : bool) (page page0 : nat)
    (pages : gmap nat nat) (pages_visited : list (option nat))
    : gmap nat nat * list (option nat) * navigation :=
  if ignore_paging then (pages, pages_visited, Nothing)
  else
    match pages !! page with
    | None => (pages, pages_visited, Veto)
    | Some index =>
        let visited := filter (fun x => x <> Some index) pages_visited in
        let visited' := unrepeat visited in
        (delete page pages, visited',
         if page0 =? page then
           match last visited' with
           | None | Some None => SelectIndex
           | Some (Some i) => SelectHero i
           end
         else Nothing)
    end.

(** The loop of [reparse] over the open pages [pages0]: the hero indexes
    of the pages kept, the history left, and the hero to select. *)
Fixpoint reparse_pages (heroes0 heroes : list Hero) (hero0 : option Hero)
    (pages0 : list nat) (visited0 : list (option nat)) (hero : option nat)
    : outcome (list nat * list (option nat) * option nat) :=
  match pages0 with
  | [] => Done ([], visited0, hero)
  | index :: pages0' =>
      hero2 ← reconcile heroes0 heroes index;
      match hero2 with
      | None =>
          reparse_pages heroes0 heroes hero0 pages0'
            (filter (fun i => i <> Some index) visited0) hero
      | Some i2 =>
          let hero' :=
            match hero, hero0 with
            | None, Some h0 =>
                if bool_decide (name <$> heroes !! i2 = Some (name h0)) then Some i2 else None
            | _, _ => hero
            end in
          '(pages, visited, hero'') ← reparse_pages heroes0 heroes hero0 pages0' visited0 hero';
          Done (index :: pages, visited, hero'')
      end
  end.

(** [reparse] after [self.parse()]: [heroes0], [hero0], [pages0] and
    [visited0] are the state before, [heroes] the heroes parsed anew.
    Gives the pages and the history left and the index [select_hero] is
    called with at the end.  [self._heroes[visited0[-1]]] raises for the
    index page's [None] and for an index out of range. *)
Definition reparse (heroes0 heroes : list Hero) (hero0 : option Hero)
    (pages0 : list nat) (visited0 : list (option nat))
    : outcome (list nat * list (option nat) * option nat) :=
  '(pages, visited, hero) ← reparse_pages heroes0 heroes hero0 pages0 visited0 None;
  let visited' := unrepeat visited in
  index ← match hero, last visited' with
          | None, Some None => Raised
          | None, Some (Some i) => if i <? length heroes then Done (Some i) else Raised
          | _, _ => Done hero
          end;
  Done (pages, visited', index).

(** Entries that never stand twice in a row. *)
Fixpoint no_repeat (visited : list (option nat)) : Prop :=
  match visited with
  | v :: ((w :: _) as visited') => v <> w /\ no_repeat visited'
  | _ => True
  end.

(** ** The filter of the heroes index *)

(** [w in t]. *)
Fixpoint contains (t w : string) : bool :=
  String.prefix w t ||
  match t with
  | EmptyString => false
  | String _ t' => contains t' w
  end.

(** The categories of a hero's texts that are searched: the one with the
    empty name, and those toggled on; [toggles[c]] raises for a category
    without a toggle. *)
Fixpoint shown_texts (toggles : gmap string bool) (htexts : list (string * string))
    : outcome (list string) :=
  match htexts with
  | [] => Done []
  | (c, t) :: htexts' =>
      keep ← (if String.eqb c "" then Done true
              else match toggles !! c with
                   | Some b => Done b
                   | None => Raised
                   end);
      shown ← shown_texts toggles htexts';
      Done (if keep : bool then t :: shown else shown)
  end.

(** [texts = ["\n".join(...) for tt in herotexts]]. *)
Fixpoint index_texts (toggles : gmap string bool) (herotexts : list (list (string * string)))
    : outcome (list string) :=
  match herotexts with
  | [] => Done []
  | htexts :: herotexts' =>
      shown ← shown_texts toggles htexts;
      texts ← index_texts toggles herotexts';
      Done (String.concat (String "010" EmptyString) shown :: texts)
  end.

(** [matches = [(i, h) for i, (h, t) in enumerate(zip(heroes, texts))
                if all(w in t for w in words)]], counting from [i]. *)
Fixpoint index_matches_from (i : nat) (heroes : list Hero) (texts : list string)
    (words : list string) : list (nat * Hero) :=
  match heroes, texts with
  | h :: heroes', t :: texts' =>
      (if forallb (contains t) words then [(i, h)] else [])
      ++ index_matches_from (S i) heroes' texts' words
  | _, _ => []
  end.

(** The links and heroes [populate_index] shows: all of them without a
    search text, else the matches.  [words] is
    [searchtext.strip().lower().split()], [None] for an empty text. *)
Definition index_visible (heroes : list Hero) (toggles : gmap string bool)
    (herotexts : list (list (string * string))) (words : option (list string))
    : outcome (list nat * list Hero) :=
  match words with
  | None => Done (seq 0 (length heroes), heroes)
  | Some ws =>
      texts ← index_texts toggles herotexts;
      let matches := index_matches_from 0 heroes texts ws in
      Done (fst <$> matches, snd <$> matches)
  end.

(** ** The end of a gzip member ([main.patch_gzip_for_partial])

    [read_eof_py3] on the bytes not yet read from [self._fp]. *)

(** [self._read_exact(n)] on a reader that has the method, as
    [gzip._GzipReader] has up to Python 3.10: [n] bytes are taken, or
    [EOFError] is raised when fewer are left. *)
Definition read_exact (n : nat) (fp : list byte) : outcome (list byte) :=
  if length fp <? n then Raised else Done (drop n fp).

(** [c = b"\x00"; while c == b"\x00": c = self._fp.read(1)], then the
    byte read last is put back: null bytes are read one by one and the
    first other byte stays in the stream. *)
Fixpoint skip_nulls (fp : list byte) : list byte :=
  match fp with
  | [] => []
  | c :: fp' => if Byte.eqb c x00 then skip_nulls fp' else c :: fp'
  end.

(** [has_read_exact] tells whether the reader class has a [_read_exact]
    method.  From Python 3.11 on it has none (the module has a function
    of that name instead) and [self._read_exact] raises
    [AttributeError]. *)
Definition read_eof_py3 (has_read_exact : bool) (fp : list byte) : outcome (list byte) :=
  if has_read_exact then
    fp' ← read_exact 8 fp;
    Done (skip_nulls fp')
  else Raised.

(** Samples for the lookups: the heroes of the sample buffer as [parse]
    lists them, and a list parsed anew, in which Aine has come first and
    adela stands at place 2. *)
Definition sample_heroes : list Hero :=
  [Hero_init "adela" [] 1 (12050, 13075); Hero_init "Bron" [] 0 (11025, 12050)].

Definition sample_heroes_anew : list Hero :=
  [Hero_init "Aine" [] 0 (11025, 12050); Hero_init "adela" [] 2 (13075, 14100);
   Hero_init "Bron" [] 1 (12050, 13075)].

(** Two hero pages, 7 on Bron and 8 on adela. *)
Definition sample_pages : gmap nat nat := {[ 7 := 1; 8 := 0 ]}.

(** The search texts of two heroes, with the army category toggled off. *)
Definition sample_toggles : gmap string bool := {[ "stats" := true; "army" := false ]}.

Definition sample_herotexts : list (list (string * string)) :=
  [[("", "adela"); ("stats", "attack 3"); ("army", "pikeman")];
   [("", "bron"); ("stats", "attack 5"); ("army", "archer")]].

(** A savefile with two heroes whose names differ in letter case only. *)
Definition twin_savefile : Savefile :=
  MkSavefile (Some "sod")
    (repeat x00 10000
     ++ sample_record (list_byte_of_string "bron") (one_artifact x07)
     ++ sample_record (list_byte_of_string "Bron") (one_artifact x07))
    "twins.gm1".

(** The class of the byte at offset [o] of every match of [r], where the
    pattern fixes it: the byte is met after a prefix of fixed width,
    outside any alternative. *)
Fixpoint byte_at (o : nat) (r : regex) : option charset :=
  match r with
  | Chr c => if o =? 0 then Some c else None
  | Cat r1 r2 =>
      match width r1 with
      | Some a => if o <? a then byte_at o r1 else byte_at (o - a) r2
      | None => None
      end
  | Rep n r1 =>
      match width r1 with
      | Some a => if (o <? n * a) && (0 <? a) then byte_at (o mod a) r1 else None
      | None => None
      end
  | Group _ r1 => byte_at o r1
  | _ => None
  end.

(** The greatest byte value of a class given by one byte or one range. *)
Definition charset_max (c : charset) : option N :=
  match c with
  | Lit b => Some (Byte.to_N b)
  | Range _ hi => Some (Byte.to_N hi)
  | _ => None
  end.

(** Does the pattern test the start of the subject ([^])? *)
Fixpoint anchored (r : regex) : bool :=
  match r with
  | Bol => true
  | Eps | Eol | Chr _ => false
  | Cat r1 r2 | Alt r1 r2 => anchored r1 || anchored r2
  | Rep _ r1 | Plus r1 | Group _ r1 => anchored r1
  end.

(** * Properties *)

(** ** The matcher against [matches] *)

Section Engine.

Local Hint Constructors matches : core.

Lemma rep_loop_sound (r : regex) (n : nat) :
  (forall s k m, run r s k = Some m -> exists s1, matches r s s1 /\ k s1 = Some m) ->
  forall s k m, rep_loop (run r) n s k = Some m ->
    exists s1, matches (Rep n r) s s1 /\ k s1 = Some m.
Proof.
  intros IH. induction n as [|n IHn]; intros s k m Hrun; simpl in Hrun.
  - eauto.
  - apply IH in Hrun as (s1 & H1 & Hk).
    apply IHn in Hk as (s2 & H2 & Hk). eauto.
Qed.

Lemma plus_loop_sound (r : regex) (fuel : nat) :
  (forall s k m, run r s k = Some m -> exists s1, matches r s s1 /\ k s1 = Some m) ->
  forall s k m, plus_loop (run r) fuel s k = Some m ->
    exists s1, matches (Plus r) s s1 /\ k s1 = Some m.
Proof.
  intros IH. induction fuel as [|fuel IHf]; intros s k m Hrun; simpl in Hrun.
  - apply IH in Hrun as (s1 & H1 & Hk). eauto.
  - apply IH in Hrun as (s1 & H1 & Hk).
    destruct (length (rest s1) <? length (rest s)) eqn:Hlt; [|eauto].
    apply Nat.ltb_lt in Hlt.
    destruct (plus_loop (run r) fuel s1 k) as [m'|] eqn:Hmore; [|eauto].
    injection Hk as ->.
    apply IHf in Hmore as (s2 & H2 & Hk). eauto.
Qed.

Lemma run_sound (r : regex) :
  forall s k m, run r s k = Some m -> exists s1, matches r s s1 /\ k s1 = Some m.
Proof.
  induction r as [|c|r1 IH1 r2 IH2|r1 IH1 r2 IH2|n r IH|r IH|nm r IH| |];
    intros s k m Hrun; simpl in Hrun.
  - eauto.
  - destruct (rest s) as [|b bs] eqn:Hrest; [discriminate|].
    destruct (in_charset c b) eqn:Hc; [|discriminate]. eauto.
  - apply IH1 in Hrun as (s1 & H1 & Hk).
    apply IH2 in Hk as (s2 & H2 & Hk). eauto.
  - destruct (run r1 s k) as [m'|] eqn:Hl.
    + injection Hrun as ->. apply IH1 in Hl as (s1 & H1 & Hk). eauto.
    + apply IH2 in Hrun as (s1 & H1 & Hk). eauto.
  - eapply rep_loop_sound; eauto.
  - eapply plus_loop_sound; eauto.
  - apply IH in Hrun as (s1 & H1 & Hk). eauto.
  - destruct (pos s =? 0) eqn:Hp; [|discriminate].
    apply Nat.eqb_eq in Hp. eauto.
  - destruct (rest s) as [|b [|b' bs]] eqn:Hrest; [eauto| |discriminate].
    destruct (Byte.eqb b x0a) eqn:Hb; [|discriminate].
    apply Byte.byte_dec_bl in Hb. subst b. eauto.
Qed.

Lemma rep_loop_complete (r : regex) :
  (forall s s1 k, matches r s s1 -> is_Some (k s1) -> is_Some (run r s k)) ->
  forall n s s1 k, matches (Rep n r) s s1 -> is_Some (k s1) ->
    is_Some (rep_loop (run r) n s k).
Proof.
  intros IH. induction n as [|n IHn]; intros s s1 k Hm Hk; inversion Hm; subst; simpl.
  - done.
  - eapply IH; [eassumption|]. eapply IHn; eassumption.
Qed.

Lemma plus_loop_complete (r : regex) :
  (forall s s1 k, matches r s s1 -> is_Some (k s1) -> is_Some (run r s k)) ->
  forall fuel s s1 k, matches (Plus r) s s1 -> length (rest s) <= fuel ->
    is_Some (k s1) -> is_Some (plus_loop (run r) fuel s k).
Proof.
  intros IH. induction fuel as [|fuel IHf]; intros s s1 k Hm Hfuel Hk;
    inversion Hm; subst; simpl.
  - eapply IH; eauto.
  - lia.
  - eapply IH; [eassumption|].
    destruct (length (rest s1) <? length (rest s)); [|done].
    destruct (plus_loop (run r) fuel s1 k); [eauto|done].
  - eapply IH; [eassumption|].
    destruct (length (rest s2) <? length (rest s)) eqn:Hlt.
    2:{ apply Nat.ltb_ge in Hlt. lia. }
    assert (Hmore : is_Some (plus_loop (run r) fuel s2 k)).
    { eapply IHf; [eassumption|lia|done]. }
    destruct Hmore as [m' ->]. eauto.
Qed.

Lemma run_complete (r : regex) :
  forall s s1 k, matches r s s1 -> is_Some (k s1) -> is_Some (run r s k).
Proof.
  induction r as [|c|r1 IH1 r2 IH2|r1 IH1 r2 IH2|n r IH|r IH|nm r IH| |];
    intros s s1 k Hm Hk; simpl.
  - inversion Hm; subst. done.
  - inversion Hm as [|? ? b bs Hrest Hc| | | | | | | | | |]; subst.
    rewrite Hrest, Hc. done.
  - inversion Hm; subst. eapply IH1; [eassumption|]. eapply IH2; eassumption.
  - inversion Hm; subst.
    + destruct (IH1 _ _ k ltac:(eassumption) Hk) as [m' ->]. eauto.
    + destruct (run r1 s k); [eauto|]. eapply IH2; eassumption.
  - eapply rep_loop_complete; eauto.
  - eapply plus_loop_complete; eauto.
  - inversion Hm; subst. eapply IH; [eassumption|]. done.
  - inversion Hm as [| | | | | | | | | |? Hp|]; subst. rewrite Hp. done.
  - inversion Hm as [| | | | | | | | | | |? [Hr|Hr]]; subst; rewrite Hr; done.
Qed.

End Engine.

(** ** What a match consumes and captures *)

Section Matches.

(** A match moves forward over a prefix of the bytes ahead. *)
Lemma matches_consumes r s s1 :
  matches r s s1 ->
  exists n, pos s1 = pos s + n /\ rest s1 = drop n (rest s) /\ n <= length (rest s).
Proof.
  induction 1 as [s|c s b bs Hrest Hc|r1 r2 s s1 s2 _ IH1 _ IH2|r1 r2 s s1 _ IH
                 |r1 r2 s s1 _ IH|r s|n r s s1 s2 _ IH1 _ IH2|r s s1 _ IH
                 |r s s1 s2 _ IH1 Hlt _ IH2|nm r s s1 _ IH|s Hp|s Hr].
  - exists 0. rewrite drop_0. split; [lia|]. split; [done|lia].
  - exists 1. simpl. rewrite Hrest. simpl. rewrite drop_0.
    split; [lia|]. split; [done|lia].
  - destruct IH1 as (n1 & Hp1 & Hr1 & Hl1), IH2 as (n2 & Hp2 & Hr2 & Hl2).
    exists (n1 + n2). rewrite Hr1 in Hr2, Hl2. rewrite drop_drop in Hr2.
    rewrite length_drop in Hl2. split; [lia|]. split; [done|lia].
  - done.
  - done.
  - exists 0. rewrite drop_0. split; [lia|]. split; [done|lia].
  - destruct IH1 as (n1 & Hp1 & Hr1 & Hl1), IH2 as (n2 & Hp2 & Hr2 & Hl2).
    exists (n1 + n2). rewrite Hr1 in Hr2, Hl2. rewrite drop_drop in Hr2.
    rewrite length_drop in Hl2. split; [lia|]. split; [done|lia].
  - done.
  - destruct IH1 as (n1 & Hp1 & Hr1 & Hl1), IH2 as (n2 & Hp2 & Hr2 & Hl2).
    exists (n1 + n2). rewrite Hr1 in Hr2, Hl2. rewrite drop_drop in Hr2.
    rewrite length_drop in Hl2. split; [lia|]. split; [done|lia].
  - destruct IH as (n & Hp1 & Hr1 & Hl1). exists n. simpl. done.
  - exists 0. rewrite drop_0. split; [lia|]. split; [done|lia].
  - exists 0. rewrite drop_0. split; [lia|]. split; [done|lia].
Qed.

Lemma matches_pos_le r s s1 : matches r s s1 -> pos s <= pos s1.
Proof. intros Hm. apply matches_consumes in Hm as (n & -> & _). lia. Qed.

(** A pattern that is not [nullable] consumes at least one byte. *)
Lemma matches_progress r s s1 :
  matches r s s1 -> nullable r = false -> pos s < pos s1.
Proof.
  induction 1 as [s|c s b bs Hrest Hc|r1 r2 s s1 s2 H1 IH1 H2 IH2|r1 r2 s s1 _ IH
                 |r1 r2 s s1 _ IH|r s|n r s s1 s2 H1 IH1 H2 IH2|r s s1 _ IH
                 |r s s1 s2 H1 IH1 Hlt H2 IH2|nm r s s1 _ IH|s Hp|s Hr];
    simpl; intros Hn; try discriminate.
  - lia.
  - apply matches_pos_le in H1 as Hle1. apply matches_pos_le in H2 as Hle2.
    apply andb_false_iff in Hn as [Hn|Hn]; [specialize (IH1 Hn)|specialize (IH2 Hn)]; lia.
  - apply orb_false_iff in Hn as [Hn _]. auto.
  - apply orb_false_iff in Hn as [_ Hn]. auto.
  - apply matches_pos_le in H2. specialize (IH1 Hn). lia.
  - auto.
  - apply matches_pos_le in H2. specialize (IH1 Hn). lia.
  - auto.
Qed.

(** Captures are only added. *)
Lemma matches_keeps_caps nm r s s1 :
  matches r s s1 -> is_Some (assoc nm (caps s)) -> is_Some (assoc nm (caps s1)).
Proof.
  induction 1; simpl; auto.
  intros Hc. destruct (String.eqb nm0 nm); auto.
Qed.

Lemma matches_captures nm r s s1 :
  matches r s s1 -> captures nm r = true -> is_Some (assoc nm (caps s1)).
Proof.
  induction 1 as [s|c s b bs Hrest Hc|r1 r2 s s1 s2 H1 IH1 H2 IH2|r1 r2 s s1 _ IH
                 |r1 r2 s s1 _ IH|r s|n r s s1 s2 H1 IH1 H2 IH2|r s s1 _ IH
                 |r s s1 s2 H1 IH1 Hlt H2 IH2|nm' r s s1 _ IH|s Hp|s Hr];
    simpl; intros Hn; try discriminate.
  - apply orb_true_iff in Hn as [Hn|Hn]; [|auto].
    eapply matches_keeps_caps; eauto.
  - apply andb_true_iff in Hn as [Hn _]. auto.
  - apply andb_true_iff in Hn as [_ Hn]. auto.
  - eapply matches_keeps_caps; eauto.
  - auto.
  - eapply matches_keeps_caps; eauto.
  - destruct (String.eqb nm' nm); [done|]. simpl in Hn. auto.
Qed.

(** A pattern of fixed width consumes exactly that many bytes. *)
Lemma matches_width r s s1 n :
  matches r s s1 -> width r = Some n -> pos s1 = pos s + n.
Proof.
  intros Hm. revert n.
  induction Hm as [s|c s b bs Hrest Hc|r1 r2 s s1 s2 H1 IH1 H2 IH2|r1 r2 s s1 _ IH
                 |r1 r2 s s1 _ IH|r s|n r s s1 s2 H1 IH1 H2 IH2|r s s1 _ IH
                 |r s s1 s2 H1 IH1 Hlt H2 IH2|nm' r s s1 _ IH|s Hp|s Hr];
    simpl; intros w Hw; try discriminate.
  - injection Hw as <-. lia.
  - injection Hw as <-. lia.
  - destruct (width r1) as [a|]; [|discriminate].
    destruct (width r2) as [b|]; [|discriminate].
    injection Hw as <-. rewrite (IH2 b), (IH1 a); [lia|done|done].
  - destruct (width r1) as [a|]; [|discriminate].
    destruct (width r2) as [b|]; [|discriminate].
    destruct (a =? b); [|discriminate]. auto.
  - destruct (width r1) as [a|]; [|discriminate].
    destruct (width r2) as [b|]; [|discriminate].
    destruct (a =? b) eqn:Hab; [|discriminate].
    apply Nat.eqb_eq in Hab. subst b. auto.
  - destruct (width r) as [a|]; [|discriminate]. injection Hw as <-. lia.
  - simpl in IH2. destruct (width r) as [a|]; [|discriminate].
    injection Hw as <-. rewrite (IH2 (n * a)), (IH1 a); [lia|done|done].
  - auto.
  - injection Hw as <-. lia.
  - injection Hw as <-. lia.
Qed.

(** A pattern leaves the captures of groups it does not mention alone. *)
Lemma matches_other_caps nm r s s1 :
  matches r s s1 -> mentions nm r = false -> assoc nm (caps s1) = assoc nm (caps s).
Proof.
  induction 1 as [s|c s b bs Hrest Hc|r1 r2 s s1 s2 H1 IH1 H2 IH2|r1 r2 s s1 _ IH
                 |r1 r2 s s1 _ IH|r s|n r s s1 s2 H1 IH1 H2 IH2|r s s1 _ IH
                 |r s s1 s2 H1 IH1 Hlt H2 IH2|nm' r s s1 _ IH|s Hp|s Hr];
    simpl; intros Hn; try done.
  - apply orb_false_iff in Hn as [Hn1 Hn2]. rewrite IH2, IH1; done.
  - apply orb_false_iff in Hn as [Hn1 Hn2]. auto.
  - apply orb_false_iff in Hn as [Hn1 Hn2]. auto.
  - simpl in IH2. rewrite IH2, IH1; done.
  - auto.
  - rewrite IH2, IH1; done.
  - apply orb_false_iff in Hn as [Hn1 Hn2]. rewrite Hn1. auto.
Qed.

(** Where [group_at] places a group, the group's pattern matched, and
    the capture is what it consumed. *)
Lemma matches_group_at nm r :
  forall s s1 off body,
    matches r s s1 -> group_at nm r = Some (off, body) ->
    exists sa sb, matches body sa sb /\ rest sa = drop off (rest s) /\
      assoc nm (caps s1) = Some (take (pos sb - pos sa) (rest sa)).
Proof.
  induction r as [|c|r1 IH1 r2 IH2|r1 IH1 r2 IH2|n r IH|r IH|nm' r IH| |];
    intros s s1 off body Hm Hc; simpl in Hc; try discriminate.
  - inversion Hm as [| |? ? ? s' ? Hm1 Hm2| | | | | | | | |]; subst.
    destruct (mentions nm r2) eqn:Hm2'.
    + destruct (mentions nm r1); [discriminate|].
      destruct (width r1) as [a|] eqn:Hw; [|discriminate].
      destruct (group_at nm r2) as [[off' body']|] eqn:Hc2; [|discriminate].
      injection Hc as <- <-.
      destruct (IH2 _ _ _ _ Hm2 eq_refl) as (sa & sb & Hb & Hr & Hcap).
      exists sa, sb. split; [done|]. split; [|done].
      apply matches_consumes in Hm1 as Hcons. destruct Hcons as (n & Hp & Hr1 & _).
      rewrite (matches_width _ _ _ _ Hm1 Hw) in Hp.
      assert (n = a) as -> by lia.
      rewrite Hr, Hr1, drop_drop. done.
    + destruct (IH1 _ _ _ _ Hm1 Hc) as (sa & sb & Hb & Hr & Hcap).
      exists sa, sb. rewrite (matches_other_caps _ _ _ _ Hm2 Hm2'). done.
  - inversion Hm as [| | | | | | | | |? ? ? s' Hm1| |]; subst.
    destruct (String.eqb nm' nm) eqn:Heq; [|discriminate].
    destruct (mentions nm r); [discriminate|].
    injection Hc as <- <-. exists s, s'. simpl. rewrite Heq, drop_0. done.
Qed.

Lemma matches_cap_at nm r s s1 off len :
  matches r s s1 -> cap_at nm r = Some (off, len) ->
  assoc nm (caps s1) = Some (take len (drop off (rest s))).
Proof.
  unfold cap_at. intros Hm Hc.
  destruct (group_at nm r) as [[off' body]|] eqn:Hg; [|discriminate].
  destruct (width body) as [w|] eqn:Hw; [|discriminate]. injection Hc as <- <-.
  destruct (matches_group_at _ _ _ _ _ _ Hm Hg) as (sa & sb & Hb & Hr & ->).
  rewrite (matches_width _ _ _ _ Hb Hw), Hr.
  replace (pos sa + w - pos sa) with w by lia. done.
Qed.

(** The matches [try_at] and [search_from] report. *)
Lemma try_at_matches r i buf m :
  try_at r i buf = Some m ->
  exists s1, matches r (MState i buf []) s1 /\ m = MkMatch i (pos s1) (caps s1).
Proof.
  unfold try_at. intros Ht.
  destruct (run r (MState i buf []) Some) as [s1|] eqn:Hrun; [|discriminate].
  injection Ht as <-.
  apply run_sound in Hrun as (s2 & Hm & Hk). injection Hk as ->. eauto.
Qed.

Lemma search_from_matches r buf :
  forall i m, search_from r i buf = Some m ->
    exists j s1, j <= length buf /\
      matches r (MState (i + j) (drop j buf) []) s1 /\
      m = MkMatch (i + j) (pos s1) (caps s1).
Proof.
  induction buf as [|b buf IH]; intros i m Hs; simpl in Hs.
  - destruct (try_at r i []) as [m'|] eqn:Ht; [|discriminate].
    injection Hs as ->. apply try_at_matches in Ht as (s1 & Hm & ->).
    exists 0, s1. rewrite Nat.add_0_r. simpl. eauto.
  - destruct (try_at r i (b :: buf)) as [m'|] eqn:Ht.
    + injection Hs as ->. apply try_at_matches in Ht as (s1 & Hm & ->).
      exists 0, s1. rewrite Nat.add_0_r. simpl. split; [lia|]. eauto.
    + apply IH in Hs as (j & s1 & Hj & Hm & ->).
      exists (S j), s1. replace (i + S j) with (S i + j) by lia. simpl.
      split; [lia|]. eauto.
Qed.

(** The span of a match found by [re.search] lies inside the subject. *)
Lemma re_search_span r buf m :
  re_search r buf = Some m -> m_start m <= m_end m /\ m_end m <= length buf.
Proof.
  intros Hs. apply search_from_matches in Hs as (j & s1 & Hj & Hm & ->). simpl.
  apply matches_consumes in Hm as (n & Hp & _ & Hn). simpl in *.
  rewrite length_drop in Hn. lia.
Qed.

Lemma re_search_progress r buf m :
  re_search r buf = Some m -> nullable r = false -> m_start m < m_end m.
Proof.
  intros Hs Hn. apply search_from_matches in Hs as (j & s1 & Hj & Hm & ->). simpl.
  apply (matches_progress _ _ _ Hm Hn).
Qed.

Lemma re_search_captures nm r buf m :
  re_search r buf = Some m -> captures nm r = true -> is_Some (group m nm).
Proof.
  intros Hs Hn. apply search_from_matches in Hs as (j & s1 & Hj & Hm & ->).
  apply (matches_captures _ _ _ _ Hm Hn).
Qed.

(** With a fixed width and fixed capture places, a match is its start,
    its width, and slices of the subject. *)
Lemma re_search_fixed r buf m w :
  re_search r buf = Some m -> width r = Some w ->
  m_end m = m_start m + w /\ m_end m <= length buf /\
  forall nm off len, cap_at nm r = Some (off, len) ->
    group m nm = Some (take len (drop (m_start m + off) buf)).
Proof.
  intros Hs Hw. pose proof (re_search_span _ _ _ Hs) as [_ Hend].
  apply search_from_matches in Hs as (j & s1 & Hj & Hm & ->). simpl in *.
  split; [apply (matches_width _ _ _ _ Hm Hw)|]. split; [done|].
  intros nm off len Hc. unfold group. simpl.
  rewrite (matches_cap_at _ _ _ _ _ _ Hm Hc). simpl. rewrite drop_drop. done.
Qed.

End Matches.

(** ** The validation patterns *)

Section Validation.

Lemma name_byte_charset b :
  in_charset (NoneOf [(x00, x19); (x2c, x2c); (xf0, xff)]) b = name_byte b.
Proof. destruct b; reflexivity. Qed.

Lemma lit_charset b0 b : in_charset (Lit b0) b = true <-> b = b0.
Proof.
  simpl. split.
  - intros Hb. symmetry. by apply Byte.byte_dec_bl.
  - intros ->. by apply Byte.byte_dec_lb.
Qed.

(** The first copy of a repetition starts where the repetition starts. *)
Lemma matches_plus_first r s s1 :
  matches (Plus r) s s1 -> exists s', matches r s s'.
Proof. inversion 1; subst; eauto. Qed.

Lemma matches_chr_head c s s1 :
  matches (Chr c) s s1 -> exists b bs, rest s = b :: bs /\ in_charset c b = true.
Proof. inversion 1; subst; eauto. Qed.

(** [c+] takes a non-empty run of bytes of the class [c]. *)
Lemma matches_plus_chr c s s1 :
  matches (Plus (Chr c)) s s1 ->
  exists n, 0 < n /\ n <= length (rest s) /\
    Forall (fun b => in_charset c b = true) (take n (rest s)) /\
    s1 = MState (pos s + n) (drop n (rest s)) (caps s).
Proof.
  remember (Plus (Chr c)) as r eqn:Hr. intros Hm. revert Hr.
  induction Hm as [| | | | | | |r s s1 H1 _|r s s1 s2 H1 _ Hlt H2 IH2| | |];
    intros Hr; try discriminate; injection Hr as ->.
  - inversion H1 as [|? ? b bs Hrest Hc| | | | | | | | | |]; subst.
    exists 1. rewrite Hrest. simpl. rewrite take_0, drop_0.
    split; [lia|]. split; [lia|]. split; [by constructor|].
    unfold advance. f_equal. lia.
  - inversion H1 as [|? ? b bs Hrest Hc| | | | | | | | | |]; subst.
    destruct (IH2 eq_refl) as (n & Hn & Hle & Hall & ->). simpl in *.
    exists (S n). rewrite Hrest. simpl.
    split; [lia|]. split; [lia|]. split; [by constructor|].
    f_equal. lia.
Qed.

Lemma plus_chr_matches c n :
  forall s, 0 < n -> n <= length (rest s) ->
    Forall (fun b => in_charset c b = true) (take n (rest s)) ->
    matches (Plus (Chr c)) s (MState (pos s + n) (drop n (rest s)) (caps s)).
Proof.
  induction n as [|n IH]; intros s Hn Hle Hall; [lia|].
  destruct (rest s) as [|b bs] eqn:Hrest; [simpl in Hle; lia|].
  simpl in Hall, Hle. apply Forall_cons in Hall as [Hb Hall].
  assert (H1 : matches (Chr c) s (advance s bs)) by (by econstructor).
  destruct n as [|n].
  - apply M_plus_1. simpl. rewrite drop_0.
    replace (pos s + 1) with (S (pos s)) by lia. exact H1.
  - eapply M_plus_S; [exact H1|simpl; rewrite Hrest; simpl; lia|].
    specialize (IH (advance s bs)). simpl in IH.
    replace (pos s + S (S n)) with (S (pos s) + S n) by lia.
    apply IH; [lia|lia|done].
Qed.

(** [rgx_nulls] matches exactly the captures that begin with a null
    byte: its first branch is not anchored at the end, and whatever the
    second branch matches begins with a null byte too. *)
Lemma rgx_nulls_spec arts :
  truthy (re_match rgx_nulls arts) = true <-> exists tl, arts = x00 :: tl.
Proof.
  unfold re_match. split.
  - destruct (try_at rgx_nulls 0 arts) as [m|] eqn:Ht; [intros _|discriminate].
    apply try_at_matches in Ht as (s1 & Hm & _).
    assert (Hhead : exists s', matches (Chr (Lit x00)) (MState 0 arts []) s').
    { inversion Hm as [| | |? ? ? ? Hl|? ? ? ? Hr| | | | | | |]; subst.
      - inversion Hl as [| |? ? ? s2 ? Hb Hp| | | | | | | | |]; subst.
        inversion Hb; subst. by apply matches_plus_first in Hp.
      - inversion Hr as [| |? ? ? s2 ? Hp He| | | | | | | | |]; subst.
        apply matches_plus_first in Hp as (s' & Hp).
        inversion Hp as [| |? ? ? s3 ? H4 _| | | | | | | | |]; subst.
        inversion H4; subst. eauto. }
    destruct Hhead as (s' & Hc). apply matches_chr_head in Hc as (b & bs & Hrest & Hb).
    simpl in Hrest. apply lit_charset in Hb. subst. eauto.
  - intros (tl & ->).
    assert (Hm : matches rgx_nulls (MState 0 (x00 :: tl) []) (MState 1 tl [])).
    { apply M_alt_l. eapply M_cat; [by apply M_bol|].
      apply M_plus_1. by eapply (M_chr _ (MState 0 (x00 :: tl) []) x00 tl). }
    unfold try_at.
    destruct (run_complete _ _ _ Some Hm ltac:(done)) as [s1 ->]. done.
Qed.

(** [rgx_strip] matches a padded name, and also one followed by a single
    final newline, where [$] matches before it. *)
Lemma rgx_strip_spec nm :
  truthy (re_match rgx_strip nm) = true <->
  padded_name nm \/ exists nm', nm = nm' ++ [x0a] /\ padded_name nm'.
Proof.
  unfold re_match. split.
  - destruct (try_at rgx_strip 0 nm) as [m|] eqn:Ht; [intros _|discriminate].
    apply try_at_matches in Ht as (s1 & Hm & _).
    inversion Hm as [| |? ? ? sa ? Hbol H1| | | | | | | | |]; subst.
    inversion Hbol; subst.
    inversion H1 as [| |? ? ? sb ? Hg H2| | | | | | | | |]; subst.
    inversion Hg as [| | | | | | | | |? ? ? sc Hbody| |]; subst.
    inversion H2 as [| |? ? ? sd ? Hpad Heol| | | | | | | | |]; subst.
    apply matches_plus_chr in Hbody as (n & Hn & Hle & Hall & ->).
    apply matches_plus_chr in Hpad as (p & Hp & Hple & Hpall & ->).
    simpl in *. rewrite length_drop in Hple.
    assert (Hsplit : nm = take n nm ++ take p (drop n nm) ++ drop p (drop n nm)).
    { by rewrite !take_drop. }
    assert (Hpn : padded_name (take n nm ++ take p (drop n nm))).
    { exists (take n nm), (take p (drop n nm)). split; [done|].
      split. { intros Hnil. apply (f_equal length) in Hnil.
               rewrite length_take in Hnil. simpl in Hnil. lia. }
      split. { intros Hnil. apply (f_equal length) in Hnil.
               rewrite length_take, length_drop in Hnil. simpl in Hnil. lia. }
      split.
      - eapply Forall_impl; [exact Hall|]. intros b Hb. by rewrite <- name_byte_charset.
      - eapply Forall_impl; [exact Hpall|]. intros b Hb. by apply lit_charset in Hb. }
    inversion Heol as [| | | | | | | | | | |? [Hr|Hr]]; subst; simpl in Hr;
      rewrite Hr in Hsplit.
    + left. rewrite app_nil_r in Hsplit. by rewrite Hsplit.
    + right. eexists. split; [|exact Hpn]. by rewrite <- app_assoc.
  - intros Hnm.
    assert (Hm : exists s1, matches rgx_strip (MState 0 nm []) s1).
    { assert (Hgen : forall body pad tl, body <> [] -> pad <> [] ->
                Forall (fun b => name_byte b = true) body ->
                Forall (fun b => b = x00) pad -> tl = [] \/ tl = [x0a] ->
                exists s1, matches rgx_strip (MState 0 (body ++ pad ++ tl) []) s1).
      { intros body pad tl Hb Hp Hball Hpall Htl.
        set (s0 := MState 0 (body ++ pad ++ tl) []).
        set (sa := MState (0 + length body) (drop (length body) (rest s0)) (caps s0)).
        assert (H1 : matches (Plus (Chr (NoneOf [(x00, x19); (x2c, x2c); (xf0, xff)]))) s0 sa).
        { apply plus_chr_matches.
          - destruct body; [done|simpl; lia].
          - simpl. rewrite length_app. lia.
          - unfold s0. cbn [rest]. rewrite take_app_length.
            eapply Forall_impl; [exact Hball|]. intros b Hbb. by rewrite name_byte_charset. }
        set (sg := set_cap "1" s0 sa).
        assert (Hrest : rest sg = pad ++ tl).
        { simpl. by rewrite drop_app_length. }
        set (sb := MState (pos sg + length pad) (drop (length pad) (rest sg)) (caps sg)).
        assert (H2 : matches (Plus (lit x00)) sg sb).
        { apply plus_chr_matches.
          - destruct pad; [done|simpl; lia].
          - rewrite Hrest, length_app. lia.
          - rewrite Hrest, take_app_length.
            eapply Forall_impl; [exact Hpall|]. intros b ->. by apply lit_charset. }
        exists sb. eapply M_cat; [by apply M_bol|].
        eapply M_cat; [apply M_group; exact H1|].
        eapply M_cat; [exact H2|].
        apply M_eol. unfold sb. cbn [rest]. rewrite Hrest, drop_app_length. exact Htl. }
      destruct Hnm as [(body & pad & -> & ? & ? & ? & ?)
                      |(nm' & -> & body & pad & -> & ? & ? & ? & ?)].
      - destruct (Hgen body pad [] ltac:(done) ltac:(done) ltac:(done) ltac:(done)
                    ltac:(by left)) as (s1 & Hs1).
        rewrite app_nil_r in Hs1. eauto.
      - destruct (Hgen body pad [x0a] ltac:(done) ltac:(done) ltac:(done) ltac:(done)
                    ltac:(by right)) as (s1 & Hs1).
        rewrite <- app_assoc. eauto. }
    destruct Hm as (s1 & Hm). unfold try_at.
    destruct (run_complete _ _ _ Some Hm ltac:(done)) as [s2 ->]. done.
Qed.

(** A capture that ends in a null byte has no final newline. *)
Lemma rgx_strip_padded nm :
  last nm = Some x00 ->
  truthy (re_match rgx_strip nm) = true <-> padded_name nm.
Proof.
  intros Hlast. rewrite rgx_strip_spec. split; [|by left].
  intros [Hp|(nm' & -> & _)]; [done|].
  rewrite last_snoc in Hlast. discriminate.
Qed.

End Validation.

(** ** Structural matches of [RGX_HERO] and their validation *)

Section Acceptance.

Lemma re_search_group_at nm r buf m off body :
  re_search r buf = Some m -> group_at nm r = Some (off, body) ->
  exists sa sb, matches body sa sb /\ rest sa = drop (m_start m + off) buf /\
    group m nm = Some (take (pos sb - pos sa) (rest sa)).
Proof.
  intros Hs Hg. apply search_from_matches in Hs as (j & s1 & Hj & Hm & ->).
  destruct (matches_group_at _ _ _ _ _ _ Hm Hg) as (sa & sb & Hb & Hr & Hc).
  exists sa, sb. simpl in *. rewrite drop_drop in Hr. done.
Qed.

(** A match of [RGX_HERO] spans 1025 bytes; its captures are the 13 bytes
    at offset 138 and the 152 bytes at offset 351; the name capture ends
    in a null byte. *)
Lemma hero_match_shape buf m :
  re_search RGX_HERO buf = Some m ->
  m_end m = m_start m + 1025 /\ m_end m <= length buf /\
  exists nm arts,
    group m "name" = Some nm /\ group m "artifacts" = Some arts /\
    nm = take 13 (drop (m_start m + 138) buf) /\
    arts = take 152 (drop (m_start m + 351) buf) /\
    length nm = 13 /\ length arts = 152 /\ last nm = Some x00.
Proof.
  intros Hs.
  destruct (re_search_fixed _ _ _ 1025 Hs eq_refl) as (Hend & Hlen & Hcap).
  split; [done|]. split; [done|].
  pose proof (Hcap "name"%string 138 13 eq_refl) as Hnm.
  pose proof (Hcap "artifacts"%string 351 152 eq_refl) as Harts.
  eexists _, _. split; [exact Hnm|]. split; [exact Harts|].
  split; [done|]. split; [done|].
  split; [rewrite length_take, length_drop; lia|].
  split; [rewrite length_take, length_drop; lia|].
  assert (Hg : group_at "name" RGX_HERO =
    Some (138, (Chr (NoneOf [(x00, x20); (x2c, x2c); (xf0, xff)]) ;;
                Rep 11 any ;; lit x00)%re)) by reflexivity.
  destruct (re_search_group_at _ _ _ _ _ _ Hs Hg) as (sa & sb & Hb & Hr & _).
  rewrite <- Hr.
  inversion Hb as [| |? ? ? s1 ? H1 H2| | | | | | | | |]; subst.
  inversion H1 as [|? ? b bs Hrest _| | | | | | | | | |]; subst.
  inversion H2 as [| |? ? ? s2 ? H3 H4| | | | | | | | |]; subst.
  pose proof (matches_width _ _ _ 11 H3 eq_refl) as Hw.
  apply matches_consumes in H3 as (n & Hp & Hr3 & Hn). simpl in *.
  assert (n = 11) as -> by lia.
  inversion H4 as [|? ? b' bs' Hrest' Hb'| | | | | | | | | |]; subst.
  apply lit_charset in Hb'. subst b'. rewrite Hr3 in Hrest'.
  rewrite Hrest. change (take 13 (b :: bs)) with (b :: take 12 bs).
  assert (Hlook : bs !! 11 = Some x00).
  { rewrite <- (take_drop 11 bs), Hrest'. rewrite lookup_app_r; rewrite length_take.
    - replace (11 - 11 `min` length bs) with 0 by lia. done.
    - lia. }
  rewrite (take_S_r _ _ _ Hlook).
  change (b :: take 11 bs ++ [x00]) with ((b :: take 11 bs) ++ [x00]).
  by rewrite last_snoc.
Qed.

(** On a match of [RGX_HERO] the test never raises, and it comes to: the
    name is padded and the equipment capture does not begin with a null
    byte. *)
Lemma hero_match_test buf m nm arts :
  re_search RGX_HERO buf = Some m ->
  group m "name" = Some nm -> group m "artifacts" = Some arts ->
  accepted m =
    Done (truthy (re_match rgx_strip nm) && negb (truthy (re_match rgx_nulls arts))).
Proof.
  intros _ Hnm Harts. unfold accepted. rewrite Hnm, Harts.
  destruct (truthy (re_match rgx_strip nm)); done.
Qed.

End Acceptance.

Section AcceptanceClaims.

(** C3 (as amended).  A span that matches the structural pattern is
    accepted only if its name capture is one or more bytes outside
    [00-19], comma and [F0-FF] followed only by one or more nulls; with
    such a name it is accepted whenever its equipment capture does not
    begin with a null byte (a table of blank slots included); and it is
    rejected when the equipment capture is all null bytes, or all
    [00 00 00 00 FF FF FF FF] slots.  The test itself never raises. *)
Theorem hero_match_validation (buf : list byte) (m : Match) :
  re_search RGX_HERO buf = Some m ->
  exists nm arts,
    group m "name" = Some nm /\ group m "artifacts" = Some arts /\
    (exists ok, accepted m = Done ok) /\
    (accepted m = Done true -> padded_name nm) /\
    (padded_name nm -> head arts <> Some x00 -> accepted m = Done true) /\
    (Forall (fun b => b = x00) arts \/ arts = concat (repeat null_slot 19) ->
     accepted m = Done false).
Proof.
  intros Hs.
  destruct (hero_match_shape _ _ Hs)
    as (_ & _ & nm & arts & Hnm & Harts & _ & _ & Hlnm & Hlarts & Hlast).
  exists nm, arts. split; [done|]. split; [done|].
  rewrite (hero_match_test _ _ _ _ Hs Hnm Harts).
  split; [eauto|]. split; [|split].
  - intros Hok. injection Hok as Hok. apply andb_true_iff in Hok as [Hok _].
    by apply rgx_strip_padded in Hok.
  - intros Hp Hhead. f_equal. apply andb_true_iff. split.
    + by apply rgx_strip_padded.
    + apply negb_true_iff. apply not_true_is_false. intros Hn.
      apply rgx_nulls_spec in Hn as (tl & ->). by apply Hhead.
  - intros Hnull. f_equal. apply andb_false_iff. right. apply negb_false_iff.
    apply rgx_nulls_spec. destruct arts as [|b tl]; [simpl in Hlarts; lia|].
    destruct Hnull as [Hall|Heq].
    + apply Forall_cons in Hall as [-> _]. eauto.
    + injection Heq as -> _. eauto.
Qed.

Lemma hero_match_validation_witness :
  exists m, re_search RGX_HERO (sample_record (list_byte_of_string "Adela") (repeat xff 152)) = Some m /\
  exists nm arts,
    group m "name" = Some nm /\ group m "artifacts" = Some arts /\
    (exists ok, accepted m = Done ok) /\
    (accepted m = Done true -> padded_name nm) /\
    (padded_name nm -> head arts <> Some x00 -> accepted m = Done true) /\
    (Forall (fun b => b = x00) arts \/ arts = concat (repeat null_slot 19) ->
     accepted m = Done false).
Proof.
  eexists. split.
  - vm_compute. reflexivity.
  - apply (hero_match_validation
             (sample_record (list_byte_of_string "Adela") (repeat xff 152))).
    vm_compute. reflexivity.
Defined.

(** C3 as stated fails: a record whose name holds the extended byte [E4]
    and which wears one artifact matches the pattern and is accepted. *)
Lemma extended_name_accepted : ~ acceptance_as_claimed.
Proof.
  intros Hclaim.
  set (buf := sample_record [x4a; xe4; x67; x65; x72] (one_artifact x07)).
  destruct (re_search RGX_HERO buf) as [m|] eqn:Hs; [|by vm_compute in Hs].
  assert (Hnm : group m "name" = Some (take 13 (drop 138 buf))).
  { vm_compute in Hs. injection Hs as <-. vm_compute. reflexivity. }
  assert (Harts : group m "artifacts" = Some (one_artifact x07)).
  { vm_compute in Hs. injection Hs as <-. vm_compute. reflexivity. }
  assert (Hacc : accepted m = Done true).
  { vm_compute in Hs. injection Hs as <-. vm_compute. reflexivity. }
  apply (Hclaim _ _ _ _ Hs Hnm Harts) in Hacc as [Hprint _].
  vm_compute in Hprint. discriminate.
Qed.

(** A hero that wears nothing, every slot blank, is accepted. *)
Lemma blank_table_accepted :
  (fun m => accepted m) <$>
    re_search RGX_HERO (sample_record (list_byte_of_string "Adela") (repeat xff 152)) =
  Some (Done true).
Proof. vm_compute. reflexivity. Qed.

(** A table that begins with a null byte is rejected although a later
    slot holds an artifact. *)
Lemma null_first_slot_rejected :
  (fun m => accepted m) <$>
    re_search RGX_HERO
      (sample_record (list_byte_of_string "Adela")
         (null_slot ++ [x07; x00; x00; x00; xff; xff; xff; xff] ++ repeat xff 136)) =
  Some (Done false).
Proof. vm_compute. reflexivity. Qed.

End AcceptanceClaims.

(** ** The detection loop *)

Section Scan.
Context `{Externals}.

(** A capture is no longer than what the match consumed. *)
Lemma matches_cap_length nm r s s1 v :
  matches r s s1 -> assoc nm (caps s1) = Some v ->
  assoc nm (caps s) = Some v \/ length v <= pos s1 - pos s.
Proof.
  intros Hm. revert v.
  induction Hm as [s|c s b bs Hrest Hc|r1 r2 s s1 s2 H1 IH1 H2 IH2|r1 r2 s s1 _ IH
                 |r1 r2 s s1 _ IH|r s|n r s s1 s2 H1 IH1 H2 IH2|r s s1 _ IH
                 |r s s1 s2 H1 IH1 Hlt H2 IH2|nm' r s s1 H1 IH|s Hp|s Hr];
    intros v Hv; auto.
  - apply matches_pos_le in H1 as Hle1. apply matches_pos_le in H2 as Hle2.
    destruct (IH2 _ Hv) as [Hv1|Hlen]; [|right; lia].
    destruct (IH1 _ Hv1) as [Hv0|Hlen]; [auto|right; lia].
  - apply matches_pos_le in H1 as Hle1. apply matches_pos_le in H2 as Hle2.
    destruct (IH2 _ Hv) as [Hv1|Hlen]; [|right; lia].
    destruct (IH1 _ Hv1) as [Hv0|Hlen]; [auto|right; lia].
  - apply matches_pos_le in H1 as Hle1. apply matches_pos_le in H2 as Hle2.
    destruct (IH2 _ Hv) as [Hv1|Hlen]; [|right; lia].
    destruct (IH1 _ Hv1) as [Hv0|Hlen]; [auto|right; lia].
  - simpl in Hv. destruct (String.eqb nm' nm).
    + injection Hv as <-. right. simpl. rewrite length_take. lia.
    + simpl. auto.
Qed.

Lemma re_search_cap_length nm r buf m v :
  re_search r buf = Some m -> group m nm = Some v -> length v <= m_end m - m_start m.
Proof.
  intros Hs Hg. apply search_from_matches in Hs as (j & s1 & Hj & Hm & ->).
  destruct (matches_cap_length _ _ _ _ _ Hm Hg) as [Hnone|Hlen]; [discriminate|done].
Qed.

Lemma padded_name_length nm : padded_name nm -> 2 <= length nm.
Proof.
  intros (body & pad & -> & Hb & Hp & _). rewrite length_app.
  destruct body; [done|]. destruct pad; [done|]. simpl. lia.
Qed.

(** An accepted match is not empty: it holds a name and its padding. *)
Lemma accepted_span r buf m :
  re_search r buf = Some m -> accepted m = Done true -> m_start m < m_end m.
Proof.
  intros Hs Hacc. unfold accepted in Hacc.
  destruct (group m "name") as [nm|] eqn:Hnm; [|discriminate].
  destruct (truthy (re_match rgx_strip nm)) eqn:Hstrip; [|discriminate].
  pose proof (re_search_cap_length _ _ _ _ _ Hs Hnm) as Hlen.
  apply rgx_strip_spec in Hstrip as [Hp|(nm' & -> & Hp)];
    apply padded_name_length in Hp; [lia|].
  rewrite length_app in Hlen. simpl in Hlen. lia.
Qed.

(** An accepted match has a name to decode. *)
Lemma accepted_name m :
  accepted m = Done true -> exists nm, hero_name m = Done nm.
Proof.
  unfold accepted, hero_name. intros Hacc.
  destruct (group m "name") as [nm|]; [|discriminate].
  destruct (re_match rgx_strip nm) as [ms|] eqn:Hstrip; [|discriminate].
  unfold re_match in Hstrip. apply try_at_matches in Hstrip as (s1 & Hm & ->).
  destruct (matches_captures "1" _ _ _ Hm eq_refl) as [body Hbody].
  unfold group. simpl. rewrite Hbody. eauto.
Qed.

(** With both groups captured the test does not raise. *)
Lemma accepted_total r buf m :
  re_search r buf = Some m ->
  captures "name" r = true -> captures "artifacts" r = true ->
  exists ok, accepted m = Done ok.
Proof.
  intros Hs Hn Ha. unfold accepted.
  destruct (re_search_captures "name" _ _ _ Hs Hn) as [nm ->].
  destruct (re_search_captures "artifacts" _ _ _ Hs Ha) as [arts ->].
  destruct (truthy (re_match rgx_strip nm)); eauto.
Qed.

(** One turn of the loop. *)
Lemma scan_step fuel RGX buf pos vresult :
  scan (S fuel) RGX buf pos vresult =
  match re_search RGX (drop pos buf) with
  | None => Done vresult
  | Some m =>
      ok ← accepted m;
      if ok : bool then
        nm ← hero_name m;
        scan fuel RGX buf (pos + m_end m)
             (vresult ++ [Hero_init nm (slice buf (pos + m_start m) (pos + m_end m))
                                    (length vresult) (m_start m + pos, m_end m + pos)])
      else scan fuel RGX buf (pos + m_start m + 1) vresult
  end.
Proof. reflexivity. Qed.

(** What a finished pass has added: heroes whose spans follow one another
    from the starting offset, lie inside the buffer, and whose bytes are
    the buffer's at their span. *)
Lemma scan_chained RGX buf fuel :
  forall pos vresult hs,
    scan fuel RGX buf pos vresult = Done hs ->
    exists new, hs = vresult ++ new /\ chained pos new /\
      Forall (fun h => snd (span h) <= length buf /\
                       bytes h = slice buf (fst (span h)) (snd (span h))) new.
Proof.
  induction fuel as [|fuel IH]; intros pos vresult hs Hscan; [discriminate|].
  rewrite scan_step in Hscan.
  destruct (re_search RGX (drop pos buf)) as [m|] eqn:Hs.
  2:{ injection Hscan as <-. exists []. rewrite app_nil_r. simpl. auto. }
  destruct (accepted m) as [ok| |] eqn:Hacc; try discriminate. simpl in Hscan.
  pose proof (re_search_span _ _ _ Hs) as [Hse Hel]. rewrite length_drop in Hel.
  destruct ok.
  - destruct (hero_name m) as [nm| |]; try discriminate. simpl in Hscan.
    pose proof (accepted_span _ _ _ Hs Hacc) as Hlt.
    apply IH in Hscan as (new & -> & Hch & Hall).
    eexists (_ :: new). rewrite <- app_assoc. split; [reflexivity|].
    split.
    + simpl. split; [lia|]. split; [lia|].
      replace (m_end m + pos) with (pos + m_end m) by lia. done.
    + constructor; [|done]. simpl. split; [lia|].
      f_equal; lia.
  - apply IH in Hscan as (new & -> & Hch & Hall).
    exists new. split; [done|]. split; [|done].
    destruct new as [|h new]; [done|]. simpl in *. intuition lia.
Qed.

(** The loop ends: with a pattern that consumes input and captures both
    groups, the fuel [parse] gives it is enough. *)
Lemma scan_returns RGX buf :
  hero_regex_ok RGX = true ->
  forall fuel pos vresult, length buf - pos < fuel ->
    exists hs, scan fuel RGX buf pos vresult = Done hs.
Proof.
  intros Hok. unfold hero_regex_ok in Hok.
  apply andb_true_iff in Hok as [Hok Ha]. apply andb_true_iff in Hok as [Hnull Hn].
  apply negb_true_iff in Hnull.
  induction fuel as [|fuel IH]; intros pos vresult Hfuel; [lia|].
  rewrite scan_step.
  destruct (re_search RGX (drop pos buf)) as [m|] eqn:Hs; [|eauto].
  pose proof (re_search_span _ _ _ Hs) as [Hse Hel]. rewrite length_drop in Hel.
  pose proof (re_search_progress _ _ _ Hs Hnull) as Hlt.
  destruct (accepted_total _ _ _ Hs Hn Ha) as [ok Hacc]. rewrite Hacc. simpl.
  destruct ok.
  - destruct (accepted_name _ Hacc) as [nm ->]. simpl. apply IH. lia.
  - apply IH. lia.
Qed.

Lemma chained_weaken pos pos' hs : pos' <= pos -> chained pos hs -> chained pos' hs.
Proof. destruct hs; simpl; [done|]. intuition lia. Qed.

Lemma chained_from pos hs :
  chained pos hs -> Forall (fun h => pos <= fst (span h) /\ fst (span h) < snd (span h)) hs.
Proof.
  revert pos. induction hs as [|h hs IH]; intros pos Hch; [constructor|].
  destruct Hch as (Hle & Hlt & Hch). constructor; [done|].
  eapply Forall_impl; [apply IH, Hch|]. simpl. intuition lia.
Qed.

(** In a chain every span ends before any later one starts. *)
Lemma chained_lookup pos hs i j hi hj :
  chained pos hs -> i < j -> hs !! i = Some hi -> hs !! j = Some hj ->
  fst (span hi) < snd (span hi) /\ snd (span hi) <= fst (span hj) /\
  fst (span hj) < snd (span hj).
Proof.
  revert pos i j. induction hs as [|h hs IH]; intros pos i j Hch Hij Hi Hj; [done|].
  destruct Hch as (Hle & Hlt & Hch).
  destruct j as [|j]; [lia|]. simpl in Hj.
  destruct i as [|i].
  - injection Hi as <-. apply chained_from in Hch.
    apply list_elem_of_lookup_2 in Hj.
    rewrite Forall_forall in Hch. specialize (Hch _ Hj). lia.
  - simpl in Hi. eapply IH; [exact Hch| |exact Hi|exact Hj]. lia.
Qed.

(** Past the end of the buffer a rejected empty match comes back at
    every turn: the loop does not end. *)
Lemma scan_stuck RGX buf m :
  re_search RGX [] = Some m -> accepted m = Done false ->
  forall fuel pos vresult, length buf <= pos -> scan fuel RGX buf pos vresult = Diverged.
Proof.
  intros Hs Hacc. induction fuel as [|fuel IH]; intros pos vresult Hpos; [done|].
  rewrite scan_step, drop_ge by done. rewrite Hs, Hacc. simpl. apply IH. lia.
Qed.

(** Fuel beyond one turn per byte left, and one more, changes nothing:
    a pass that runs out of [scan_fuel] is a loop that does not end. *)
Lemma scan_fuel_adequate RGX buf :
  forall k pos vresult n, length buf - pos <= k ->
    scan (S k + n) RGX buf pos vresult = scan (S k) RGX buf pos vresult.
Proof.
  induction k as [|k IH]; intros pos vresult n Hk.
  - change (1 + n) with (S n). rewrite !scan_step, drop_ge by lia.
    destruct (re_search RGX []) as [m|] eqn:Hs; [|done].
    destruct (accepted m) as [[|]| |] eqn:Hacc; simpl; try done.
    + pose proof (accepted_span _ _ _ Hs Hacc).
      pose proof (re_search_span _ _ _ Hs) as [_ Hend]. simpl in Hend. lia.
    + rewrite (scan_stuck _ buf _ Hs Hacc n) by lia. done.
  - change (S (S k) + n) with (S (S k + n)). rewrite !scan_step.
    destruct (re_search RGX (drop pos buf)) as [m|] eqn:Hs; [|done].
    destruct (accepted m) as [[|]| |] eqn:Hacc; simpl; try done.
    + destruct (hero_name m); simpl; try done.
      pose proof (accepted_span _ _ _ Hs Hacc). apply IH. lia.
    + apply IH. lia.
Qed.

Lemma scan_more_fuel RGX buf fuel pos vresult :
  scan_fuel buf <= fuel ->
  scan fuel RGX buf pos vresult = scan (scan_fuel buf) RGX buf pos vresult.
Proof.
  unfold scan_fuel. intros Hfuel.
  replace fuel with (S (length buf) + (fuel - S (length buf))) by lia.
  apply scan_fuel_adequate. lia.
Qed.

End Scan.

Section ScanClaims.
Context `{Externals}.

(** Enough fuel for the bytes left is as good as one turn more. *)
Lemma scan_spare_fuel RGX buf fuel pos vresult :
  length buf - pos < fuel ->
  scan (S fuel) RGX buf pos vresult = scan fuel RGX buf pos vresult.
Proof.
  intros Hfuel.
  replace (S fuel) with (S (length buf - pos) + (S fuel - S (length buf - pos))) by lia.
  replace fuel with (S (length buf - pos) + (fuel - S (length buf - pos))) at 2 by lia.
  by rewrite !scan_fuel_adequate.
Qed.

(** C4.  A pass returns, whatever the buffer: a rejected match is no
    error.  After a structural match that fails validation the scan goes
    on one byte past the match's start: the pass gives what the scan from
    there gives, with the heroes found so far, and every hero it adds
    starts there or later.  After an accepted match the hero of that
    match is added and the scan goes on at the match's end: the pass
    gives what the scan from there gives, and every later hero starts
    there or later.  So the heroes a pass adds have non-empty spans, each
    ending at or before the start of every later one. *)
Theorem scan_resumes (RGX : regex) (buf : list byte) (pos fuel : nat)
    (vresult : list Hero) :
  hero_regex_ok RGX = true -> length buf - pos < fuel ->
  exists new,
    scan fuel RGX buf pos vresult = Done (vresult ++ new) /\
    (re_search RGX (drop pos buf) = None -> new = []) /\
    (forall m, re_search RGX (drop pos buf) = Some m -> accepted m = Done false ->
       scan fuel RGX buf (pos + m_start m + 1) vresult = Done (vresult ++ new) /\
       Forall (fun h => pos + m_start m + 1 <= fst (span h)) new) /\
    (forall m, re_search RGX (drop pos buf) = Some m -> accepted m = Done true ->
       exists h rest,
         new = h :: rest /\
         span h = (m_start m + pos, m_end m + pos) /\ place h = length vresult /\
         scan fuel RGX buf (pos + m_end m) (vresult ++ [h]) = Done (vresult ++ h :: rest) /\
         Forall (fun h' => pos + m_end m <= fst (span h')) rest) /\
    (forall i j hi hj, i < j -> new !! i = Some hi -> new !! j = Some hj ->
       fst (span hi) < snd (span hi) /\ snd (span hi) <= fst (span hj) /\
       fst (span hj) < snd (span hj)).
Proof.
  intros Hok Hfuel.
  destruct (scan_returns RGX buf Hok fuel pos vresult Hfuel) as [hs Hscan].
  pose proof Hscan as Hch. apply scan_chained in Hch as (new & -> & Hch & _).
  exists new. split; [done|].
  destruct fuel as [|fuel]; [lia|].
  assert (Hnull : nullable RGX = false).
  { unfold hero_regex_ok in Hok. apply andb_true_iff in Hok as [Hok _].
    apply andb_true_iff in Hok as [Hok _]. by apply negb_true_iff in Hok. }
  split; [|split; [|split]].
  - intros Hnone. rewrite scan_step, Hnone in Hscan. injection Hscan as Heq.
    apply (f_equal length) in Heq. rewrite length_app in Heq.
    destruct new; [done|simpl in Heq; lia].
  - intros m Hs Hacc.
    pose proof (re_search_span _ _ _ Hs) as [_ Hend]. rewrite length_drop in Hend.
    pose proof (re_search_progress _ _ _ Hs Hnull) as Hlt.
    assert (Hnext : scan (S fuel) RGX buf (pos + m_start m + 1) vresult
                    = Done (vresult ++ new)).
    { rewrite scan_spare_fuel by lia. rewrite scan_step, Hs, Hacc in Hscan. exact Hscan. }
    split; [done|].
    apply scan_chained in Hnext as (new' & Heq & Hch' & _).
    apply app_inv_head in Heq. subst new'.
    apply chained_from in Hch'. eapply Forall_impl; [exact Hch'|]. simpl. intuition.
  - intros m Hs Hacc.
    pose proof (re_search_span _ _ _ Hs) as [_ Hend]. rewrite length_drop in Hend.
    pose proof (re_search_progress _ _ _ Hs Hnull) as Hlt.
    destruct (accepted_name _ Hacc) as [nm Hnm].
    rewrite scan_step, Hs, Hacc in Hscan. simpl in Hscan. rewrite Hnm in Hscan.
    simpl in Hscan.
    set (h := Hero_init nm (slice buf (pos + m_start m) (pos + m_end m))
                        (length vresult) (m_start m + pos, m_end m + pos)) in *.
    assert (Hnext : scan (S fuel) RGX buf (pos + m_end m) (vresult ++ [h])
                    = Done (vresult ++ new)).
    { rewrite scan_spare_fuel by lia. exact Hscan. }
    pose proof Hnext as Hch'. apply scan_chained in Hch' as (rest & Heq & Hch' & _).
    rewrite <- app_assoc in Heq. apply app_inv_head in Heq. simpl in Heq. subst new.
    exists h, rest. split; [done|]. split; [done|]. split; [done|]. split; [done|].
    apply chained_from in Hch'. eapply Forall_impl; [exact Hch'|]. simpl. intuition.
  - intros i j hi hj. by apply chained_lookup with pos.
Qed.

End ScanClaims.

Section ScanSamples.

Lemma scan_resumes_witness :
  exists new,
    @scan sample_externals (scan_fuel sample_buffer) RGX_HERO sample_buffer START_POS []
      = Done ([] ++ new) /\
    (re_search RGX_HERO (drop START_POS sample_buffer) = None -> new = []) /\
    (forall m, re_search RGX_HERO (drop START_POS sample_buffer) = Some m ->
       accepted m = Done false ->
       @scan sample_externals (scan_fuel sample_buffer) RGX_HERO sample_buffer
             (START_POS + m_start m + 1) [] = Done ([] ++ new) /\
       Forall (fun h => START_POS + m_start m + 1 <= fst (span h)) new) /\
    (forall m, re_search RGX_HERO (drop START_POS sample_buffer) = Some m ->
       accepted m = Done true ->
       exists h rest,
         new = h :: rest /\
         span h = (m_start m + START_POS, m_end m + START_POS) /\
         place h = length (@nil Hero) /\
         @scan sample_externals (scan_fuel sample_buffer) RGX_HERO sample_buffer
               (START_POS + m_end m) ([] ++ [h]) = Done ([] ++ h :: rest) /\
         Forall (fun h' => START_POS + m_end m <= fst (span h')) rest) /\
    (forall i j hi hj, i < j -> new !! i = Some hi -> new !! j = Some hj ->
       fst (span hi) < snd (span hi) /\ snd (span hi) <= fst (span hj) /\
       fst (span hj) < snd (span hj)).
Proof.
  apply (@scan_resumes sample_externals RGX_HERO sample_buffer START_POS
           (scan_fuel sample_buffer) []).
  - reflexivity.
  - apply Nat.ltb_lt. vm_compute. reflexivity.
Defined.

(** On the sample the first structural match, at offset 10000, is
    rejected, and the pass gives what the scan from 10001 gives: the two
    heroes that follow, found back to back. *)
Lemma sample_scan_resumed :
  (exists m, re_search RGX_HERO (drop START_POS sample_buffer) = Some m /\
     m_start m = 0 /\ accepted m = Done false) /\
  map span <$> @scan sample_externals (scan_fuel sample_buffer) RGX_HERO sample_buffer
                     START_POS []
    = Done [(11025, 12050); (12050, 13075)] /\
  map span <$> @scan sample_externals (scan_fuel sample_buffer) RGX_HERO sample_buffer
                     (START_POS + 1) []
    = Done [(11025, 12050); (12050, 13075)].
Proof.
  split; [|split].
  - eexists. split; [vm_compute; reflexivity|]. split; vm_compute; reflexivity.
  - vm_compute. reflexivity.
  - vm_compute. reflexivity.
Qed.

(** The pass over the sample: the first record is skipped, the two
    heroes are found back to back. *)
Lemma sample_pass_spans :
  map span <$> @pass sample_externals None sample_buffer =
  Done [(11025, 12050); (12050, 13075)].
Proof. vm_compute. reflexivity. Qed.

End ScanSamples.

(** ** Version detection *)

Section Detection.
Context `{Externals}.

Lemma pass_returns ver buf :
  hero_regex_ok (adapt ver RGX_HERO) = true -> exists hs, pass ver buf = Done hs.
Proof.
  intros Hok. unfold pass, detect, scan_fuel.
  apply scan_returns; [done|lia].
Qed.

Lemma detect_fresh ver buf results :
  results !! ver = None -> detect ver buf results = pass ver buf.
Proof. intros Hnone. unfold pass, detect. by rewrite Hnone, lookup_empty. Qed.

Lemma hero_count_pass ver buf hs : pass ver buf = Done hs -> hero_count ver buf = length hs.
Proof. unfold hero_count. by intros ->. Qed.

(** Over distinct versions every pass starts from an empty list, and the
    results hold each version's own heroes. *)
Lemma detect_all_fresh buf popped :
  NoDup popped ->
  Forall (fun v => hero_regex_ok (adapt v RGX_HERO) = true) popped ->
  forall results, (forall v, v ∈ popped -> results !! v = None) ->
    exists final, detect_all popped buf results = Done final /\
      (forall v, v ∈ popped -> exists hs, pass v buf = Done hs /\ final !! v = Some hs) /\
      (forall v, v ∉ popped -> final !! v = results !! v).
Proof.
  induction popped as [|ver popped IH]; intros Hnd Hok results Hfresh.
  - exists results. split; [done|]. split; [|done]. intros v Hin. by apply elem_of_nil in Hin.
  - apply NoDup_cons in Hnd as [Hnotin Hnd]. apply Forall_cons in Hok as [Hok1 Hok].
    simpl. rewrite detect_fresh by (apply Hfresh; left).
    destruct (pass_returns ver buf Hok1) as [hs Hpass]. rewrite Hpass. simpl.
    destruct (IH Hnd Hok (<[ver := hs]> results)) as (final & Hfinal & Hin & Hout).
    { intros v Hv. rewrite lookup_insert_ne; [apply Hfresh; by right|].
      intros ->. done. }
    exists final. split; [done|]. split.
    + intros v Hv. apply elem_of_cons in Hv as [->|Hv]; [|by apply Hin].
      exists hs. split; [done|]. rewrite (Hout _ Hnotin). apply lookup_insert_eq.
    + intros v Hv. apply not_elem_of_cons in Hv as [Hne Hv].
      rewrite (Hout _ Hv). by apply lookup_insert_ne.
Qed.

Lemma max_count_ge (vcounts : gmap (option string) nat) k c :
  vcounts !! k = Some c -> c <= max_count vcounts.
Proof.
  intros Hk. unfold max_count. apply max_list_elem_of_le. apply list_elem_of_fmap.
  exists (k, c). split; [done|]. by apply elem_of_map_to_list.
Qed.

Lemma max_count_attained (vcounts : gmap (option string) nat) k c :
  vcounts !! k = Some c -> exists k', vcounts !! k' = Some (max_count vcounts).
Proof.
  intros Hk.
  assert (Hne : snd <$> map_to_list vcounts <> []).
  { intros Hnil. apply fmap_nil_inv in Hnil. apply map_to_list_empty_iff in Hnil.
    subst. by rewrite lookup_empty in Hk. }
  apply max_list_elem_of in Hne. apply list_elem_of_fmap in Hne as ([k' c'] & Hc & Hin).
  apply elem_of_map_to_list in Hin. simpl in Hc. exists k'. unfold max_count. by rewrite Hc.
Qed.

(** The last element that passes a filter splits the list: nothing after
    it passes. *)
Lemma last_filter_split {A : Type} (P : A -> Prop) `{!forall x, Decision (P x)}
    (l : list A) (x : A) :
  last (filter P l) = Some x ->
  exists l1 l2, l = l1 ++ x :: l2 /\ P x /\ Forall (fun y => ~ P y) l2.
Proof.
  induction l as [|y l IH] using rev_ind; [done|].
  rewrite filter_app, filter_cons, filter_nil. destruct (decide (P y)) as [Hy|Hy].
  - rewrite last_snoc. intros [= ->]. exists l, []. auto.
  - rewrite app_nil_r. intros Hlast.
    destruct (IH Hlast) as (l1 & l2 & -> & Hx & Hall).
    exists l1, (l2 ++ [y]). rewrite <- app_assoc. split; [done|]. split; [done|].
    apply Forall_app. auto.
Qed.

Lemma last_filter_is_Some {A : Type} (P : A -> Prop) `{!forall x, Decision (P x)}
    (l : list A) (x : A) :
  x ∈ l -> P x -> is_Some (last (filter P l)).
Proof.
  intros Hin Hx.
  assert (Hf : x ∈ filter P l) by (by apply list_elem_of_filter).
  destruct (filter P l) as [|y l'] using rev_ind; [by apply elem_of_nil in Hf|].
  rewrite last_snoc. eauto.
Qed.

Lemma candidates_nonempty pv dv sf : candidates pv dv sf <> [].
Proof.
  unfold candidates. destruct dv, pv as [[|n names]|]; done.
Qed.

(** What [parse] returns over distinct candidates, in terms of the
    counts of the passes: the selected version is the last candidate, in
    list order, whose count is the greatest. *)
Lemma parse_selection pv dv sf :
  NoDup (candidates pv dv sf) ->
  Forall (fun v => hero_regex_ok (adapt v RGX_HERO) = true) (candidates pv dv sf) ->
  exists sel earlier later hs,
    candidates pv dv sf = earlier ++ sel :: later /\
    pass sel (raw sf) = Done hs /\
    Forall (fun v => hero_count v (raw sf) <= length hs) earlier /\
    Forall (fun v => hero_count v (raw sf) < length hs) later /\
    parse pv dv sf =
      Done (if version_truthy sel
            then MkParsed (set_version sel sf) (sorted hs) None
            else MkParsed (set_version (version sf) sf) [] (Some (no_heroes_status sf))).
Proof.
  intros Hnd Hok. unfold parse.
  set (cands := candidates pv dv sf) in *.
  destruct (detect_all_fresh (raw sf) (reverse cands))
    with (results := @empty (gmap (option string) (list Hero)) _)
    as (final & -> & Hin & Hout).
  { by rewrite reverse_Permutation. }
  { by apply Forall_reverse. }
  { intros v _. apply lookup_empty. }
  simpl.
  assert (Hcount : forall v, v ∈ cands ->
            (length <$> final) !! v = Some (hero_count v (raw sf))).
  { intros v Hv. destruct (Hin v) as (hs & Hpass & Hfin).
    - by apply elem_of_reverse.
    - rewrite lookup_fmap, Hfin. simpl. by rewrite (hero_count_pass _ _ _ Hpass). }
  assert (Hdom : forall v c, (length <$> final) !! v = Some c -> v ∈ cands).
  { intros v c Hv. destruct (decide (v ∈ cands)) as [|Hnot]; [done|].
    rewrite lookup_fmap, Hout, lookup_empty in Hv; [done|].
    intros Hrev. apply Hnot. by apply elem_of_reverse. }
  set (vcounts := length <$> final) in *.
  destruct cands as [|c0 cands'] eqn:Hcands; [by apply candidates_nonempty in Hcands|].
  rewrite <- Hcands in *.
  assert (Hc0 : c0 ∈ cands) by (rewrite Hcands; left).
  destruct (max_count_attained vcounts c0 _ (Hcount _ Hc0)) as [kmax Hkmax].
  destruct (last_filter_is_Some (fun k => vcounts !! k = Some (max_count vcounts))
              cands kmax (Hdom _ _ Hkmax) Hkmax) as [sel Hsel].
  rewrite Hsel. simpl.
  destruct (last_filter_split _ _ _ Hsel) as (earlier & later & Hsplit & Hmax & Hlater).
  assert (Hselin : sel ∈ cands).
  { rewrite Hsplit. apply elem_of_app. right. left. }
  destruct (Hin sel) as (hs & Hpass & Hfin).
  { by apply elem_of_reverse. }
  rewrite (Hcount _ Hselin), (hero_count_pass _ _ _ Hpass) in Hmax.
  injection Hmax as Hmax.
  exists sel, earlier, later, hs. split; [done|]. split; [done|].
  split; [|split].
  - apply Forall_forall. intros v Hv. rewrite Hmax. apply (max_count_ge vcounts v).
    apply Hcount. rewrite Hsplit. apply elem_of_app. by left.
  - apply Forall_forall. intros v Hv.
    assert (Hvin : v ∈ cands).
    { rewrite Hsplit. apply elem_of_app. right. by right. }
    rewrite Forall_forall in Hlater. specialize (Hlater _ Hv).
    pose proof (max_count_ge vcounts v _ (Hcount _ Hvin)) as Hle.
    rewrite Hcount in Hlater by done. rewrite Hmax.
    destruct (decide (hero_count v (raw sf) = max_count vcounts)) as [Heq|Hne]; [|lia].
    exfalso. apply Hlater. by rewrite Heq.
  - rewrite Hfin. simpl. by destruct (version_truthy sel).
Qed.

End Detection.

(** ** Sorting by name *)

Section Sorting.
Context `{Externals}.

Lemma string_compare_trans s1 :
  forall s2 s3,
    String.compare s1 s2 <> Gt -> String.compare s2 s3 <> Gt ->
    String.compare s1 s3 <> Gt.
Proof.
  induction s1 as [|a s1 IH]; intros [|b s2] [|c s3]; simpl; try done.
  unfold Ascii.compare.
  destruct (N.compare_spec (N_of_ascii a) (N_of_ascii b)) as [Hab|Hab|Hab];
  destruct (N.compare_spec (N_of_ascii b) (N_of_ascii c)) as [Hbc|Hbc|Hbc];
  destruct (N.compare_spec (N_of_ascii a) (N_of_ascii c)) as [Hac|Hac|Hac];
    try done; try lia; eauto.
Qed.

Lemma string_leb_trans s1 s2 s3 :
  String.leb s1 s2 = true -> String.leb s2 s3 = true -> String.leb s1 s3 = true.
Proof.
  unfold String.leb. intros H12 H23.
  pose proof (string_compare_trans s1 s2 s3) as Htrans.
  destruct (String.compare s1 s2); try discriminate;
  destruct (String.compare s2 s3); try discriminate;
  destruct (String.compare s1 s3); try done; exfalso; by apply Htrans.
Qed.

#[local] Instance name_le_trans : Transitive name_le.
Proof. intros a b c. unfold name_le. apply string_leb_trans. Qed.

Lemma name_le_total a b : name_le a b \/ name_le b a.
Proof. unfold name_le. apply String.leb_total. Qed.

Lemma insert_sorted_elem x y l : y ∈ insert_sorted x l <-> y = x \/ y ∈ l.
Proof.
  induction l as [|z l IH]; simpl.
  - rewrite list_elem_of_singleton. rewrite elem_of_nil. tauto.
  - destruct (String.leb (name_key x) (name_key z)).
    + rewrite !elem_of_cons. tauto.
    + rewrite !elem_of_cons, IH. tauto.
Qed.

Lemma insert_sorted_sorted x l :
  StronglySorted name_le l -> StronglySorted name_le (insert_sorted x l).
Proof.
  induction 1 as [|z l Hs IH Hall]; simpl.
  - repeat constructor.
  - destruct (String.leb (name_key x) (name_key z)) eqn:Hle.
    + constructor; [by constructor|]. constructor; [done|].
      eapply Forall_impl; [exact Hall|]. intros y Hy. by transitivity z.
    + constructor; [done|]. apply Forall_forall. intros y Hy.
      apply insert_sorted_elem in Hy as [->|Hy].
      * destruct (name_le_total x z) as [Hxz|Hzx]; [|done].
        unfold name_le in Hxz. congruence.
      * rewrite Forall_forall in Hall. by apply Hall.
Qed.

(** [sorted] gives its argument's heroes in ascending order of their
    lower-cased names. *)
Lemma sorted_sorted l : StronglySorted name_le (sorted l).
Proof.
  induction l as [|x l IH]; simpl; [constructor|]. by apply insert_sorted_sorted.
Qed.

Lemma insert_sorted_perm x l : insert_sorted x l ≡ₚ x :: l.
Proof.
  induction l as [|z l IH]; simpl; [done|].
  destruct (String.leb (name_key x) (name_key z)); [done|].
  rewrite IH. apply Permutation_swap.
Qed.

Lemma sorted_perm l : sorted l ≡ₚ l.
Proof.
  induction l as [|x l IH]; simpl; [done|]. by rewrite insert_sorted_perm, IH.
Qed.

(** The passes end whatever the candidates, given patterns that let the
    loop run. *)
Lemma detect_all_returns buf popped :
  Forall (fun v => hero_regex_ok (adapt v RGX_HERO) = true) popped ->
  forall results, exists final, detect_all popped buf results = Done final.
Proof.
  induction popped as [|ver popped IH]; intros Hok results; simpl; [eauto|].
  apply Forall_cons in Hok as [Hok1 Hok].
  destruct (scan_returns _ buf Hok1 (scan_fuel buf) START_POS
              (default [] (results !! ver))) as [hs Hscan].
  { unfold scan_fuel. lia. }
  unfold detect. rewrite Hscan. simpl. by apply IH.
Qed.

(** Every hero in the results of the passes starts at offset 10000 or
    later. *)
Lemma detect_all_start buf popped :
  forall results final,
    map_Forall (fun _ l => Forall (fun h => START_POS <= fst (span h)) l) results ->
    detect_all popped buf results = Done final ->
    map_Forall (fun _ l => Forall (fun h => START_POS <= fst (span h)) l) final.
Proof.
  induction popped as [|ver popped IH]; intros results final Hres Hall; simpl in Hall.
  - by injection Hall as <-.
  - destruct (detect ver buf results) as [hs| |] eqn:Hdet; try discriminate.
    simpl in Hall. apply IH in Hall; [done|].
    apply map_Forall_insert_2; [|done].
    unfold detect in Hdet. apply scan_chained in Hdet as (new & -> & Hch & _).
    apply Forall_app. split.
    + destruct (results !! ver) as [l|] eqn:Hl; [|constructor]. by apply (Hres ver).
    + apply chained_from in Hch. eapply Forall_impl; [exact Hch|]. simpl. intuition.
Qed.

Lemma parse_start pv dv sf p :
  parse pv dv sf = Done p -> Forall (fun h => START_POS <= fst (span h)) (p_heroes p).
Proof.
  unfold parse. intros Hparse.
  destruct (detect_all (reverse (candidates pv dv sf)) (raw sf) ∅) as [final| |] eqn:Hall;
    try discriminate.
  apply detect_all_start in Hall; [|apply map_Forall_empty].
  simpl in Hparse.
  match type of Hparse with context [version_truthy ?v] =>
    destruct (version_truthy v); set (ver := v) in * end;
    injection Hparse as <-; simpl; [|constructor].
  rewrite sorted_perm.
  destruct (final !! ver) as [l|] eqn:Hl; [|constructor]. by apply (Hall ver).
Qed.

End Sorting.

Section ParseClaims.
Context `{Externals}.

(** C7.  [parse] returns, and the hero list it leaves is in ascending
    order of the lower-cased hero names. *)
Theorem parsed_heroes_sorted (pv : option (list string)) (dv : bool) (sf : Savefile) :
  Forall (fun v => hero_regex_ok (adapt v RGX_HERO) = true) (candidates pv dv sf) ->
  exists p, parse pv dv sf = Done p /\ StronglySorted name_le (p_heroes p).
Proof.
  intros Hok. unfold parse.
  destruct (detect_all_returns (raw sf) (reverse (candidates pv dv sf))) with (results := @empty (gmap (option string) (list Hero)) _)
    as [final ->]; [by apply Forall_reverse|].
  simpl. match goal with |- context [version_truthy ?v] => destruct (version_truthy v) end.
  - eexists. split; [reflexivity|]. simpl. apply sorted_sorted.
  - eexists. split; [reflexivity|]. simpl. constructor.
Qed.

(** C2 (as amended).  Over distinct candidates with non-empty names, on a
    buffer in which some layout finds a hero, [parse] selects a layout
    with the greatest number of accepted heroes; among layouts that tie at
    that number it selects the one latest in the candidate list, which is
    the first one tried, since candidates are popped from the end; the
    savefile's version is set to it and the heroes are that pass's, sorted. *)
Theorem parse_selects_most_heroes (pv : option (list string)) (dv : bool) (sf : Savefile) :
  NoDup (candidates pv dv sf) ->
  Forall (fun v => version_truthy v = true) (candidates pv dv sf) ->
  Forall (fun v => hero_regex_ok (adapt v RGX_HERO) = true) (candidates pv dv sf) ->
  Exists (fun v => 0 < hero_count v (raw sf)) (candidates pv dv sf) ->
  exists sel earlier later hs,
    candidates pv dv sf = earlier ++ sel :: later /\
    pass sel (raw sf) = Done hs /\
    Forall (fun v => hero_count v (raw sf) <= length hs) earlier /\
    Forall (fun v => hero_count v (raw sf) < length hs) later /\
    parse pv dv sf = Done (MkParsed (set_version sel sf) (sorted hs) None).
Proof.
  intros Hnd Htruthy Hok _.
  destruct (parse_selection pv dv sf Hnd Hok)
    as (sel & earlier & later & hs & Hsplit & Hpass & Hearlier & Hlater & Hparse).
  exists sel, earlier, later, hs. repeat (split; [done|]).
  rewrite Hparse. rewrite Forall_forall in Htruthy. rewrite Htruthy; [done|].
  rewrite Hsplit. apply elem_of_app. right. left.
Qed.

(** C8.  Every hero a detection pass accepts, and so every hero [parse]
    reports, has a span that starts at offset 10000 or later. *)
Theorem hero_start_offset (pv : option (list string)) (dv : bool) (sf : Savefile)
    (p : Parsed) (ver : option string) (hs : list Hero) (h : Hero) :
  (pass ver (raw sf) = Done hs /\ h ∈ hs) \/
  (parse pv dv sf = Done p /\ h ∈ p_heroes p) ->
  START_POS <= fst (span h).
Proof.
  intros [[Hpass Hin]|[Hparse Hin]].
  - unfold pass, detect in Hpass. rewrite lookup_empty in Hpass.
    apply scan_chained in Hpass as (new & -> & Hch & _).
    change (default [] None ++ new) with new in Hin.
    apply chained_from in Hch. rewrite Forall_forall in Hch. by apply Hch.
  - apply parse_start in Hparse. rewrite Forall_forall in Hparse. by apply Hparse.
Qed.

(** With no hero under any layout, [parse] still records a version, the
    last candidate, and reports nothing. *)
Lemma no_heroes_selects_last (pv : option (list string)) (dv : bool) (sf : Savefile) :
  NoDup (candidates pv dv sf) ->
  Forall (fun v => version_truthy v = true) (candidates pv dv sf) ->
  Forall (fun v => hero_regex_ok (adapt v RGX_HERO) = true) (candidates pv dv sf) ->
  Forall (fun v => hero_count v (raw sf) = 0) (candidates pv dv sf) ->
  parse pv dv sf =
    Done (MkParsed (set_version (default None (last (candidates pv dv sf))) sf) [] None).
Proof.
  intros Hnd Htruthy Hok Hzero.
  destruct (parse_selection pv dv sf Hnd Hok)
    as (sel & earlier & later & hs & Hsplit & Hpass & _ & Hlater & Hparse).
  rewrite Forall_forall in Htruthy, Hzero.
  assert (Hsel : sel ∈ candidates pv dv sf).
  { rewrite Hsplit. apply elem_of_app. right. left. }
  rewrite Hparse, (Htruthy _ Hsel).
  pose proof (Hzero _ Hsel) as Hcount. rewrite (hero_count_pass _ _ _ Hpass) in Hcount.
  destruct hs; [|done]. destruct later as [|v later].
  - rewrite Hsplit, last_snoc. done.
  - apply Forall_cons in Hlater as [Hlt _]. simpl in Hlt. lia.
Qed.

End ParseClaims.

Section ParseSamples.

Lemma sample_regex_ok (cands : list (option string)) :
  Forall (fun v => hero_regex_ok (@adapt sample_externals v RGX_HERO) = true) cands.
Proof. apply Forall_forall. intros v _. reflexivity. Qed.

Lemma parsed_heroes_sorted_witness :
  exists p, @parse sample_externals (Some ["sod"; "hota"]) true sample_savefile = Done p /\
    StronglySorted (@name_le sample_externals) (p_heroes p).
Proof.
  apply (@parsed_heroes_sorted sample_externals). apply sample_regex_ok.
Defined.

(** On the sample the heroes are found as Bron, adela and listed as
    adela, Bron. *)
Lemma sample_parse_names :
  (fun p => (version (p_savefile p), map name (p_heroes p), p_status p))
    <$> @parse sample_externals (Some ["sod"; "hota"]) true sample_savefile =
  Done (Some "hota", ["adela"; "Bron"], None).
Proof. vm_compute. reflexivity. Qed.

Lemma parse_selects_most_heroes_witness :
  exists sel earlier later hs,
    @candidates (Some ["sod"; "hota"]) true sample_savefile = earlier ++ sel :: later /\
    @pass sample_externals sel (raw sample_savefile) = Done hs /\
    Forall (fun v => @hero_count sample_externals v (raw sample_savefile) <= length hs) earlier /\
    Forall (fun v => @hero_count sample_externals v (raw sample_savefile) < length hs) later /\
    @parse sample_externals (Some ["sod"; "hota"]) true sample_savefile =
      Done (MkParsed (set_version sel sample_savefile) (@sorted sample_externals hs) None).
Proof.
  apply (@parse_selects_most_heroes sample_externals).
  - apply (bool_decide_unpack _). vm_compute. exact I.
  - repeat constructor.
  - apply sample_regex_ok.
  - apply Exists_cons_hd. vm_compute. lia.
Defined.

(** C2 as stated fails: both layouts find the two heroes of the sample;
    the traversal meets "hota" first and "sod" last, and "hota" is
    selected. *)
Lemma first_tried_wins_tie : ~ tie_break_as_claimed.
Proof.
  intros Hclaim.
  pose proof (Hclaim sample_externals (Some ["sod"; "hota"]) true sample_savefile) as Hc.
  destruct (@parse sample_externals (Some ["sod"; "hota"]) true sample_savefile)
    as [p| |] eqn:Hparse; [|by vm_compute in Hparse..].
  specialize (Hc p eq_refl).
  assert (Hver : version (p_savefile p) = Some "hota").
  { vm_compute in Hparse. injection Hparse as <-. reflexivity. }
  rewrite Hver in Hc. vm_compute in Hc. discriminate.
Qed.

(** C1 at a failing input: an empty buffer holds no hero under either
    layout, yet [parse] records the version "hota" and reports nothing. *)
Lemma no_heroes_not_reported :
  @parse sample_externals (Some ["sod"; "hota"]) true empty_savefile =
  Done (MkParsed (set_version (Some "hota") empty_savefile) [] None).
Proof. vm_compute. reflexivity. Qed.

Lemma hero_start_offset_witness :
  exists p h, @parse sample_externals (Some ["sod"; "hota"]) true sample_savefile = Done p /\
    h ∈ p_heroes p /\ span h = (12050, 13075) /\ START_POS <= fst (span h).
Proof.
  eexists _, _. split; [vm_compute; reflexivity|].
  split; [apply list_elem_of_here|]. split; [reflexivity|].
  eapply (@hero_start_offset sample_externals (Some ["sod"; "hota"]) true sample_savefile
            _ None []).
  right. split; [vm_compute; reflexivity|]. apply list_elem_of_here.
Defined.

End ParseSamples.

(** ** Hero identity *)

Section Identity.

(** C9.  A hero equals another value exactly when that value is a hero
    with the same name and place; the same name at another place is
    another hero, and the bytes play no part. *)
Theorem Hero_eq_name_place (self : Hero) (other : object) :
  (Hero_eq self other = true <->
   exists h, other = OHero h /\ (name self, place self) = (name h, place h)) /\
  (forall h, name self = name h -> place self <> place h ->
     Hero_eq self (OHero h) = false) /\
  (forall h bs, name self = name h -> place self = place h ->
     Hero_eq self (OHero (set_bytes bs h)) = true).
Proof.
  split; [|split].
  - destruct other as [h| | |]; simpl; try (split; [done|by intros (h & ? & _)]).
    rewrite andb_true_iff, String.eqb_eq, Nat.eqb_eq. split.
    + intros [-> ->]. eauto.
    + intros (h' & [= <-] & [= -> ->]). done.
  - intros h _ Hplace. simpl. apply andb_false_iff. right. by apply Nat.eqb_neq.
  - intros h bs Hname Hplace. simpl. apply andb_true_iff.
    by rewrite String.eqb_eq, Nat.eqb_eq.
Qed.

(** Two heroes called Bron found at places 0 and 1 differ; a hero equals
    its edited copy; no hero equals its name. *)
Lemma Hero_eq_samples :
  Hero_eq (Hero_init "Bron" [x01] 0 (11025, 12050))
          (OHero (Hero_init "Bron" [x01] 1 (12050, 13075))) = false /\
  Hero_eq (Hero_init "Bron" [x01] 0 (11025, 12050))
          (OHero (Hero_init "Bron" [x02] 0 (11025, 12050))) = true /\
  Hero_eq (Hero_init "Bron" [x01] 0 (11025, 12050)) (OStr "Bron") = false.
Proof. repeat split. Qed.

End Identity.

(** ** Patching the savefile *)

Section Patch.





End Patch.

Section PatchSamples.


(** The example in full: the bytes before 500 and from 1525 on are
    unchanged, the span holds the new bytes, the length is kept. *)
Lemma patch_2000_bytes :
  take 500 (raw (snd (patch patch_subplugins patch_hero patch_savefile)))
    = take 500 (raw patch_savefile) /\
  drop 1525 (raw (snd (patch patch_subplugins patch_hero patch_savefile)))
    = drop 1525 (raw patch_savefile) /\
  take 1025 (drop 500 (raw (snd (patch patch_subplugins patch_hero patch_savefile))))
    = repeat x02 1025 /\
  length (raw (snd (patch patch_subplugins patch_hero patch_savefile))) = 2000.
Proof. vm_compute. repeat split. Qed.


End PatchSamples.

(** ** Base stats *)

Section BasestatsFacts.
Context `{Metadata}.

Lemma set_basestats_same h : set_basestats (basestats h) h = h.
Proof. by destruct h. Qed.

Lemma has_stats_false_bonus i item : has_stats item = false -> bonus_of i item = 0%Z.
Proof.
  unfold has_stats, bonus_of. destruct (STATS_get item) as [[|b bonus]|]; try done.
Qed.

(** The differences accumulated over the worn items, attribute by
    attribute, when every entry of the table has a value for each
    primary attribute. *)
Lemma fold_add_bonus items :
  (forall a bonus, artifact_stats !! a = Some bonus ->
     length PrimaryAttributes <= length bonus) ->
  forall diff, length diff = length PrimaryAttributes ->
    length (fold_left add_bonus (filter (fun i => has_stats i = true) items) diff)
      = length PrimaryAttributes /\
    forall i d, diff !! i = Some d ->
      fold_left add_bonus (filter (fun i => has_stats i = true) items) diff !! i
        = Some (d + total_bonus i items)%Z.
Proof.
  intros Hwf. induction items as [|item items IH]; intros diff Hlen.
  - simpl. split; [done|]. intros i d ->. f_equal. lia.
  - rewrite filter_cons. destruct (decide (has_stats item = true)) as [Hs|Hs].
    + simpl. unfold has_stats in Hs.
      destruct (STATS_get item) as [bonus|] eqn:Hget; [|done].
      assert (Hb : length PrimaryAttributes <= length bonus).
      { destruct item as [a|]; [|done]. by apply (Hwf a). }
      assert (Hlen' : length (add_bonus diff item) = length PrimaryAttributes).
      { unfold add_bonus. rewrite Hget. simpl. rewrite length_zip_with. lia. }
      destruct (IH _ Hlen') as [IHlen IHlook]. split; [done|].
      intros i d Hd.
      assert (Hi : i < length bonus).
      { apply lookup_lt_Some in Hd. lia. }
      destruct (lookup_lt_is_Some_2 bonus i Hi) as [b Hbi].
      rewrite (IHlook i (d + b)%Z).
      * f_equal. unfold bonus_of. rewrite Hget, Hbi. simpl. lia.
      * unfold add_bonus. rewrite Hget. simpl. rewrite lookup_zip_with, Hd, Hbi. done.
    + apply not_true_is_false in Hs. destruct (IH _ Hlen) as [IHlen IHlook].
      split; [done|]. intros i d Hd. rewrite (IHlook i d Hd). f_equal.
      simpl. rewrite (has_stats_false_bonus i item Hs). lia.
Qed.

Lemma bonus_sum_lookup items i :
  (forall a bonus, artifact_stats !! a = Some bonus ->
     length PrimaryAttributes <= length bonus) ->
  i < length PrimaryAttributes ->
  bonus_sum items !! i = Some (total_bonus i items) /\
  length (bonus_sum items) = length PrimaryAttributes.
Proof.
  intros Hwf Hi. unfold bonus_sum.
  destruct (fold_add_bonus items Hwf (replicate (length PrimaryAttributes) 0%Z))
    as [Hlen Hlook]; [by rewrite length_replicate|].
  split; [|done]. rewrite (Hlook i 0%Z); [f_equal; lia|].
  by apply lookup_replicate_2.
Qed.

(** Storing the base values: every listed attribute the hero has a stat
    for gets its stat less the difference; other keys keep their value. *)
Lemma store_base_lookup st kvs :
  NoDup (fst <$> kvs) ->
  (forall k, k ∈ fst <$> kvs -> is_Some (st !! k)) ->
  forall base, exists b, store_base (Some st) kvs base = Done b /\
    (forall k v x, (k, v) ∈ kvs -> st !! k = Some x -> b !! k = Some (x - v)%Z) /\
    (forall k, k ∉ fst <$> kvs -> b !! k = base !! k).
Proof.
  induction kvs as [|[k v] kvs IH]; intros Hnd Hall base; simpl.
  - exists base. split; [done|]. split; [|done]. intros k v x Hin. by apply elem_of_nil in Hin.
  - rewrite fmap_cons in Hnd, Hall. simpl in Hnd, Hall.
    apply NoDup_cons in Hnd as [Hnotin Hnd].
    destruct (Hall k ltac:(left)) as [x Hx]. rewrite Hx.
    destruct (IH Hnd (fun k' Hk' => Hall k' ltac:(by right)) (<[k := (x - v)%Z]> base))
      as (b & -> & Hin & Hout).
    exists b. split; [done|]. split.
    + intros k' v' x' Hkv Hx'. apply elem_of_cons in Hkv as [[= -> ->]|Hkv].
      * rewrite (Hout _ Hnotin), lookup_insert_eq. congruence.
      * by apply (Hin k' v').
    + intros k' Hk'. apply not_elem_of_cons in Hk' as [Hne Hk'].
      rewrite (Hout _ Hk'). by apply lookup_insert_ne.
Qed.

End BasestatsFacts.

Section BasestatsClaims.
Context `{Metadata}.

(** C6.  For a hero with an [artifacts] attribute and an empty cache (or
    a call that clears it), with a stat for every primary attribute and a
    table whose entries hold a value per primary attribute,
    [ensure_basestats] stores for each primary attribute the hero's stat
    less the sum of that attribute's bonuses over the worn items that are
    in the table, stores nothing else, and touches no other field. *)
Theorem ensure_basestats_computes (self : Hero) (clear : bool)
    (arts : list (string * option string)) (st : gmap string Z) :
  artifacts self = Some arts -> stats self = Some st ->
  clear = true \/ basestats self = ∅ ->
  NoDup PrimaryAttributes ->
  (forall k, k ∈ PrimaryAttributes -> is_Some (st !! k)) ->
  (forall a bonus, artifact_stats !! a = Some bonus ->
     length PrimaryAttributes <= length bonus) ->
  exists self',
    ensure_basestats self clear = Done self' /\
    (forall i k x, PrimaryAttributes !! i = Some k -> st !! k = Some x ->
       basestats self' !! k = Some (x - total_bonus i (snd <$> arts))%Z) /\
    (forall k, k ∉ PrimaryAttributes -> basestats self' !! k = None) /\
    set_basestats (basestats self) self' = self.
Proof.
  intros Harts Hst Hclear Hnd Hall Hwf. unfold ensure_basestats.
  set (self1 := if clear then set_basestats ∅ self else self).
  assert (Hb1 : basestats self1 = ∅).
  { subst self1. destruct clear; [done|]. by destruct Hclear. }
  assert (Ha1 : artifacts self1 = Some arts) by (subst self1; by destruct clear).
  assert (Hs1 : stats self1 = Some st) by (subst self1; by destruct clear).
  rewrite Hb1, Ha1, Hs1. rewrite bool_decide_eq_true_2 by done. simpl.
  set (diff := bonus_sum (snd <$> arts)).
  assert (Hlen : length diff = length PrimaryAttributes).
  { subst diff. unfold bonus_sum.
    apply fold_add_bonus; [done|by rewrite length_replicate]. }
  assert (Hkeys : fst <$> zip PrimaryAttributes diff = PrimaryAttributes).
  { apply fst_zip. lia. }
  destruct (store_base_lookup st (zip PrimaryAttributes diff)) with (base := @empty (gmap string Z) _)
    as (b & -> & Hin & Hout).
  { by rewrite Hkeys. }
  { intros k Hk. rewrite Hkeys in Hk. by apply Hall. }
  simpl. eexists. split; [reflexivity|]. simpl. split; [|split].
  - intros i k x Hk Hx. apply (Hin k); [|done].
    apply list_elem_of_lookup. exists i. rewrite lookup_zip_with, Hk. simpl.
    unfold diff.
    destruct (bonus_sum_lookup (snd <$> arts) i Hwf) as [-> _]; [|done].
    by apply lookup_lt_Some in Hk.
  - intros k Hk. rewrite Hout by (by rewrite Hkeys). apply lookup_empty.
  - subst self1. destruct self, clear; done.
Qed.

(** C10.  A hero with a non-empty cache is returned as it is by a call
    that does not clear, whatever its stats and artifacts are now; so is
    a hero without an [artifacts] attribute, whose cache, when empty, stays
    empty under either call. *)
Theorem ensure_basestats_keeps_cache (self : Hero) :
  (basestats self <> ∅ -> ensure_basestats self false = Done self) /\
  (artifacts self = None ->
   ensure_basestats self false = Done self /\
   (basestats self = ∅ -> forall clear, ensure_basestats self clear = Done self)).
Proof.
  unfold ensure_basestats. split.
  - intros Hne. by rewrite bool_decide_eq_false_2.
  - intros Hnone. split.
    + rewrite Hnone. by destruct (bool_decide (basestats self = ∅)).
    + intros Hempty clear.
      assert (Hsame : (if clear then set_basestats ∅ self else self) = self).
      { destruct clear; [|done]. rewrite <- Hempty. apply set_basestats_same. }
      rewrite Hsame, Hnone. by destruct (bool_decide (basestats self = ∅)).
Qed.

End BasestatsClaims.

Section BasestatsSamples.

Lemma ensure_basestats_computes_witness :
  exists self',
    @ensure_basestats sample_metadata
      (sample_hero (Some "Blackshard of the Dead Knight") ∅) false = Done self' /\
    (forall i k x, @PrimaryAttributes sample_metadata !! i = Some k ->
       sample_stats !! k = Some x ->
       basestats self' !! k =
         Some (x - @total_bonus sample_metadata i
                     (snd <$> [("helm", None);
                               ("weapon", Some "Blackshard of the Dead Knight")]))%Z) /\
    (forall k, k ∉ @PrimaryAttributes sample_metadata -> basestats self' !! k = None) /\
    set_basestats (basestats (sample_hero (Some "Blackshard of the Dead Knight") ∅)) self'
      = sample_hero (Some "Blackshard of the Dead Knight") ∅.
Proof.
  apply (@ensure_basestats_computes sample_metadata).
  - reflexivity.
  - reflexivity.
  - right. reflexivity.
  - apply (bool_decide_unpack _). vm_compute. exact I.
  - intros k Hk. simpl in Hk.
    repeat (apply elem_of_cons in Hk as [->|Hk]); [vm_compute; eauto..|].
    by apply elem_of_nil in Hk.
  - intros a bonus Hlook. simpl in Hlook.
    apply lookup_singleton_Some in Hlook as [_ <-]. simpl. lia.
Defined.

(** Attack 10 under a +3 artifact gives base attack 7; without the
    artifact and with the cache cleared, 10. *)
Lemma base_attack_7_then_10 :
  (fun h => basestats h !! "attack") <$>
    @ensure_basestats sample_metadata
      (sample_hero (Some "Blackshard of the Dead Knight") ∅) false = Done (Some 7%Z) /\
  (fun h => basestats h !! "attack") <$>
    @ensure_basestats sample_metadata
      (sample_hero None {[ "attack" := 7%Z ]}) true = Done (Some 10%Z).
Proof. split; vm_compute; reflexivity. Qed.

(** Without [clear] the cached 7 stays, although the artifact is gone. *)
Lemma stale_cache_kept :
  @ensure_basestats sample_metadata (sample_hero None {[ "attack" := 7%Z ]}) false
  = Done (sample_hero None {[ "attack" := 7%Z ]}).
Proof. vm_compute. reflexivity. Qed.

End BasestatsSamples.

(** ** Further properties of a detection pass *)

Section PassFacts.
Context `{Externals}.

(** The places a pass hands out count the heroes found so far. *)
Lemma scan_places RGX buf fuel :
  forall pos vresult hs,
    scan fuel RGX buf pos vresult = Done hs ->
    exists new, hs = vresult ++ new /\
      forall i h, new !! i = Some h -> place h = length vresult + i.
Proof.
  induction fuel as [|fuel IH]; intros pos vresult hs Hscan; [discriminate|].
  rewrite scan_step in Hscan.
  destruct (re_search RGX (drop pos buf)) as [m|] eqn:Hs.
  2:{ injection Hscan as <-. exists []. rewrite app_nil_r. split; [done|].
      intros i h Hi. by rewrite lookup_nil in Hi. }
  destruct (accepted m) as [[|]| |] eqn:Hacc; try discriminate; simpl in Hscan.
  - destruct (hero_name m) as [nm| |]; try discriminate. simpl in Hscan.
    apply IH in Hscan as (new & -> & Hplace).
    eexists (_ :: new). rewrite <- app_assoc. split; [reflexivity|].
    intros [|i] h Hi; simpl in Hi.
    + injection Hi as <-. simpl. lia.
    + rewrite (Hplace i h Hi), length_app. simpl. lia.
  - by apply IH in Hscan.
Qed.

(** A pass returns: its loop ends and nothing is raised, for every
    buffer, when the version's pattern consumes input and captures both
    groups. *)
Theorem detection_pass_returns (ver : option string) (buf : list byte)
    (results : gmap (option string) (list Hero)) :
  hero_regex_ok (adapt ver RGX_HERO) = true ->
  exists hs, detect ver buf results = Done hs.
Proof.
  intros Hok. unfold detect. apply scan_returns; [done|]. unfold scan_fuel. lia.
Qed.

(** A hero found by a pass holds the buffer's bytes at its span, which
    lies inside the buffer. *)
Theorem hero_bytes_at_span (ver : option string) (buf : list byte)
    (hs : list Hero) (h : Hero) :
  pass ver buf = Done hs -> h ∈ hs ->
  snd (span h) <= length buf /\
  bytes h = slice buf (fst (span h)) (snd (span h)) /\
  length (bytes h) = snd (span h) - fst (span h).
Proof.
  unfold pass, detect. rewrite lookup_empty. intros Hscan Hin.
  apply scan_chained in Hscan as (new & -> & _ & Hall).
  change (default [] None ++ new) with new in Hin.
  rewrite Forall_forall in Hall. destruct (Hall _ Hin) as [Hend Hbytes].
  split; [done|]. split; [done|].
  rewrite Hbytes. unfold slice. rewrite length_take, length_drop. lia.
Qed.

(** The place of a hero is its index in the pass that found it. *)
Theorem hero_place_is_index (ver : option string) (buf : list byte)
    (hs : list Hero) (i : nat) (h : Hero) :
  pass ver buf = Done hs -> hs !! i = Some h -> place h = i.
Proof.
  unfold pass, detect. rewrite lookup_empty. intros Hscan Hi.
  apply scan_places in Hscan as (new & -> & Hplace).
  change (default [] None ++ new) with new in Hi. by rewrite (Hplace i h Hi).
Qed.

End PassFacts.

Section PatternFacts.

(** Every match of [RGX_HERO] is 1025 bytes of the buffer; the name is
    the 13 bytes at offset 138 and ends in a null byte, the equipment
    the 152 bytes at offset 351. *)
Theorem hero_record_layout (buf : list byte) (m : Match) :
  re_search RGX_HERO buf = Some m ->
  m_end m = m_start m + 1025 /\ m_end m <= length buf /\
  group m "name" = Some (take 13 (drop (m_start m + 138) buf)) /\
  group m "artifacts" = Some (take 152 (drop (m_start m + 351) buf)) /\
  buf !! (m_start m + 150) = Some x00.
Proof.
  intros Hs.
  destruct (hero_match_shape _ _ Hs)
    as (Hend & Hlen & nm & arts & Hnm & Harts & -> & -> & Hl & _ & Hlast).
  repeat (split; [done|]).
  rewrite last_lookup, Hl in Hlast. simpl in Hlast.
  rewrite lookup_take_lt, lookup_drop in Hlast by lia.
  rewrite <- Hlast. f_equal. lia.
Qed.

(** [rgx_strip] matches exactly the padded names, and those followed by
    one final newline. *)
Theorem rgx_strip_matches_padded (nm : list byte) :
  truthy (re_match rgx_strip nm) = true <->
  padded_name nm \/ exists nm', nm = nm' ++ [x0a] /\ padded_name nm'.
Proof. apply rgx_strip_spec. Qed.

End PatternFacts.

Section PassSamples.

Lemma detection_pass_returns_witness :
  exists hs, @detect sample_externals (Some "hota") sample_buffer ∅ = Done hs.
Proof. apply (@detection_pass_returns sample_externals). reflexivity. Defined.

Lemma hero_bytes_at_span_witness :
  exists hs h, @pass sample_externals None sample_buffer = Done hs /\ h ∈ hs /\
    span h = (11025, 12050) /\
    (snd (span h) <= length sample_buffer /\
     bytes h = slice sample_buffer (fst (span h)) (snd (span h)) /\
     length (bytes h) = snd (span h) - fst (span h)).
Proof.
  eexists _, _. split; [vm_compute; reflexivity|].
  split; [apply list_elem_of_here|]. split; [reflexivity|].
  eapply (@hero_bytes_at_span sample_externals None sample_buffer).
  - vm_compute. reflexivity.
  - apply list_elem_of_here.
Defined.

Lemma hero_place_is_index_witness :
  exists hs h, @pass sample_externals None sample_buffer = Done hs /\
    hs !! 1 = Some h /\ span h = (12050, 13075) /\ place h = 1.
Proof.
  eexists _, _. split; [vm_compute; reflexivity|].
  split; [reflexivity|]. split; [reflexivity|].
  eapply (@hero_place_is_index sample_externals None sample_buffer).
  - vm_compute. reflexivity.
  - reflexivity.
Defined.

Lemma hero_record_layout_witness :
  exists m,
    re_search RGX_HERO (sample_record (list_byte_of_string "Adela") (one_artifact x07))
      = Some m /\
    m_start m = 0 /\
    (m_end m = m_start m + 1025 /\
     m_end m <= length (sample_record (list_byte_of_string "Adela") (one_artifact x07)) /\
     group m "name" =
       Some (take 13 (drop (m_start m + 138)
                       (sample_record (list_byte_of_string "Adela") (one_artifact x07)))) /\
     group m "artifacts" =
       Some (take 152 (drop (m_start m + 351)
                        (sample_record (list_byte_of_string "Adela") (one_artifact x07)))) /\
     sample_record (list_byte_of_string "Adela") (one_artifact x07) !! (m_start m + 150)
       = Some x00).
Proof.
  eexists. split; [vm_compute; reflexivity|]. split; [reflexivity|].
  apply hero_record_layout. vm_compute. reflexivity.
Defined.

End PassSamples.

(** ** The name of a hero *)

Section HeroName.
Context `{Externals}.

(** Group 1 of [rgx_strip] on a padded name is the name without its
    padding: the split between name bytes and null bytes is unique. *)
Lemma rgx_strip_group_1 body pad ms :
  body <> [] -> pad <> [] ->
  Forall (fun b => name_byte b = true) body -> Forall (fun b => b = x00) pad ->
  re_match rgx_strip (body ++ pad) = Some ms -> group ms "1" = Some body.
Proof.
  intros Hbody Hpad Hball Hpall Hre. unfold re_match in Hre.
  apply try_at_matches in Hre as (s1 & Hm & ->). unfold group. simpl.
  inversion Hm as [| |? ? ? sa ? Hbol H1| | | | | | | | |]; subst.
  inversion Hbol; subst.
  inversion H1 as [| |? ? ? sb ? Hg H2| | | | | | | | |]; subst.
  inversion Hg as [| | | | | | | | |? ? ? sc Hplus| |]; subst.
  inversion H2 as [| |? ? ? sd ? Hnull Heol| | | | | | | | |]; subst.
  apply matches_plus_chr in Hplus as (n & Hn & Hle & Hall & ->).
  apply matches_plus_chr in Hnull as (p & Hp & Hple & Hpall' & ->).
  inversion Heol; subst. simpl in *.
  rewrite Nat.sub_0_r. f_equal.
  assert (Hnull_at : (body ++ pad) !! n = Some x00).
  { destruct (drop n (body ++ pad)) as [|b tl] eqn:Hdrop; [simpl in Hple; lia|].
    destruct p as [|p]; [lia|]. simpl in Hpall'. apply Forall_cons in Hpall' as [Hb _].
    apply lit_charset in Hb. subst b.
    rewrite <- (take_drop n (body ++ pad)) at 1. rewrite Hdrop.
    rewrite lookup_app_r; rewrite length_take; [|lia].
    replace (n - n `min` length (body ++ pad)) with 0 by lia. done. }
  assert (Hlen : n = length body).
  { destruct (Nat.lt_trichotomy n (length body)) as [Hlt|[Heq|Hgt]]; [|done|].
    - rewrite lookup_app_l in Hnull_at by done.
      rewrite Forall_forall in Hball.
      apply list_elem_of_lookup_2, Hball in Hnull_at. done.
    - destruct pad as [|b0 pad']; [done|]. apply Forall_cons in Hpall as [-> _].
      rewrite Forall_forall in Hall.
      assert (Hin : x00 ∈ take n (body ++ x00 :: pad')).
      { apply list_elem_of_lookup. exists (length body).
        rewrite lookup_take_lt by done. rewrite lookup_app_r by done.
        by rewrite Nat.sub_diag. }
      apply Hall in Hin. done. }
  subst n. by rewrite take_app_length.
Qed.

(** An accepted hero is named by its name capture less the padding. *)
Theorem hero_name_strips_padding (m : Match) (body pad : list byte) :
  group m "name" = Some (body ++ pad) ->
  body <> [] -> pad <> [] ->
  Forall (fun b => name_byte b = true) body -> Forall (fun b => b = x00) pad ->
  hero_name m = Done (to_unicode body).
Proof.
  intros Hnm Hbody Hpad Hball Hpall. unfold hero_name. rewrite Hnm.
  assert (Hpn : padded_name (body ++ pad)) by (exists body, pad; done).
  destruct (re_match rgx_strip (body ++ pad)) as [ms|] eqn:Hre.
  - by rewrite (rgx_strip_group_1 body pad ms).
  - assert (Ht : truthy (re_match rgx_strip (body ++ pad)) = true).
    { apply rgx_strip_spec. by left. }
    by rewrite Hre in Ht.
Qed.

End HeroName.

Section HeroNameSamples.

Lemma hero_name_strips_padding_witness :
  exists m,
    re_search RGX_HERO (sample_record (list_byte_of_string "Adela") (one_artifact x07))
      = Some m /\
    @hero_name sample_externals m = Done "Adela".
Proof.
  eexists. split; [vm_compute; reflexivity|].
  apply (@hero_name_strips_padding sample_externals _
           (list_byte_of_string "Adela") (repeat x00 8)).
  - vm_compute. reflexivity.
  - discriminate.
  - discriminate.
  - repeat constructor.
  - repeat constructor.
Defined.

End HeroNameSamples.

(** * The hero list and the pages

    What [HeroPlugin] does with the list [parse] leaves: lookups,
    the pages open on heroes and their history, the index filter. *)

Section Lookup.
Context `{Externals}.

Lemma Hero_eq_refl h : Hero_eq h (OHero h) = true.
Proof. simpl. by rewrite String.eqb_refl, Nat.eqb_refl. Qed.

Lemma Hero_eq_inv h1 h2 :
  Hero_eq h1 (OHero h2) = true -> name h1 = name h2 /\ place h1 = place h2.
Proof.
  simpl. rewrite andb_true_iff, String.eqb_eq, Nat.eqb_eq. done.
Qed.

(** Every list of the results of the passes numbers its heroes by
    place. *)
Lemma detect_all_places buf popped :
  forall results final,
    map_Forall (fun _ l => forall i h, l !! i = Some h -> place h = i) results ->
    detect_all popped buf results = Done final ->
    map_Forall (fun _ l => forall i h, l !! i = Some h -> place h = i) final.
Proof.
  induction popped as [|ver popped IH]; intros results final Hres Hall; simpl in Hall.
  - by injection Hall as <-.
  - destruct (detect ver buf results) as [hs| |] eqn:Hdet; try discriminate.
    simpl in Hall. apply IH in Hall; [done|].
    apply map_Forall_insert_2; [|done].
    unfold detect in Hdet. apply scan_places in Hdet as (new & -> & Hplace).
    intros i h Hi. apply lookup_app_Some in Hi as [Hi|[Hge Hi]].
    + destruct (results !! ver) as [l|] eqn:Hl; [|by destruct i].
      by apply (Hres ver l).
    + rewrite (Hplace _ _ Hi). lia.
Qed.

Lemma parse_places pv dv sf p :
  parse pv dv sf = Done p -> NoDup (place <$> p_heroes p).
Proof.
  unfold parse. intros Hparse.
  destruct (detect_all (reverse (candidates pv dv sf)) (raw sf) ∅) as [final| |] eqn:Hall;
    try discriminate.
  apply detect_all_places in Hall; [|apply map_Forall_empty].
  simpl in Hparse.
  match type of Hparse with context [version_truthy ?v] =>
    destruct (version_truthy v); set (ver := v) in * end;
    injection Hparse as <-; simpl; [|apply NoDup_nil_2].
  rewrite sorted_perm.
  destruct (final !! ver) as [l|] eqn:Hl; [|apply NoDup_nil_2].
  simpl. apply NoDup_alt. intros i j x Hi Hj.
  rewrite list_lookup_fmap in Hi, Hj.
  destruct (l !! i) as [hi|] eqn:Hli; simpl in Hi; [|discriminate].
  destruct (l !! j) as [hj|] eqn:Hlj; simpl in Hj; [|discriminate].
  injection Hi as Hi. injection Hj as Hj.
  rewrite (Hall ver l Hl i hi Hli) in Hi. rewrite (Hall ver l Hl j hj Hlj) in Hj. lia.
Qed.

(** Among heroes of distinct places a hero is found where the hero of
    its name and place stands. *)
Lemma hero_index_lookup heroes i h hero :
  NoDup (place <$> heroes) -> heroes !! i = Some h ->
  name hero = name h -> place hero = place h ->
  hero_index heroes hero = Done i.
Proof.
  intros Hnd Hi Hname Hplace. unfold hero_index.
  destruct (list_find (fun h0 => Hero_eq h0 (OHero hero)) heroes) as [[j x]|] eqn:Hfind.
  - apply list_find_Some in Hfind as (Hj & Heq & Hfirst).
    apply Is_true_true, Hero_eq_inv in Heq as [_ Hpl].
    f_equal. eapply (NoDup_lookup _ j i (place h) Hnd).
    + by rewrite list_lookup_fmap, Hj, <- Hplace, <- Hpl.
    + by rewrite list_lookup_fmap, Hi.
  - apply list_find_None in Hfind. rewrite Forall_forall in Hfind.
    exfalso. apply (Hfind h).
    + by apply list_elem_of_lookup_2 in Hi.
    + apply Is_true_true. simpl. rewrite Hname, Hplace.
      by rewrite String.eqb_refl, Nat.eqb_refl.
Qed.

(** A hero of the list [parse] leaves is found by [==] at its own
    position, whatever has been edited in the copy looked up but its name
    and place; a hero that equals none of the list ends the lookup with
    an exception. *)
Theorem hero_index_finds (pv : option (list string)) (dv : bool) (sf : Savefile)
    (p : Parsed) :
  parse pv dv sf = Done p ->
  (forall i h hero, p_heroes p !! i = Some h ->
     name hero = name h -> place hero = place h ->
     hero_index (p_heroes p) hero = Done i) /\
  (forall hero, hero_index (p_heroes p) hero = Raised <->
     forall h, h ∈ p_heroes p -> Hero_eq h (OHero hero) = false).
Proof.
  intros Hparse. split.
  - intros i h hero Hi Hname Hplace.
    by apply (hero_index_lookup _ i h hero (parse_places _ _ _ _ Hparse)).
  - intros hero. unfold hero_index.
    destruct (list_find (fun h0 => Hero_eq h0 (OHero hero)) (p_heroes p))
      as [[j x]|] eqn:Hfind.
    + apply list_find_Some in Hfind as (Hj & Heq & _). split; [done|].
      intros Hall. apply list_elem_of_lookup_2 in Hj. apply Hall in Hj.
      apply Is_true_true in Heq. congruence.
    + apply list_find_None in Hfind. rewrite Forall_forall in Hfind. split; [|done].
      intros _ h Hin. apply Hfind in Hin.
      by apply negb_prop_intro, Is_true_true, negb_true_iff in Hin.
Qed.

End Lookup.

Section Stable.
Context `{Externals}.

Lemma strongly_sorted_lookup {A : Type} (R : A -> A -> Prop) (l : list A) :
  StronglySorted R l ->
  forall i j x y, l !! i = Some x -> l !! j = Some y -> i < j -> R x y.
Proof.
  induction 1 as [|z l Hs IH Hall]; intros i j x y Hi Hj Hij; [done|].
  destruct j as [|j]; [lia|]. simpl in Hj. destruct i as [|i]; simpl in Hi.
  - injection Hi as <-. rewrite Forall_forall in Hall.
    apply Hall. by apply list_elem_of_lookup_2 in Hj.
  - apply (IH i j); [done|done|lia].
Qed.

Lemma insert_sorted_stable x l :
  StronglySorted (fun a b => name_le a b /\ (name_le b a -> place a < place b)) l ->
  Forall (fun y => place x < place y) l ->
  StronglySorted (fun a b => name_le a b /\ (name_le b a -> place a < place b))
                 (insert_sorted x l).
Proof.
  induction 1 as [|z l Hs IH Hall]; intros Hx; simpl.
  - repeat constructor.
  - apply Forall_cons in Hx as [Hxz Hx].
    destruct (String.leb (name_key x) (name_key z)) eqn:Hle.
    + constructor; [by constructor|]. constructor; [done|].
      rewrite Forall_forall in Hall, Hx |- *. intros y Hy.
      destruct (Hall y Hy) as [Hzy _]. split; [|intros _; by apply Hx].
      unfold name_le in *. by apply (string_leb_trans _ (name_key z)).
    + constructor; [by apply IH|]. apply Forall_forall. intros y Hy.
      apply insert_sorted_elem in Hy as [->|Hy].
      * split.
        -- destruct (name_le_total x z) as [Hxz'|Hzx]; [|done].
           unfold name_le in Hxz'. congruence.
        -- unfold name_le. congruence.
      * rewrite Forall_forall in Hall. by apply Hall.
Qed.

(** Sorting is stable: of two heroes with the same key the one of the
    lower place comes first. *)
Lemma sorted_stable l :
  StronglySorted (fun a b => place a < place b) l ->
  StronglySorted (fun a b => name_le a b /\ (name_le b a -> place a < place b)) (sorted l).
Proof.
  induction 1 as [|x l Hs IH Hall]; simpl; [constructor|].
  apply insert_sorted_stable; [done|].
  apply Forall_forall. intros y Hy. rewrite sorted_perm in Hy.
  rewrite Forall_forall in Hall. by apply Hall.
Qed.

Lemma places_ascend (l : list Hero) :
  forall k, (forall i h, l !! i = Some h -> place h = k + i) ->
    StronglySorted (fun a b => place a < place b) l.
Proof.
  induction l as [|x l IH]; intros k Hpl; constructor.
  - apply (IH (S k)). intros i h Hi. rewrite (Hpl (S i) h Hi). lia.
  - apply Forall_forall. intros y Hy. apply list_elem_of_lookup in Hy as [i Hi].
    rewrite (Hpl 0 x eq_refl), (Hpl (S i) y Hi). lia.
Qed.

(** The heroes of one pass, as [parse] lists them: sorted stably, and
    each the hero of its place in the pass. *)
Lemma parse_of_pass pv dv sf p :
  NoDup (candidates pv dv sf) ->
  Forall (fun v => hero_regex_ok (adapt v RGX_HERO) = true) (candidates pv dv sf) ->
  parse pv dv sf = Done p ->
  exists hs,
    chained START_POS hs /\
    (forall i h, hs !! i = Some h -> place h = i) /\
    (forall h, h ∈ p_heroes p -> hs !! place h = Some h) /\
    StronglySorted (fun a b => name_le a b /\ (name_le b a -> place a < place b))
                   (p_heroes p).
Proof.
  intros Hnd Hok Hparse.
  destruct (parse_selection pv dv sf Hnd Hok)
    as (sel & earlier & later & hs & _ & Hpass & _ & _ & Heq).
  rewrite Heq in Hparse.
  unfold pass, detect in Hpass. rewrite lookup_empty in Hpass.
  pose proof Hpass as Hch. apply scan_chained in Hch as (new & Hnew & Hch & _).
  apply scan_places in Hpass as (new' & Hnew' & Hpl).
  change (default [] None ++ new) with new in Hnew.
  change (default [] None ++ new') with new' in Hnew'. subst new new'.
  assert (Hpl' : forall i h, hs !! i = Some h -> place h = i).
  { intros i h Hi. by rewrite (Hpl i h Hi). }
  destruct (version_truthy sel); injection Hparse as <-; simpl.
  - exists hs. split; [done|]. split; [done|]. split.
    + intros h Hin. rewrite sorted_perm in Hin.
      apply list_elem_of_lookup in Hin as [i Hi]. by rewrite (Hpl' i h Hi).
    + apply sorted_stable. by apply (places_ascend hs 0).
  - exists hs. split; [done|]. split; [done|]. split; [|constructor].
    intros h Hin. by apply elem_of_nil in Hin.
Qed.

(** Heroes whose names are equal but for letter case are listed in the
    order in which they lie in the file. *)
Theorem same_name_file_order (pv : option (list string)) (dv : bool) (sf : Savefile)
    (p : Parsed) (i j : nat) (hi hj : Hero) :
  NoDup (candidates pv dv sf) ->
  Forall (fun v => hero_regex_ok (adapt v RGX_HERO) = true) (candidates pv dv sf) ->
  parse pv dv sf = Done p ->
  p_heroes p !! i = Some hi -> p_heroes p !! j = Some hj -> i < j ->
  lower (name hi) = lower (name hj) ->
  place hi < place hj /\ snd (span hi) <= fst (span hj).
Proof.
  intros Hnd Hok Hparse Hi Hj Hij Hname.
  destruct (parse_of_pass pv dv sf p Hnd Hok Hparse) as (hs & Hch & _ & Hat & Hst).
  assert (Hpl : place hi < place hj).
  { destruct (strongly_sorted_lookup _ _ Hst i j hi hj Hi Hj Hij) as [_ Hlt]. apply Hlt.
    unfold name_le, name_key. rewrite Hname.
    by destruct (String.leb_total (lower (name hj)) (lower (name hj))). }
  split; [done|].
  apply list_elem_of_lookup_2 in Hi, Hj.
  by destruct (chained_lookup _ _ _ _ _ _ Hch Hpl (Hat _ Hi) (Hat _ Hj)) as (_ & ? & _).
Qed.

(** No two heroes of the list [parse] leaves share a byte of the file. *)
Theorem parsed_spans_apart (pv : option (list string)) (dv : bool) (sf : Savefile)
    (p : Parsed) (i j : nat) (hi hj : Hero) :
  NoDup (candidates pv dv sf) ->
  Forall (fun v => hero_regex_ok (adapt v RGX_HERO) = true) (candidates pv dv sf) ->
  parse pv dv sf = Done p ->
  p_heroes p !! i = Some hi -> p_heroes p !! j = Some hj -> i <> j ->
  snd (span hi) <= fst (span hj) \/ snd (span hj) <= fst (span hi).
Proof.
  intros Hnd Hok Hparse Hi Hj Hij.
  destruct (parse_of_pass pv dv sf p Hnd Hok Hparse) as (hs & Hch & Hpl & Hat & Hst).
  assert (Hne : place hi <> place hj).
  { intros Heq. apply Hij.
    eapply (NoDup_lookup _ i j (place hi) (parse_places _ _ _ _ Hparse)).
    - by rewrite list_lookup_fmap, Hi.
    - by rewrite list_lookup_fmap, Hj, Heq. }
  apply list_elem_of_lookup_2 in Hi, Hj.
  destruct (Nat.lt_trichotomy (place hi) (place hj)) as [Hlt|[Heq|Hgt]]; [|done|].
  - left. by destruct (chained_lookup _ _ _ _ _ _ Hch Hlt (Hat _ Hi) (Hat _ Hj)) as (_ & ? & _).
  - right. by destruct (chained_lookup _ _ _ _ _ _ Hch Hgt (Hat _ Hj) (Hat _ Hi)) as (_ & ? & _).
Qed.

End Stable.

Section Action.

(** [action(load=...)] calls [select_hero] with the index of a hero of
    the list only: a number is brought into the range of the list, a name
    gives the first hero so named; no hero is selected for an unknown
    name, for a value that is neither, or from an empty list. *)
Theorem action_selects_listed (heroes : list Hero) (load : object) :
  (forall index, action heroes load = Some index ->
     (0 <= index < Z.of_nat (length heroes))%Z) /\
  (forall value, load = OInt value -> heroes <> [] ->
     exists index, action heroes load = Some index /\
       ((0 <= value < Z.of_nat (length heroes))%Z -> index = value) /\
       ((value < 0)%Z -> index = 0%Z) /\
       ((Z.of_nat (length heroes) <= value)%Z -> index = (Z.of_nat (length heroes) - 1)%Z)) /\
  (forall s, load = OStr s ->
     match action heroes load with
     | Some index =>
         exists x, heroes !! Z.to_nat index = Some x /\ name x = s /\
           forall j y, heroes !! j = Some y -> j < Z.to_nat index -> name y <> s
     | None => forall x, x ∈ heroes -> name x <> s
     end) /\
  (forall h, load = OHero h \/ load = ONone -> action heroes load = None).
Proof.
  split; [|split; [|split]].
  - intros index. unfold action.
    destruct load as [h| |s|value]; try discriminate.
    + destruct (list_find _ heroes) as [[i x]|] eqn:Hfind; simpl; [|discriminate].
      apply list_find_Some in Hfind as (_ & Hx & _). by destruct Hx.
    + destruct (list_find _ heroes) as [[i x]|] eqn:Hfind; simpl.
      2:{ discriminate. }
      apply list_find_Some in Hfind as (Hi & _ & _). apply lookup_lt_Some in Hi.
      destruct (0 <=? Z.of_nat i)%Z eqn:Hle; simpl; [|discriminate].
      case_bool_decide; simpl; [discriminate|]. intros [= <-]. lia.
    + destruct heroes as [|h0 heroes']; simpl length.
      * rewrite bool_decide_eq_true_2 by done. rewrite andb_false_r. discriminate.
      * case_bool_decide; [done|].
        destruct (0 <=? _)%Z eqn:Hle; simpl; [|discriminate]. intros [= <-]. lia.
  - intros value -> Hne. unfold action.
    rewrite bool_decide_eq_false_2 by done.
    assert (Hlen : 0 < length heroes) by (destruct heroes; [done|simpl; lia]).
    assert (Hle : (0 <=? Z.max 0 (Z.min value (Z.of_nat (length heroes) - 1)))%Z = true)
      by (apply Z.leb_le; lia).
    rewrite Hle. simpl. eexists. split; [done|]. lia.
  - intros s ->. unfold action.
    destruct (list_find _ heroes) as [[i x]|] eqn:Hfind.
    + apply list_find_Some in Hfind as (Hi & Hx & Hfirst).
      assert (Hle : (0 <=? Z.of_nat i)%Z = true) by (apply Z.leb_le; lia).
      rewrite Hle. simpl.
      rewrite bool_decide_eq_false_2 by (intros ->; by rewrite lookup_nil in Hi).
      simpl. rewrite Nat2Z.id. exists x. split; [done|].
      apply Is_true_true in Hx. simpl in Hx. apply String.eqb_eq in Hx. split; [done|].
      intros j y Hj Hlt Hname. apply (Hfirst j y Hj Hlt). apply Is_true_true. simpl.
      by apply String.eqb_eq.
    + simpl. apply list_find_None in Hfind. rewrite Forall_forall in Hfind.
      intros x Hin Hname. apply (Hfind x Hin). apply Is_true_true. simpl.
      by apply String.eqb_eq.
  - intros h [-> | ->]; [|done]. unfold action.
    destruct (list_find _ heroes) as [[i x]|] eqn:Hfind; [|done].
    apply list_find_Some in Hfind as (_ & Hx & _). by destruct Hx.
Qed.

End Action.

Section Reconcile.

(** The search of [reparse] for a hero in the new list: an equal one
    first, else one of the same name. *)
Lemma reconcile_search (heroes : list Hero) (hero1 : Hero) :
  exists r,
    match list_find (fun x => Hero_eq x (OHero hero1)) heroes with
    | Some (i, _) => @Done (option nat) (Some i)
    | None => Done (fst <$> list_find (fun x => String.eqb (name x) (name hero1)) heroes)
    end = Done r /\
    (forall i, r = Some i ->
       exists hero2, heroes !! i = Some hero2 /\ name hero2 = name hero1) /\
    (forall x, x ∈ heroes -> Hero_eq x (OHero hero1) = true ->
       exists i hero2, r = Some i /\ heroes !! i = Some hero2 /\
         Hero_eq hero2 (OHero hero1) = true) /\
    (r = None <-> forall x, x ∈ heroes -> name x <> name hero1).
Proof.
  destruct (list_find (fun x => Hero_eq x (OHero hero1)) heroes) as [[i x]|] eqn:Hfind.
  - apply list_find_Some in Hfind as (Hi & Hx & _). apply Is_true_true in Hx.
    pose proof Hx as Hx'. simpl in Hx'. apply andb_true_iff in Hx' as [Hn _].
    apply String.eqb_eq in Hn.
    exists (Some i). split; [done|]. split; [|split].
    + intros ? [= <-]. eauto.
    + intros _ _ _. eauto.
    + split; [done|]. intros Hnone. exfalso.
      apply (Hnone x); [by apply list_elem_of_lookup_2 in Hi|done].
  - apply list_find_None in Hfind. rewrite Forall_forall in Hfind.
    eexists. split; [done|]. split; [|split].
    + intros i Hr. apply fmap_Some in Hr as ([j x] & Hfind2 & ->). simpl.
      apply list_find_Some in Hfind2 as (Hj & Hx & _). apply Is_true_true in Hx.
      apply String.eqb_eq in Hx. eauto.
    + intros x Hin Heq. exfalso. apply (Hfind x Hin). by apply Is_true_true.
    + rewrite fmap_None. split.
      * intros Hnone x Hin Hname. apply list_find_None in Hnone.
        rewrite Forall_forall in Hnone. apply (Hnone x Hin). apply Is_true_true.
        by apply String.eqb_eq.
      * intros Hnone. apply list_find_None. apply Forall_forall. intros x Hin Hx.
        apply (Hnone x Hin). apply Is_true_true in Hx. by apply String.eqb_eq.
Qed.

Lemma reconcile_spec (heroes0 heroes : list Hero) (index : nat) (hero1 : Hero) :
  heroes0 !! index = Some hero1 ->
  exists r, reconcile heroes0 heroes index = Done r /\
    (forall i, r = Some i ->
       exists hero2, heroes !! i = Some hero2 /\ name hero2 = name hero1) /\
    (forall x, x ∈ heroes -> Hero_eq x (OHero hero1) = true ->
       exists i hero2, r = Some i /\ heroes !! i = Some hero2 /\
         Hero_eq hero2 (OHero hero1) = true) /\
    (r = None <-> forall x, x ∈ heroes -> name x <> name hero1).
Proof.
  intros H1. unfold reconcile. rewrite H1.
  destruct (heroes !! index) as [hero2|] eqn:H2; [|apply reconcile_search].
  destruct (Hero_eq hero1 (OHero hero2)) eqn:Heq; cbn [negb]; [|apply reconcile_search].
  exists (Some index). split; [done|].
  simpl in Heq. apply andb_true_iff in Heq as [Hn Hp].
  apply String.eqb_eq in Hn. apply Nat.eqb_eq in Hp.
  split; [|split].
  - intros i [= <-]. eauto.
  - intros _ _ _. exists index, hero2. split; [done|]. split; [done|].
    simpl. by rewrite <- Hn, <- Hp, String.eqb_refl, Nat.eqb_refl.
  - split; [done|]. intros Hnone. exfalso.
    apply (Hnone hero2); [by apply list_elem_of_lookup_2 in H2|done].
Qed.

(** The hero [reparse] reconciles a page with is a hero of the new list
    of the same name as the page's old hero; it equals the old hero (same
    name and place) whenever some hero of the new list does; the page is
    dropped only when the new list has no hero of that name. *)
Theorem reconcile_by_name (heroes0 heroes : list Hero) (index : nat) (hero1 : Hero) :
  heroes0 !! index = Some hero1 ->
  exists r, reconcile heroes0 heroes index = Done r /\
    (forall i, r = Some i ->
       exists hero2, heroes !! i = Some hero2 /\ name hero2 = name hero1) /\
    (forall x, x ∈ heroes -> Hero_eq x (OHero hero1) = true ->
       exists i hero2, r = Some i /\ heroes !! i = Some hero2 /\
         Hero_eq hero2 (OHero hero1) = true) /\
    (r = None <-> forall x, x ∈ heroes -> name x <> name hero1).
Proof. apply reconcile_spec. Qed.

End Reconcile.

Section History.

Lemma no_repeat_snoc visited x :
  no_repeat (visited ++ [x]) <-> no_repeat visited /\ last visited <> Some x.
Proof.
  induction visited as [|v [|w visited] IH]; simpl in *.
  - split; [done|done].
  - split; [intros [Hne _]; split; [done|congruence]|].
    intros [_ Hlast]. split; [congruence|done].
  - rewrite IH. tauto.
Qed.

Lemma no_repeat_cons_inv v visited : no_repeat (v :: visited) -> no_repeat visited.
Proof. destruct visited; simpl; tauto. Qed.

Lemma no_repeat_sublist_filter (P : option nat -> Prop) `{!forall x, Decision (P x)}
    visited : sublist (filter P visited) visited.
Proof.
  induction visited as [|v visited IH]; [constructor|].
  rewrite filter_cons. destruct (decide (P v)); by constructor.
Qed.

(** What [unrepeat] keeps after an entry [prev]. *)
Lemma unrepeat_after_spec visited :
  forall prev,
    no_repeat (prev :: unrepeat_after prev visited) /\
    last (prev :: unrepeat_after prev visited) = last (prev :: visited) /\
    sublist (unrepeat_after prev visited) visited /\
    (forall x, x ∈ prev :: visited -> x ∈ prev :: unrepeat_after prev visited).
Proof.
  induction visited as [|v visited IH]; intros prev; simpl.
  - repeat split; [constructor|done].
  - destruct (IH v) as (Hno & Hlast & Hsub & Hin).
    destruct (decide (v = prev)) as [->|Hne]; simpl.
    + split; [done|]. split; [|split].
      * rewrite Hlast. by destruct visited.
      * by constructor.
      * intros x Hx. apply Hin. apply elem_of_cons in Hx as [->|Hx]; [left|done].
    + split; [split; [congruence|done]|]. split; [|split].
      * change (last (v :: unrepeat_after v visited) = last (v :: visited)). done.
      * by constructor.
      * intros x Hx. apply elem_of_cons in Hx as [->|Hx]; [left|]. right. by apply Hin.
Qed.

Lemma unrepeat_spec visited :
  no_repeat (unrepeat visited) /\
  last (unrepeat visited) = last visited /\
  sublist (unrepeat visited) visited /\
  (forall x, x ∈ unrepeat visited <-> x ∈ visited).
Proof.
  destruct visited as [|v visited]; simpl.
  - repeat split; try done; constructor.
  - destruct (unrepeat_after_spec visited v) as (Hno & Hlast & Hsub & Hin).
    split; [done|]. split; [done|]. split; [by constructor|].
    intros x. split; [|apply Hin].
    intros Hx. eapply elem_of_sublist; [exact Hx|]. by constructor.
Qed.

(** Selecting a page leaves it the last of the history, once; a history
    without repeats stays so. *)
Theorem visit_no_repeat (index : option nat) (visited : list (option nat)) :
  no_repeat visited ->
  no_repeat (visit index visited) /\
  last (visit index visited) = Some index /\
  visit index (visit index visited) = visit index visited /\
  (forall x, x ∈ visit index visited <-> x = index \/ x ∈ visited).
Proof.
  intros Hno.
  assert (Hlast' : last (visit index visited) = Some index).
  { unfold visit. destruct (decide (last visited = Some index)); [done|apply last_snoc]. }
  split; [|split; [done|split]].
  - unfold visit. destruct (decide (last visited = Some index)); [done|].
    by apply no_repeat_snoc.
  - unfold visit at 1. by rewrite decide_True.
  - intros x. unfold visit. destruct (decide (last visited = Some index)) as [Hlast|Hlast].
    + split; [by right|]. intros [->|Hx]; [|done].
      apply last_Some in Hlast as [l' ->]. apply elem_of_app. right. left.
    + rewrite elem_of_app, list_elem_of_singleton. tauto.
Qed.

(** Closing a hero page forgets its hero in the history, which keeps the
    order of the other entries and repeats none; when the page was the
    current one, the page selected next is the last one left in the
    history, the index page when none is left. *)
Theorem on_close_page_forgets (page page0 : nat) (pages : gmap nat nat)
    (pages_visited : list (option nat)) (index : nat) :
  pages !! page = Some index ->
  exists visited nav,
    on_close_page false page page0 pages pages_visited
      = (delete page pages, visited, nav) /\
    (Some index ∉ visited) /\
    (forall x, x <> Some index -> (x ∈ visited <-> x ∈ pages_visited)) /\
    sublist visited pages_visited /\
    no_repeat visited /\
    last visited = last (filter (fun x => x <> Some index) pages_visited) /\
    (page0 = page ->
       match last visited with
       | Some (Some i) => nav = SelectHero i /\ i <> index
       | _ => nav = SelectIndex
       end) /\
    (page0 <> page -> nav = Nothing).
Proof.
  intros Hpage. unfold on_close_page. rewrite Hpage.
  set (kept := filter (fun x => x <> Some index) pages_visited).
  destruct (unrepeat_spec kept) as (Hno & Hlast & Hsub & Hin).
  eexists _, _. split; [reflexivity|].
  assert (Hnot : Some index ∉ unrepeat kept).
  { intros Hx. apply Hin in Hx. subst kept. apply list_elem_of_filter in Hx as [Hx _]. done. }
  split; [done|]. split; [|split; [|split; [done|split; [done|split]]]].
  - intros x Hx. rewrite Hin. subst kept. rewrite list_elem_of_filter. tauto.
  - etrans; [exact Hsub|]. apply no_repeat_sublist_filter.
  - intros ->. rewrite Nat.eqb_refl.
    destruct (last (unrepeat kept)) as [[i|]|] eqn:Hl; [|done|done].
    split; [done|]. intros ->. apply Hnot. apply last_Some in Hl as [l' ->].
    apply elem_of_app. right. left.
  - intros Hne. apply Nat.eqb_neq in Hne. by rewrite Hne.
Qed.

Lemma last_filter_keeps (P : option nat -> Prop) `{!forall x, Decision (P x)}
    visited x :
  last visited = Some x -> P x -> last (filter P visited) = Some x.
Proof.
  intros Hlast Hx. apply last_Some in Hlast as [l' ->].
  rewrite filter_app, filter_cons, filter_nil, decide_True by done. apply last_snoc.
Qed.

(** The loop of [reparse]: what it keeps of the pages and the history,
    and which hero it picks. *)
Lemma reparse_pages_spec heroes0 heroes hero0 pages0 :
  forall visited0 hero,
    reparse_pages heroes0 heroes hero0 pages0 visited0 hero = Raised \/
    exists pages visited hero',
      reparse_pages heroes0 heroes hero0 pages0 visited0 hero
        = Done (pages, visited, hero') /\
      sublist pages pages0 /\
      sublist visited visited0 /\
      (forall index, index ∈ pages ->
         exists h1 x, heroes0 !! index = Some h1 /\ x ∈ heroes /\ name x = name h1) /\
      (forall index, index ∈ pages0 -> index ∉ pages -> Some index ∉ visited) /\
      (last visited0 = Some None -> last visited = Some None) /\
      (hero0 = None -> hero' = hero) /\
      (forall i, hero' = Some i ->
         hero = Some i \/
         exists h0 x, hero0 = Some h0 /\ heroes !! i = Some x /\ name x = name h0).
Proof.
  induction pages0 as [|index pages0 IH]; intros visited0 hero; simpl.
  - right. exists [], visited0, hero. split; [done|].
    split; [constructor|]. split; [done|]. split.
    { intros index Hin. by apply elem_of_nil in Hin. }
    split.
    { intros index Hin. by apply elem_of_nil in Hin. }
    split; [done|]. split; [done|]. intros i ->. by left.
  - destruct (heroes0 !! index) as [hero1|] eqn:H1.
    2:{ left. unfold reconcile. by rewrite H1. }
    destruct (reconcile_spec heroes0 heroes index hero1 H1)
      as (r & Hrec & Hsome & _ & Hnone).
    rewrite Hrec. simpl.
    destruct r as [i2|].
    + destruct (Hsome i2 eq_refl) as (hero2 & H2 & Hname).
      match goal with |- context [reparse_pages _ _ _ _ visited0 ?h] => set (hero' := h) end.
      destruct (IH visited0 hero') as [->|(pages & visited & hero'' & -> & Hp & Hv & Hk & Hd & Hl & H0 & Hh)];
        [by left|].
      right. exists (index :: pages), visited, hero''. simpl. split; [done|].
      split; [by constructor|]. split; [done|]. split; [|split; [|split; [done|split]]].
      * intros idx Hin. apply elem_of_cons in Hin as [->|Hin]; [|by apply Hk].
        exists hero1, hero2. split; [done|]. split; [|done].
        by apply list_elem_of_lookup_2 in H2.
      * intros idx Hin Hnot. apply not_elem_of_cons in Hnot as [Hne Hnot].
        apply elem_of_cons in Hin as [->|Hin]; [done|]. by apply Hd.
      * intros ->. rewrite (H0 eq_refl). subst hero'. by destruct hero.
      * intros i Hi. destruct (Hh i Hi) as [Hi'|Hi']; [|by right].
        subst hero'. destruct hero as [j|]; [by left|].
        destruct hero0 as [h0|]; [|done].
        case_bool_decide as Hn; [|done]. injection Hi' as <-. right.
        rewrite H2 in Hn. simpl in Hn. injection Hn as Hn. eauto.
    + destruct (IH (filter (fun i => i <> Some index) visited0) hero)
        as [->|(pages & visited & hero'' & -> & Hp & Hv & Hk & Hd & Hl & H0 & Hh)];
        [by left|].
      right. exists pages, visited, hero''. split; [done|].
      split; [by constructor|]. split.
      { etrans; [exact Hv|]. apply no_repeat_sublist_filter. }
      split; [done|]. split; [|split; [|done]].
      * intros idx Hin Hnot Hvis. destruct (decide (idx = index)) as [->|Hne].
        -- eapply elem_of_sublist in Hvis; [|exact Hv].
           apply list_elem_of_filter in Hvis as [Hvis _]. done.
        -- apply elem_of_cons in Hin as [->|Hin]; [done|]. by apply (Hd idx).
      * intros Hlast. apply Hl. by apply last_filter_keeps.
Qed.

(** [reparse] ends with an exception whenever no hero is current and the
    index page is the last of the history: the hero to fall back on is
    looked up at index [None]. *)
Theorem reparse_index_page_last (heroes0 heroes : list Hero) (pages0 : list nat)
    (visited0 : list (option nat)) :
  last visited0 = Some None ->
  reparse heroes0 heroes None pages0 visited0 = Raised.
Proof.
  intros Hlast. unfold reparse.
  destruct (reparse_pages_spec heroes0 heroes None pages0 visited0 None)
    as [->|(pages & visited & hero' & -> & _ & _ & _ & _ & Hl & H0 & _)]; [done|].
  simpl. rewrite (H0 eq_refl).
  destruct (unrepeat_spec visited) as (_ & -> & _). by rewrite (Hl Hlast).
Qed.

(** When [reparse] returns: the pages kept are those whose hero's name is
    still found, a page dropped is gone from the history, which repeats
    no entry; the hero selected is one of the new list: the one named as
    the hero that was current, else the last of the history; none is
    selected only with an empty history. *)
Theorem reparse_selects (heroes0 heroes : list Hero) (hero0 : option Hero)
    (pages0 pages : list nat) (visited0 visited : list (option nat)) (sel : option nat) :
  reparse heroes0 heroes hero0 pages0 visited0 = Done (pages, visited, sel) ->
  sublist pages pages0 /\
  (forall index, index ∈ pages ->
     exists h1 x, heroes0 !! index = Some h1 /\ x ∈ heroes /\ name x = name h1) /\
  (forall index, index ∈ pages0 -> index ∉ pages -> Some index ∉ visited) /\
  sublist visited visited0 /\
  no_repeat visited /\
  (forall i, sel = Some i ->
     i < length heroes /\
     ((exists h0 x, hero0 = Some h0 /\ heroes !! i = Some x /\ name x = name h0) \/
      last visited = Some (Some i))) /\
  (sel = None -> visited = []).
Proof.
  unfold reparse. intros Hre.
  destruct (reparse_pages_spec heroes0 heroes hero0 pages0 visited0 None)
    as [Hr|(pages' & visited' & hero' & Hr & Hp & Hv & Hk & Hd & _ & _ & Hh)];
    rewrite Hr in Hre; [discriminate|].
  simpl in Hre.
  destruct (unrepeat_spec visited') as (Hno & Hlast & Hsub & Hin).
  assert (Hfrom : forall i, hero' = Some i ->
            exists h0 x, hero0 = Some h0 /\ heroes !! i = Some x /\ name x = name h0).
  { intros i Hi. by destruct (Hh i Hi). }
  assert (Hshape : pages = pages' /\ visited = unrepeat visited' /\
            (forall i, sel = Some i ->
               i < length heroes /\
               ((exists h0 x, hero0 = Some h0 /\ heroes !! i = Some x /\ name x = name h0) \/
                last (unrepeat visited') = Some (Some i))) /\
            (sel = None -> unrepeat visited' = [])).
  { destruct hero' as [i|].
    - simpl in Hre. injection Hre as <- <- <-.
      split; [done|split; [done|split; [|done]]].
      intros ? [= <-]. destruct (Hfrom i eq_refl) as (h0 & x & ? & Hx & ?).
      split; [by apply lookup_lt_Some in Hx|]. left. eauto.
    - destruct (last (unrepeat visited')) as [[i|]|] eqn:Hl; simpl in Hre.
      + destruct (i <? length heroes) eqn:Hlt; simpl in Hre; [|discriminate].
        injection Hre as <- <- <-. split; [done|split; [done|split; [|done]]].
        intros ? [= <-]. apply Nat.ltb_lt in Hlt. split; [done|]. by right.
      + discriminate.
      + injection Hre as <- <- <-. split; [done|split; [done|split; [done|]]].
        intros _. by apply last_None in Hl. }
  destruct Hshape as (-> & -> & Hsel & Hnone).
  split; [done|]. split; [done|]. split.
  { intros index Hidx Hnot Hvis. apply Hin in Hvis. by apply (Hd index). }
  split; [by etrans|]. done.
Qed.

End History.

(** ** Edge cases of [parse] and [ensure_basestats] *)

Section ParseEdges.
Context `{Externals}.

(** Without version detection, or with no version plugin, [parse] tries
    the savefile's own version only and never changes it or the buffer;
    under a version that is set the heroes are those of its pass, sorted;
    under no version (None or the empty string) the list is empty and
    "No heroes identified" is reported, whatever the pattern finds. *)
Theorem parse_keeps_version (pv : option (list string)) (dv : bool) (sf : Savefile) :
  dv = false \/ default [] pv = [] ->
  hero_regex_ok (adapt (version sf) RGX_HERO) = true ->
  exists p, parse pv dv sf = Done p /\
    p_savefile p = sf /\
    (version_truthy (version sf) = true ->
       p_status p = None /\
       exists hs, pass (version sf) (raw sf) = Done hs /\ p_heroes p = sorted hs) /\
    (version_truthy (version sf) = false ->
       p_heroes p = [] /\ p_status p = Some (no_heroes_status sf)).
Proof.
  intros Hdv Hok.
  assert (Hc : candidates pv dv sf = [version sf]).
  { unfold candidates. destruct Hdv as [->|Hpv]; [done|].
    destruct dv; [|done]. destruct pv as [names|]; [|done].
    simpl in Hpv. by subst names. }
  destruct (parse_selection pv dv sf) as (sel & earlier & later & hs & Hsplit & Hpass & _ & _ & ->).
  { rewrite Hc. apply NoDup_singleton. }
  { rewrite Hc. by constructor. }
  rewrite Hc in Hsplit.
  assert (Hsel : sel = version sf).
  { destruct earlier as [|e earlier]; simpl in Hsplit.
    - by injection Hsplit as <-.
    - injection Hsplit as _ Hnil. by destruct earlier. }
  subst sel. eexists. split; [reflexivity|].
  destruct (version_truthy (version sf)); simpl.
  - split; [by destruct sf|]. split; [|done]. intros _. split; [done|]. eauto.
  - split; [by destruct sf|]. split; [done|]. done.
Qed.

(** A buffer shorter than 11025 bytes holds no hero: a hero record is
    1025 bytes and the scan starts at offset 10000. *)
Theorem short_buffer_no_heroes (ver : option string) (buf : list byte) :
  adapt ver RGX_HERO = RGX_HERO ->
  length buf < START_POS + 1025 ->
  pass ver buf = Done [] /\ hero_count ver buf = 0.
Proof.
  intros Had Hlen.
  assert (Hpass : pass ver buf = Done []).
  { unfold pass, detect, scan_fuel. rewrite scan_step, Had.
    destruct (re_search RGX_HERO (drop START_POS buf)) as [m|] eqn:Hs; [|done].
    apply hero_match_shape in Hs as (Hend & Hle & _).
    rewrite length_drop in Hle. lia. }
  split; [done|]. unfold hero_count. by rewrite Hpass.
Qed.

End ParseEdges.

Section BasestatsEdges.
Context `{Metadata}.

Lemma store_base_missing st kvs :
  forall base k v,
    (k, v) ∈ kvs -> st ≫= (fun m => m !! k) = None ->
    store_base st kvs base = Raised.
Proof.
  induction kvs as [|[k0 v0] kvs IH]; intros base k v Hin Hk.
  - by apply elem_of_nil in Hin.
  - simpl. destruct st as [m|]; [|done]. simpl in Hk.
    destruct (m !! k0) as [x|] eqn:Hk0; [|done].
    apply elem_of_cons in Hin as [[= <- <-]|Hin]; [congruence|].
    by apply (IH _ k v).
Qed.

(** [ensure_basestats] changes nothing but the cache, and a second call
    changes nothing at all. *)
Theorem ensure_basestats_settles (self self' : Hero) (clear : bool) :
  ensure_basestats self clear = Done self' ->
  set_basestats (basestats self) self' = self /\
  ensure_basestats self' false = Done self'.
Proof.
  unfold ensure_basestats at 1.
  set (self1 := if clear then set_basestats ∅ self else self).
  assert (Hframe : set_basestats (basestats self) self1 = self).
  { subst self1. destruct clear; by destruct self. }
  case_bool_decide as Hb; simpl.
  - destruct (artifacts self1) as [arts|] eqn:Harts.
    + destruct (store_base _ _ _) as [b| |] eqn:Hst; simpl; try discriminate.
      intros [= <-]. split.
      * rewrite <- Hframe at 2. by destruct self1.
      * unfold ensure_basestats. simpl. rewrite Harts.
        case_bool_decide as Hb'; simpl; [|done].
        subst b. rewrite Hb in Hst. by rewrite Hst.
    + intros [= <-]. split; [done|]. unfold ensure_basestats.
      rewrite bool_decide_eq_true_2 by done. simpl. by rewrite Harts.
  - intros [= <-]. split; [done|]. unfold ensure_basestats.
    by rewrite bool_decide_eq_false_2.
Qed.

(** With worn items read and an empty cache, [ensure_basestats] ends with
    an exception when the hero has no [stats], or no stat for one of the
    primary attributes. *)
Theorem ensure_basestats_needs_stats (self : Hero) (clear : bool)
    (arts : list (string * option string)) (k : string) :
  artifacts self = Some arts ->
  clear = true \/ basestats self = ∅ ->
  (forall a bonus, artifact_stats !! a = Some bonus ->
     length PrimaryAttributes <= length bonus) ->
  k ∈ PrimaryAttributes ->
  stats self ≫= (fun m => m !! k) = None ->
  ensure_basestats self clear = Raised.
Proof.
  intros Harts Hclear Hwf Hk Hstat. unfold ensure_basestats.
  set (self1 := if clear then set_basestats ∅ self else self).
  assert (Hb1 : basestats self1 = ∅).
  { subst self1. destruct clear; [done|]. by destruct Hclear. }
  assert (Ha1 : artifacts self1 = Some arts) by (subst self1; by destruct clear).
  assert (Hs1 : stats self1 = stats self) by (subst self1; by destruct clear).
  rewrite Hb1, Ha1, Hs1. rewrite bool_decide_eq_true_2 by done. simpl.
  apply list_elem_of_lookup in Hk as [i Hi].
  destruct (bonus_sum_lookup (snd <$> arts) i Hwf) as [Hd _].
  { by apply lookup_lt_Some in Hi. }
  rewrite (store_base_missing _ _ _ k (total_bonus i (snd <$> arts))); [done| |done].
  apply list_elem_of_lookup. exists i. by rewrite lookup_zip_with, Hi, Hd.
Qed.

End BasestatsEdges.

(** ** The heroes index and the gzip trailer *)

Section IndexFilter.

Lemma prefix_spec w : forall t, String.prefix w t = true <-> exists b, t = String.append w b.
Proof.
  induction w as [|c w IH]; intros [|c' t]; simpl.
  - split; [by exists EmptyString|done].
  - split; [intros _; eexists; reflexivity|done].
  - split; [done|by intros [b Hb]].
  - destruct (ascii_dec c c') as [->|Hne].
    + rewrite IH. split; intros [b Hb]; exists b.
      * by rewrite Hb.
      * by injection Hb.
    + split; [done|]. intros [b Hb]. by injection Hb.
Qed.

Lemma contains_cons c t w :
  contains (String c t) w = String.prefix w (String c t) || contains t w.
Proof. reflexivity. Qed.

(** [contains t w] tells whether [w] occurs in [t]. *)
Lemma contains_spec t w :
  contains t w = true <-> exists a b, t = String.append a (String.append w b).
Proof.
  induction t as [|c t IH].
  - change (contains "" w) with (String.prefix w "" || false).
    rewrite orb_false_r, prefix_spec. split.
    + intros [b Hb]. by exists EmptyString, b.
    + intros (a & b & Hab). destruct a; [by exists b|done].
  - rewrite contains_cons, orb_true_iff, prefix_spec, IH. split.
    + intros [[b Hb]|(a & b & Hab)].
      * by exists EmptyString, b.
      * exists (String c a), b. by rewrite Hab.
    + intros (a & b & Hab). destruct a as [|c' a].
      * left. eauto.
      * right. injection Hab as _ Hab. eauto.
Qed.

Lemma index_matches_from_spec words heroes :
  forall i texts,
    (forall j h, (j, h) ∈ index_matches_from i heroes texts words <->
       i <= j /\ heroes !! (j - i) = Some h /\
       exists t, texts !! (j - i) = Some t /\ forallb (contains t) words = true) /\
    StronglySorted lt (fst <$> index_matches_from i heroes texts words).
Proof.
  induction heroes as [|h0 heroes IH]; intros i texts.
  - simpl. split; [|constructor]. intros j h. split.
    + intros Hin. by apply elem_of_nil in Hin.
    + intros (_ & Hj & _). by rewrite lookup_nil in Hj.
  - destruct texts as [|t0 texts]; simpl.
    { split; [|constructor]. intros j h. split.
      - intros Hin. by apply elem_of_nil in Hin.
      - intros (_ & _ & t & Ht & _). by rewrite lookup_nil in Ht. }
    destruct (IH (S i) texts) as [Hin Hsorted].
    assert (Hrest : forall j h,
              (j, h) ∈ index_matches_from (S i) heroes texts words <->
              i < j /\ (h0 :: heroes) !! (j - i) = Some h /\
              exists t, (t0 :: texts) !! (j - i) = Some t /\
                forallb (contains t) words = true).
    { intros j h. rewrite Hin. split.
      - intros (Hle & Hh & t & Ht & Hall). split; [lia|].
        replace (j - i) with (S (j - S i)) by lia. simpl. eauto.
      - intros (Hlt & Hh & t & Ht & Hall). split; [lia|].
        replace (j - i) with (S (j - S i)) in Hh, Ht by lia. simpl in Hh, Ht. eauto. }
    split.
    + intros j h. rewrite elem_of_app, Hrest.
      destruct (forallb (contains t0) words) eqn:Hall0.
      * rewrite list_elem_of_singleton. split.
        -- intros [[= -> ->]|(Hlt & Hh & Ht)].
           ++ rewrite Nat.sub_diag. simpl. split; [lia|]. split; [done|]. eauto.
           ++ split; [lia|]. done.
        -- intros (Hle & Hh & t & Ht & Hall).
           destruct (decide (j = i)) as [->|Hne].
           ++ left. rewrite Nat.sub_diag in Hh. simpl in Hh. congruence.
           ++ right. split; [lia|]. eauto.
      * split.
        -- intros [Hnil|(Hlt & Hh & Ht)]; [by apply elem_of_nil in Hnil|].
           split; [lia|]. done.
        -- intros (Hle & Hh & t & Ht & Hall).
           destruct (decide (j = i)) as [->|Hne].
           ++ rewrite Nat.sub_diag in Ht. simpl in Ht. congruence.
           ++ right. split; [lia|]. eauto.
    + assert (Hlater : Forall (lt i) (fst <$> index_matches_from (S i) heroes texts words)).
      { apply Forall_forall. intros j Hj. apply list_elem_of_fmap in Hj as ([j' h] & -> & Hj).
        apply Hrest in Hj. simpl. lia. }
      destruct (forallb (contains t0) words); simpl; [by constructor|done].
Qed.

Lemma seq_sorted n : forall i, StronglySorted lt (seq i n).
Proof.
  induction n as [|n IH]; intros i; simpl; constructor; [apply IH|].
  apply Forall_forall. intros j Hj. apply elem_of_seq in Hj. lia.
Qed.

(** The links of the heroes index: the [k]-th link is the position, in
    the whole list, of the [k]-th hero shown; links ascend; without a
    search text every hero is shown, with one exactly the heroes whose
    text holds every word. *)
Theorem index_links_point (heroes : list Hero) (toggles : gmap string bool)
    (herotexts : list (list (string * string))) (words : option (list string))
    (links : list nat) (visible : list Hero) :
  index_visible heroes toggles herotexts words = Done (links, visible) ->
  length links = length visible /\
  (forall k i, links !! k = Some i ->
     is_Some (heroes !! i) /\ visible !! k = heroes !! i) /\
  StronglySorted lt links /\
  (words = None -> visible = heroes) /\
  (forall ws, words = Some ws ->
     exists texts, index_texts toggles herotexts = Done texts /\
       forall i, i ∈ links <->
         exists h t, heroes !! i = Some h /\ texts !! i = Some t /\
           Forall (fun w => exists a b, t = String.append a (String.append w b)) ws).
Proof.
  unfold index_visible. destruct words as [ws|].
  - destruct (index_texts toggles herotexts) as [texts| |] eqn:Htexts; try discriminate.
    simpl. intros [= <- <-].
    destruct (index_matches_from_spec ws heroes 0 texts) as [Hin Hsorted].
    set (matches := index_matches_from 0 heroes texts ws) in *.
    split; [by rewrite !length_fmap|]. split; [|split; [done|split; [done|]]].
    + intros k i Hk. apply list_lookup_fmap_Some_1 in Hk as ([j h] & -> & Hm).
      rewrite (list_lookup_fmap_Some_2 snd _ _ _ Hm).
      apply list_elem_of_lookup_2, Hin in Hm as (_ & Hh & _).
      rewrite Nat.sub_0_r in Hh. simpl. rewrite Hh. eauto.
    + intros ws' [= <-]. exists texts. split; [done|]. intros i. split.
      * intros Hi. apply list_elem_of_fmap in Hi as ([j h] & -> & Hm).
        apply Hin in Hm as (_ & Hh & t & Ht & Hall). simpl.
        rewrite Nat.sub_0_r in Hh, Ht. exists h, t. split; [done|]. split; [done|].
        apply Forall_forall. intros w Hw. apply contains_spec.
        rewrite forallb_forall in Hall. apply Hall. by apply list_elem_of_In.
      * intros (h & t & Hh & Ht & Hall). apply list_elem_of_fmap. exists (i, h).
        split; [done|]. apply Hin. rewrite Nat.sub_0_r. split; [lia|]. split; [done|].
        exists t. split; [done|]. apply forallb_forall. intros w Hw.
        apply contains_spec. rewrite Forall_forall in Hall. apply Hall.
        by apply list_elem_of_In.
  - intros [= <- <-]. split; [by rewrite length_seq|]. split; [|split; [|done]].
    + intros k i Hk. apply lookup_seq in Hk as [-> Hlt]. simpl.
      split; [|done]. by apply lookup_lt_is_Some_2.
    + apply seq_sorted.
Qed.

End IndexFilter.

Section GzipTrailer.

Lemma skip_nulls_spec zeros rest :
  Forall (fun b => b = x00) zeros -> head rest <> Some x00 ->
  skip_nulls (zeros ++ rest) = rest.
Proof.
  intros Hz Hrest. induction Hz as [|b zeros -> _ IH]; simpl; [|done].
  destruct rest as [|c rest]; [done|]. simpl in *.
  destruct (Byte.eqb c x00) eqn:Hc; [|done].
  apply Byte.byte_dec_bl in Hc. congruence.
Qed.

(** On a reader without a [_read_exact] method, [read_eof_py3] ends every
    call with an exception.  On a reader with the method it takes the 8
    bytes of the trailer whatever they are, then the null bytes that
    follow, and leaves the stream at the first other byte. *)
Theorem read_eof_skips_padding :
  (forall fp, read_eof_py3 false fp = Raised) /\
  (forall trailer zeros rest,
     length trailer = 8 ->
     Forall (fun b => b = x00) zeros -> head rest <> Some x00 ->
     read_eof_py3 true (trailer ++ zeros ++ rest) = Done rest) /\
  (forall trailer trailer' fp,
     length trailer = 8 -> length trailer' = 8 ->
     read_eof_py3 true (trailer ++ fp) = read_eof_py3 true (trailer' ++ fp)).
Proof.
  assert (Hdrop : forall trailer fp, length trailer = 8 ->
            read_eof_py3 true (trailer ++ fp) = Done (skip_nulls fp)).
  { intros trailer fp Hlen. unfold read_eof_py3, read_exact.
    rewrite length_app, Hlen.
    replace (8 + length fp <? 8) with false by (symmetry; apply Nat.ltb_ge; lia).
    by rewrite drop_app_length'. }
  split; [done|]. split.
  - intros trailer zeros rest Hlen Hz Hrest.
    by rewrite Hdrop, skip_nulls_spec.
  - intros trailer trailer' fp Hlen Hlen'. by rewrite !Hdrop.
Qed.

End GzipTrailer.

(** ** Detection does not miss a record *)

Section Completeness.
Context `{Externals}.

(** A pattern without [^] matches the same way wherever the subject
    starts. *)
Lemma matches_shift r s s1 :
  matches r s s1 -> anchored r = false ->
  forall p, matches r (MState p (rest s) (caps s))
                      (MState (p + (pos s1 - pos s)) (rest s1) (caps s1)).
Proof.
  induction 1 as [s|c s b bs Hrest Hc|r1 r2 s s1 s2 H1 IH1 H2 IH2|r1 r2 s s1 _ IH
                 |r1 r2 s s1 _ IH|r s|n r s s1 s2 H1 IH1 H2 IH2|r s s1 _ IH
                 |r s s1 s2 H1 IH1 Hlt H2 IH2|nm' r s s1 H1 IH|s Hp|s Hr];
    simpl; intros Ha p; try discriminate.
  - rewrite Nat.sub_diag, Nat.add_0_r. constructor.
  - replace (p + (S (pos s) - pos s)) with (S p) by lia.
    apply (M_chr c (MState p (rest s) (caps s)) b bs); done.
  - apply orb_false_iff in Ha as [Ha1 Ha2].
    apply matches_pos_le in H1 as Hle1. apply matches_pos_le in H2 as Hle2.
    eapply M_cat; [apply (IH1 Ha1 p)|].
    replace (p + (pos s2 - pos s)) with (p + (pos s1 - pos s) + (pos s2 - pos s1)) by lia.
    apply (IH2 Ha2 (p + (pos s1 - pos s))).
  - apply orb_false_iff in Ha as [Ha1 Ha2]. apply M_alt_l. by apply IH.
  - apply orb_false_iff in Ha as [Ha1 Ha2]. apply M_alt_r. by apply IH.
  - rewrite Nat.sub_diag, Nat.add_0_r. constructor.
  - apply matches_pos_le in H1 as Hle1. apply matches_pos_le in H2 as Hle2.
    eapply M_rep_S; [apply (IH1 Ha p)|].
    replace (p + (pos s2 - pos s)) with (p + (pos s1 - pos s) + (pos s2 - pos s1)) by lia.
    apply (IH2 Ha (p + (pos s1 - pos s))).
  - apply M_plus_1. by apply IH.
  - apply matches_pos_le in H1 as Hle1. apply matches_pos_le in H2 as Hle2.
    eapply M_plus_S; [apply (IH1 Ha p)|done|].
    replace (p + (pos s2 - pos s)) with (p + (pos s1 - pos s) + (pos s2 - pos s1)) by lia.
    apply (IH2 Ha (p + (pos s1 - pos s))).
  - apply matches_pos_le in H1 as Hle1.
    pose proof (M_group nm' r _ _ (IH Ha p)) as Hg. unfold set_cap in Hg. simpl in Hg.
    replace (p + (pos s1 - pos s) - p) with (pos s1 - pos s) in Hg by lia. exact Hg.
  - rewrite Nat.sub_diag, Nat.add_0_r. by constructor.
Qed.

Lemma try_at_shift r i j buf :
  anchored r = false -> is_Some (try_at r i buf) -> is_Some (try_at r j buf).
Proof.
  intros Ha [m Hm]. apply try_at_matches in Hm as (s1 & Hm & _).
  pose proof (matches_shift _ _ _ Hm Ha j) as Hj. simpl in Hj.
  destruct (run_complete r _ _ Some Hj) as [s2 Hrun]; [done|].
  unfold try_at. rewrite Hrun. done.
Qed.

(** [re.search] finds a match that starts no later than any place where
    the pattern matches. *)
Lemma search_from_leftmost r :
  anchored r = false ->
  forall buf i q, q <= length buf -> is_Some (try_at r 0 (drop q buf)) ->
    exists m, search_from r i buf = Some m /\ m_start m <= i + q.
Proof.
  intros Ha. induction buf as [|b buf IH]; intros i q Hq Hat.
  - simpl in Hq. assert (q = 0) as -> by lia. rewrite drop_0 in Hat.
    apply (try_at_shift r 0 i [] Ha) in Hat as [m Hm].
    exists m. simpl. rewrite Hm. split; [done|].
    unfold try_at in Hm. destruct (run r _ Some); [|discriminate].
    injection Hm as <-. simpl. lia.
  - simpl. destruct (try_at r i (b :: buf)) as [m|] eqn:Hm.
    + exists m. split; [done|]. unfold try_at in Hm.
      destruct (run r _ Some); [|discriminate]. injection Hm as <-. simpl. lia.
    + destruct q as [|q].
      * rewrite drop_0 in Hat. apply (try_at_shift r 0 i _ Ha) in Hat as [m' Hm'].
        congruence.
      * simpl in Hq, Hat. destruct (IH (S i) q) as (m & -> & Hle); [lia|done|].
        exists m. split; [done|lia].
Qed.

(** From any place at or before an acceptable record, the loop finds a
    hero that starts no later than the record. *)
Lemma scan_finds buf p :
  is_Some (re_match RGX_HERO (drop p buf)) ->
  truthy (re_match rgx_strip (take 13 (drop (p + 138) buf))) = true ->
  truthy (re_match rgx_nulls (take 152 (drop (p + 351) buf))) = false ->
  forall fuel pos, pos <= p -> length buf - pos < fuel ->
    exists h hs, scan fuel RGX_HERO buf pos [] = Done (h :: hs) /\
      pos <= fst (span h) <= p.
Proof.
  intros Hat Hname Harts.
  assert (Hfit : p + 1025 <= length buf).
  { destruct Hat as [m Hm].
    assert (Hs : re_search RGX_HERO (drop p buf) = Some m).
    { unfold re_search, re_match in *.
      destruct (drop p buf); cbn [search_from]; by rewrite Hm. }
    apply hero_match_shape in Hs as (Hend & Hle & _). rewrite length_drop in Hle. lia. }
  induction fuel as [|fuel IH]; intros pos Hpos Hfuel; [lia|].
  rewrite scan_step.
  destruct (search_from_leftmost RGX_HERO eq_refl (drop pos buf) 0 (p - pos))
    as (m & Hs & Hstart).
  { rewrite length_drop. lia. }
  { rewrite drop_drop. by replace (pos + (p - pos)) with p by lia. }
  fold (re_search RGX_HERO (drop pos buf)) in Hs. rewrite Hs. simpl in Hstart.
  pose proof (re_search_span _ _ _ Hs) as [_ Hend]. rewrite length_drop in Hend.
  destruct (hero_match_shape _ _ Hs)
    as (Hwidth & _ & nm & arts & Hnm & Hars & Hnmeq & Hartseq & _).
  rewrite (hero_match_test _ _ _ _ Hs Hnm Hars).
  destruct (truthy (re_match rgx_strip nm) && negb (truthy (re_match rgx_nulls arts)))
    eqn:Hok; simpl.
  - destruct (accepted_name m) as [nmu Hnmu].
    { by rewrite (hero_match_test _ _ _ _ Hs Hnm Hars), Hok. }
    rewrite Hnmu. simpl.
    match goal with |- context [scan fuel ?r ?b ?q ?v] =>
      destruct (scan_returns r b eq_refl fuel q v) as [hs Hscan]; [lia|];
      rewrite Hscan; apply scan_places in Hscan as (new & -> & _) end.
    eexists _, new. split; [reflexivity|]. simpl. lia.
  - assert (Hne : m_start m <> p - pos).
    { intros Heq. rewrite Heq in Hnmeq, Hartseq.
      rewrite drop_drop in Hnmeq, Hartseq.
      replace (pos + (p - pos + 138)) with (p + 138) in Hnmeq by lia.
      replace (pos + (p - pos + 351)) with (p + 351) in Hartseq by lia.
      subst nm arts. by rewrite Hname, Harts in Hok. }
    destruct (IH (pos + m_start m + 1)) as (h & hs & -> & Hspan); [lia|lia|].
    exists h, hs. split; [done|lia].
Qed.

(** A pass does not come back empty from a buffer that holds, at offset
    10000 or later, a record whose name and equipment pass the tests: it
    finds a hero that starts at that record or before it. *)
Theorem acceptable_record_found (ver : option string) (buf : list byte) (p : nat) :
  adapt ver RGX_HERO = RGX_HERO ->
  START_POS <= p ->
  is_Some (re_match RGX_HERO (drop p buf)) ->
  truthy (re_match rgx_strip (take 13 (drop (p + 138) buf))) = true ->
  truthy (re_match rgx_nulls (take 152 (drop (p + 351) buf))) = false ->
  exists h hs, pass ver buf = Done (h :: hs) /\ START_POS <= fst (span h) <= p.
Proof.
  intros Had Hp Hat Hname Harts. unfold pass, detect. rewrite lookup_empty, Had.
  apply (scan_finds buf p Hat Hname Harts); [done|]. unfold scan_fuel. lia.
Qed.

End Completeness.

Section CompletenessSamples.

Lemma acceptable_record_found_witness :
  exists h hs, @pass sample_externals None sample_buffer = Done (h :: hs) /\
    START_POS <= fst (span h) <= 12050.
Proof.
  apply (@acceptable_record_found sample_externals None sample_buffer 12050).
  - reflexivity.
  - apply Nat.leb_le. vm_compute. reflexivity.
  - eexists. vm_compute. reflexivity.
  - vm_compute. reflexivity.
  - vm_compute. reflexivity.
Defined.

End CompletenessSamples.

(** ** The fields of a hero record *)

Section Fields.

Lemma matches_byte_at r s s1 :
  matches r s s1 ->
  forall o c, byte_at o r = Some c ->
    exists b, rest s !! o = Some b /\ in_charset c b = true.
Proof.
  induction 1 as [s|c s b bs Hrest Hc|r1 r2 s s1 s2 H1 IH1 H2 IH2|r1 r2 s s1 _ IH
                 |r1 r2 s s1 _ IH|r s|n r s s1 s2 H1 IH1 H2 IH2|r s s1 _ IH
                 |r s s1 s2 H1 IH1 Hlt H2 IH2|nm' r s s1 _ IH|s Hp|s Hr];
    intros o c' Hb; cbn [byte_at] in Hb; try discriminate.
  - destruct (o =? 0) eqn:Ho; [|discriminate]. injection Hb as <-.
    apply Nat.eqb_eq in Ho. subst o. exists b. by rewrite Hrest.
  - destruct (width r1) as [a|] eqn:Hw; [|discriminate].
    destruct (o <? a) eqn:Hlt; [by apply IH1|].
    apply Nat.ltb_ge in Hlt.
    destruct (IH2 _ _ Hb) as (b & Hlook & Hin). exists b. split; [|done].
    apply matches_consumes in H1 as Hcons. destruct Hcons as (n & Hp & Hr1 & _).
    rewrite (matches_width _ _ _ _ H1 Hw) in Hp. assert (n = a) as -> by lia.
    rewrite Hr1, lookup_drop in Hlook. rewrite <- Hlook. f_equal. lia.
  - destruct (width r) as [a|] eqn:Hw; [|discriminate].
    rewrite Nat.mul_0_l in Hb. by destruct o.
  - destruct (width r) as [a|] eqn:Hw; [|discriminate].
    destruct ((o <? S n * a) && (0 <? a)) eqn:Hin; [|discriminate].
    apply andb_true_iff in Hin as [Ho Ha].
    apply Nat.ltb_lt in Ho. apply Nat.ltb_lt in Ha.
    destruct (Nat.lt_ge_cases o a) as [Hlt|Hge].
    + apply IH1. by rewrite Nat.mod_small in Hb.
    + destruct (IH2 (o - a) c') as (b & Hlook & Hinb).
      { cbn [byte_at]. rewrite Hw.
        replace (o - a <? n * a) with true by (symmetry; apply Nat.ltb_lt; lia).
        replace (0 <? a) with true by (symmetry; by apply Nat.ltb_lt). simpl.
        rewrite <- Hb. f_equal.
        replace o with ((o - a) + 1 * a) at 2 by lia.
        rewrite Nat.Div0.mod_add. done. }
      exists b. split; [|done].
      apply matches_consumes in H1 as Hcons. destruct Hcons as (k & Hp & Hr1 & _).
      rewrite (matches_width _ _ _ _ H1 Hw) in Hp. assert (k = a) as -> by lia.
      rewrite Hr1, lookup_drop in Hlook. rewrite <- Hlook. f_equal. lia.
  - by apply IH.
Qed.

Lemma re_search_byte_at r buf m o c b :
  re_search r buf = Some m -> byte_at o r = Some c ->
  buf !! (m_start m + o) = Some b -> in_charset c b = true.
Proof.
  intros Hs Hc Hb. apply search_from_matches in Hs as (j & s1 & Hj & Hm & ->).
  simpl in *. destruct (matches_byte_at _ _ _ Hm o c Hc) as (b' & Hlook & Hin).
  simpl in Hlook. rewrite lookup_drop in Hlook. congruence.
Qed.

Lemma charset_max_bound c n b :
  charset_max c = Some n -> in_charset c b = true -> (Byte.to_N b <= n)%N.
Proof.
  destruct c as [|b0|lo hi|rs]; simpl; try discriminate; intros [= <-] Hin.
  - apply Byte.byte_dec_bl in Hin. subst. lia.
  - unfold in_range in Hin. apply andb_true_iff in Hin as [_ Hin].
    by apply N.leb_le in Hin.
Qed.

Lemma byte_max_in_range (r : regex) (n : N) (lo len o : nat) :
  forallb (fun o => bool_decide (byte_at o r ≫= charset_max = Some n)) (seq lo len) = true ->
  lo <= o < lo + len -> byte_at o r ≫= charset_max = Some n.
Proof.
  intros Hall Ho. rewrite forallb_forall in Hall.
  specialize (Hall o). rewrite bool_decide_eq_true in Hall. apply Hall.
  apply in_seq. lia.
Qed.

(** The bytes of a hero record that the pattern bounds: the number of
    skill slots used is at most 28 and its three upper bytes are null,
    the skill levels are at most 3 and the skill slots at most 28, the
    spell flags are 0 or 1, and the slots reserved by combination
    artifacts are within their small ranges. *)
Theorem hero_field_ranges (buf : list byte) (m : Match) (o : nat) (b : byte) :
  re_search RGX_HERO buf = Some m ->
  buf !! (m_start m + o) = Some b ->
  (o = 12 -> (Byte.to_N b <= 28)%N) /\
  (13 <= o <= 15 -> b = x00) /\
  (151 <= o <= 178 -> (Byte.to_N b <= 3)%N) /\
  (179 <= o <= 206 -> (Byte.to_N b <= 28)%N) /\
  (211 <= o <= 350 -> (Byte.to_N b <= 1)%N) /\
  (1016 <= o <= 1021 -> (Byte.to_N b <= 1)%N) /\
  (o = 1022 -> (Byte.to_N b <= 2)%N) /\
  (o = 1023 -> (Byte.to_N b <= 1)%N) /\
  (o = 1024 -> (Byte.to_N b <= 5)%N).
Proof.
  intros Hs Hb.
  assert (Hbound : forall n lo len,
            forallb (fun o => bool_decide (byte_at o RGX_HERO ≫= charset_max = Some n))
                    (seq lo len) = true ->
            lo <= o < lo + len -> (Byte.to_N b <= n)%N).
  { intros n lo len Hall Ho.
    pose proof (byte_max_in_range _ _ _ _ _ Hall Ho) as Hmax.
    destruct (byte_at o RGX_HERO) as [c|] eqn:Hc; [|discriminate]. simpl in Hmax.
    apply (charset_max_bound c n b Hmax). by apply (re_search_byte_at _ _ _ _ _ _ Hs Hc). }
  split; [|split; [|split; [|split; [|split; [|split; [|split; [|split]]]]]]].
  - intros ->. apply (Hbound 28%N 12 1); [by vm_compute|lia].
  - intros Ho. assert (Hz : (Byte.to_N b <= 0)%N).
    { apply (Hbound 0%N 13 3); [by vm_compute|lia]. }
    apply N.le_0_r in Hz. pose proof (Byte.of_to_N b) as Hof.
    rewrite Hz in Hof. by injection Hof.
  - intros Ho. apply (Hbound 3%N 151 28); [by vm_compute|lia].
  - intros Ho. apply (Hbound 28%N 179 28); [by vm_compute|lia].
  - intros Ho. apply (Hbound 1%N 211 140); [by vm_compute|lia].
  - intros Ho. apply (Hbound 1%N 1016 6); [by vm_compute|lia].
  - intros ->. apply (Hbound 2%N 1022 1); [by vm_compute|lia].
  - intros ->. apply (Hbound 1%N 1023 1); [by vm_compute|lia].
  - intros ->. apply (Hbound 5%N 1024 1); [by vm_compute|lia].
Qed.

End Fields.

Section FieldSamples.

Lemma hero_field_ranges_witness :
  exists m b,
    re_search RGX_HERO (sample_record (list_byte_of_string "Adela") (one_artifact x07))
      = Some m /\
    sample_record (list_byte_of_string "Adela") (one_artifact x07) !! (m_start m + 12)
      = Some b /\
    ((12 = 12 -> (Byte.to_N b <= 28)%N) /\
     (13 <= 12 <= 15 -> b = x00) /\
     (151 <= 12 <= 178 -> (Byte.to_N b <= 3)%N) /\
     (179 <= 12 <= 206 -> (Byte.to_N b <= 28)%N) /\
     (211 <= 12 <= 350 -> (Byte.to_N b <= 1)%N) /\
     (1016 <= 12 <= 1021 -> (Byte.to_N b <= 1)%N) /\
     (12 = 1022 -> (Byte.to_N b <= 2)%N) /\
     (12 = 1023 -> (Byte.to_N b <= 1)%N) /\
     (12 = 1024 -> (Byte.to_N b <= 5)%N)).
Proof.
  eexists _, _. split; [vm_compute; reflexivity|]. split; [vm_compute; reflexivity|].
  eapply (hero_field_ranges
            (sample_record (list_byte_of_string "Adela") (one_artifact x07)) _ 12).
  - vm_compute. reflexivity.
  - vm_compute. reflexivity.
Defined.

End FieldSamples.

(** ** Samples *)

Section FurtherSamples.

Lemma hero_index_finds_witness :
  exists p, @parse sample_externals (Some ["sod"; "hota"]) true sample_savefile = Done p /\
    ((forall i h hero, p_heroes p !! i = Some h ->
        name hero = name h -> place hero = place h ->
        hero_index (p_heroes p) hero = Done i) /\
     (forall hero, hero_index (p_heroes p) hero = Raised <->
        forall h, h ∈ p_heroes p -> Hero_eq h (OHero hero) = false)).
Proof.
  eexists. split; [vm_compute; reflexivity|].
  eapply (@hero_index_finds sample_externals (Some ["sod"; "hota"]) true sample_savefile).
  vm_compute. reflexivity.
Defined.

(** In the list of the sample, Bron is found at position 1 and a hero
    called Bron of another place is not found. *)
Lemma hero_index_samples :
  hero_index sample_heroes (Hero_init "Bron" [x01] 0 (11025, 12050)) = Done 1 /\
  hero_index sample_heroes (Hero_init "Bron" [] 5 (11025, 12050)) = Raised.
Proof. split; vm_compute; reflexivity. Qed.

Lemma same_name_file_order_witness :
  exists p hi hj,
    @parse sample_externals None false twin_savefile = Done p /\
    p_heroes p !! 0 = Some hi /\ p_heroes p !! 1 = Some hj /\
    name hi = "bron" /\ name hj = "Bron" /\
    (place hi < place hj /\ snd (span hi) <= fst (span hj)).
Proof.
  eexists _, _, _. split; [vm_compute; reflexivity|].
  split; [reflexivity|]. split; [reflexivity|]. split; [reflexivity|].
  split; [reflexivity|].
  eapply (@same_name_file_order sample_externals None false twin_savefile _ 0 1).
  - apply NoDup_singleton.
  - apply sample_regex_ok.
  - vm_compute. reflexivity.
  - reflexivity.
  - reflexivity.
  - lia.
  - reflexivity.
Defined.

Lemma parsed_spans_apart_witness :
  exists p hi hj,
    @parse sample_externals (Some ["sod"; "hota"]) true sample_savefile = Done p /\
    p_heroes p !! 0 = Some hi /\ p_heroes p !! 1 = Some hj /\
    span hi = (12050, 13075) /\ span hj = (11025, 12050) /\
    (snd (span hi) <= fst (span hj) \/ snd (span hj) <= fst (span hi)).
Proof.
  eexists _, _, _. split; [vm_compute; reflexivity|].
  split; [reflexivity|]. split; [reflexivity|]. split; [reflexivity|].
  split; [reflexivity|].
  eapply (@parsed_spans_apart sample_externals (Some ["sod"; "hota"]) true sample_savefile
            _ 0 1).
  - apply (bool_decide_unpack _). vm_compute. exact I.
  - apply sample_regex_ok.
  - vm_compute. reflexivity.
  - reflexivity.
  - reflexivity.
  - lia.
Defined.

(** Numbers are brought into range, names are looked up, and nothing is
    selected for an unknown name. *)
Lemma action_samples :
  action sample_heroes (OInt 7) = Some 1%Z /\
  action sample_heroes (OInt (-3)) = Some 0%Z /\
  action sample_heroes (OStr "Bron") = Some 1%Z /\
  action sample_heroes (OStr "Cyra") = None /\
  action [] (OInt 0) = None.
Proof. repeat split. Qed.

Lemma reconcile_by_name_witness :
  exists r, reconcile sample_heroes sample_heroes_anew 0 = Done r /\
    (forall i, r = Some i ->
       exists hero2, sample_heroes_anew !! i = Some hero2 /\
         name hero2 = name (Hero_init "adela" [] 1 (12050, 13075))) /\
    (forall x, x ∈ sample_heroes_anew ->
       Hero_eq x (OHero (Hero_init "adela" [] 1 (12050, 13075))) = true ->
       exists i hero2, r = Some i /\ sample_heroes_anew !! i = Some hero2 /\
         Hero_eq hero2 (OHero (Hero_init "adela" [] 1 (12050, 13075))) = true) /\
    (r = None <->
     forall x, x ∈ sample_heroes_anew ->
       name x <> name (Hero_init "adela" [] 1 (12050, 13075))).
Proof. apply (reconcile_by_name sample_heroes sample_heroes_anew 0). reflexivity. Defined.

(** The page on adela, who has moved from place 1 to place 2, is
    reconciled by name with position 1; the page on Bron, whose place has
    changed too, with position 2; against an empty list it is dropped. *)
Lemma reconcile_samples :
  reconcile sample_heroes sample_heroes_anew 0 = Done (Some 1) /\
  reconcile sample_heroes sample_heroes_anew 1 = Done (Some 2) /\
  reconcile sample_heroes sample_heroes 1 = Done (Some 1) /\
  reconcile sample_heroes [] 1 = Done None /\
  reconcile sample_heroes sample_heroes_anew 2 = Raised.
Proof. repeat split. Qed.

Lemma visit_no_repeat_witness :
  no_repeat [None; Some 0] /\
  (no_repeat (visit (Some 1) [None; Some 0]) /\
   last (visit (Some 1) [None; Some 0]) = Some (Some 1) /\
   visit (Some 1) (visit (Some 1) [None; Some 0]) = visit (Some 1) [None; Some 0] /\
   (forall x, x ∈ visit (Some 1) [None; Some 0] <-> x = Some 1 \/ x ∈ [None; Some 0])).
Proof.
  assert (Hno : no_repeat [None; Some 0]) by (simpl; split; [discriminate|exact I]).
  split; [exact Hno|]. apply (visit_no_repeat (Some 1) [None; Some 0] Hno).
Defined.

Lemma on_close_page_forgets_witness :
  exists visited nav,
    on_close_page false 7 7 sample_pages [None; Some 0; Some 1; Some 0; Some 1]
      = (delete 7 sample_pages, visited, nav) /\
    (Some 1 ∉ visited) /\
    (forall x, x <> Some 1 ->
       (x ∈ visited <-> x ∈ [None; Some 0; Some 1; Some 0; Some 1])) /\
    sublist visited [None; Some 0; Some 1; Some 0; Some 1] /\
    no_repeat visited /\
    last visited
      = last (filter (fun x => x <> Some 1) [None; Some 0; Some 1; Some 0; Some 1]) /\
    (7 = 7 ->
       match last visited with
       | Some (Some i) => nav = SelectHero i /\ i <> 1
       | _ => nav = SelectIndex
       end) /\
    (7 <> 7 -> nav = Nothing).
Proof. apply (on_close_page_forgets 7 7 sample_pages _ 1). reflexivity. Defined.

(** Closing the current page on Bron leaves the index page and adela in
    the history and selects adela. *)
Lemma on_close_page_sample :
  snd <$> Some (on_close_page false 7 7 sample_pages [None; Some 0; Some 1; Some 0; Some 1])
  = Some (SelectHero 0) /\
  snd (fst (on_close_page false 7 7 sample_pages [None; Some 0; Some 1; Some 0; Some 1]))
  = [None; Some 0].
Proof. split; vm_compute; reflexivity. Qed.

Lemma reparse_index_page_last_witness :
  last [Some 1; None] = Some None /\
  reparse sample_heroes sample_heroes None [1] [Some 1; None] = Raised.
Proof.
  split; [reflexivity|].
  apply (reparse_index_page_last sample_heroes sample_heroes [1] [Some 1; None]).
  reflexivity.
Defined.

Lemma reparse_selects_witness :
  exists pages visited sel,
    reparse sample_heroes sample_heroes_anew (Some (Hero_init "Bron" [] 0 (11025, 12050)))
            [0; 1] [None; Some 0; Some 1] = Done (pages, visited, sel) /\
    sel = Some 2 /\
    (sublist pages [0; 1] /\
     (forall index, index ∈ pages ->
        exists h1 x, sample_heroes !! index = Some h1 /\ x ∈ sample_heroes_anew /\
          name x = name h1) /\
     (forall index, index ∈ [0; 1] -> index ∉ pages -> Some index ∉ visited) /\
     sublist visited [None; Some 0; Some 1] /\
     no_repeat visited /\
     (forall i, sel = Some i ->
        i < length sample_heroes_anew /\
        ((exists h0 x, Some (Hero_init "Bron" [] 0 (11025, 12050)) = Some h0 /\
            sample_heroes_anew !! i = Some x /\ name x = name h0) \/
         last visited = Some (Some i))) /\
     (sel = None -> visited = [])).
Proof.
  eexists _, _, _. split; [vm_compute; reflexivity|]. split; [reflexivity|].
  apply (reparse_selects sample_heroes sample_heroes_anew
           (Some (Hero_init "Bron" [] 0 (11025, 12050))) [0; 1] _ [None; Some 0; Some 1]).
  vm_compute. reflexivity.
Defined.

Lemma parse_keeps_version_witness :
  exists p,
    @parse sample_externals (Some ["sod"; "hota"]) false
           (set_version (Some "sod") sample_savefile) = Done p /\
    p_savefile p = set_version (Some "sod") sample_savefile /\
    (version_truthy (version (set_version (Some "sod") sample_savefile)) = true ->
       p_status p = None /\
       exists hs,
         @pass sample_externals (version (set_version (Some "sod") sample_savefile))
               (raw (set_version (Some "sod") sample_savefile)) = Done hs /\
         p_heroes p = @sorted sample_externals hs) /\
    (version_truthy (version (set_version (Some "sod") sample_savefile)) = false ->
       p_heroes p = [] /\
       p_status p = Some (no_heroes_status (set_version (Some "sod") sample_savefile))).
Proof.
  apply (@parse_keeps_version sample_externals).
  - by left.
  - reflexivity.
Defined.

(** Under no version the heroes of the sample are not listed. *)
Lemma unversioned_sample_not_listed :
  (fun p => (version (p_savefile p), p_heroes p, p_status p))
    <$> @parse sample_externals None false sample_savefile =
  Done (None, [], Some "No heroes identified in sample.gm1."%string).
Proof. vm_compute. reflexivity. Qed.

Lemma short_buffer_no_heroes_witness :
  length (sample_record (list_byte_of_string "Adela") (one_artifact x07))
    < START_POS + 1025 /\
  (@pass sample_externals None
         (sample_record (list_byte_of_string "Adela") (one_artifact x07)) = Done [] /\
   @hero_count sample_externals None
         (sample_record (list_byte_of_string "Adela") (one_artifact x07)) = 0).
Proof.
  assert (Hlen : length (sample_record (list_byte_of_string "Adela") (one_artifact x07))
                 < START_POS + 1025).
  { apply Nat.ltb_lt. vm_compute. reflexivity. }
  split; [exact Hlen|].
  apply (@short_buffer_no_heroes sample_externals None _ eq_refl Hlen).
Defined.

Lemma ensure_basestats_settles_witness :
  exists self',
    @ensure_basestats sample_metadata
      (sample_hero (Some "Blackshard of the Dead Knight") ∅) false = Done self' /\
    (set_basestats (basestats (sample_hero (Some "Blackshard of the Dead Knight") ∅)) self'
       = sample_hero (Some "Blackshard of the Dead Knight") ∅ /\
     @ensure_basestats sample_metadata self' false = Done self').
Proof.
  eexists. split; [vm_compute; reflexivity|].
  apply (@ensure_basestats_settles sample_metadata
           (sample_hero (Some "Blackshard of the Dead Knight") ∅) _ false).
  vm_compute. reflexivity.
Defined.

Lemma ensure_basestats_needs_stats_witness :
  @ensure_basestats sample_metadata
    (MkHero "Bron" [] 0 (11025, 12050) ∅ (Some [("weapon", None)]) None) false = Raised.
Proof.
  apply (@ensure_basestats_needs_stats sample_metadata _ false [("weapon", None)] "attack").
  - reflexivity.
  - by right.
  - intros a bonus Hlook. simpl in Hlook.
    apply lookup_singleton_Some in Hlook as [_ <-]. simpl. lia.
  - simpl. apply list_elem_of_here.
  - reflexivity.
Defined.

Lemma index_links_point_witness :
  exists links visible,
    index_visible sample_heroes sample_toggles sample_herotexts (Some ["attack"; "5"])
      = Done (links, visible) /\
    links = [1] /\
    (length links = length visible /\
     (forall k i, links !! k = Some i ->
        is_Some (sample_heroes !! i) /\ visible !! k = sample_heroes !! i) /\
     StronglySorted lt links /\
     (Some ["attack"; "5"] = None -> visible = sample_heroes) /\
     (forall ws, Some ["attack"; "5"] = Some ws ->
        exists texts, index_texts sample_toggles sample_herotexts = Done texts /\
          forall i, i ∈ links <->
            exists h t, sample_heroes !! i = Some h /\ texts !! i = Some t /\
              Forall (fun w => exists a b, t = String.append a (String.append w b)) ws)).
Proof.
  eexists _, _. split; [vm_compute; reflexivity|]. split; [reflexivity|].
  apply (index_links_point sample_heroes sample_toggles sample_herotexts
           (Some ["attack"; "5"])).
  vm_compute. reflexivity.
Defined.

(** A word of a category that is toggled off finds nothing; no search
    text shows every hero. *)
Lemma index_visible_samples :
  index_visible sample_heroes sample_toggles sample_herotexts (Some ["archer"])
    = Done ([], []) /\
  index_visible sample_heroes sample_toggles sample_herotexts None
    = Done ([0; 1], sample_heroes).
Proof. split; vm_compute; reflexivity. Qed.

(** After a trailer of any 8 bytes and three bytes of padding the stream
    stands at the header of the next member. *)
Lemma read_eof_skips_padding_witness :
  read_eof_py3 true
    ([xde; xad; xbe; xef; x10; x00; x00; x00] ++ [x00; x00; x00] ++ [x1f; x8b])
  = Done [x1f; x8b].
Proof.
  apply (proj1 (proj2 read_eof_skips_padding)
           [xde; xad; xbe; xef; x10; x00; x00; x00] [x00; x00; x00] [x1f; x8b]).
  - reflexivity.
  - repeat constructor.
  - discriminate.
Defined.

End FurtherSamples.
